(** * Embed resolution and front-matter stripping of the editor-to-clipboard plugin

    A shallow embedding of the text pipeline of [src/main.ts], in its last
    revision there:
    [OneClickClipboard], [resolveBlockReferences], [cleanBlockContent],
    [cleanAllBlockIds] and [getHeadingContent].

    JavaScript strings are sequences of UTF-16 code units, modelled as
    [list N].  The regular expressions of the source are terms of a small
    regex syntax run by a backtracking matcher that follows the ECMAScript
    pattern semantics (greedy and lazy quantifiers, capture groups, line
    anchors under the [m] flag, lookahead).

    After the pipeline come the loop of the first revision of the file, the
    path that [saveToFile] writes to, the controls that
    [updateButtonLocations] creates, and [cleanBlockContent] as it is in
    [src/unnamed/part_001]. *)

From Stdlib Require Import Ascii String.
From Stdlib Require Import List NArith Arith Lia Bool.
Import ListNotations.
Open Scope list_scope.

(** ** JavaScript strings *)

Definition jsstring := list N.

(** [js] writes a string constant: the two characters backslash (92) and
    n (110) stand for the line feed U+000A; every other character stands for
    itself. *)
Fixpoint unescape (l : list N) : jsstring :=
  match l with
  | [] => []
  | c :: t =>
    match t with
    | d :: t' =>
      if ((c =? 92) && (d =? 110))%N then 10%N :: unescape t' else c :: unescape t
    | [] => [c]
    end
  end.

Definition js (s : string) : jsstring :=
  unescape (map N_of_ascii (list_ascii_of_string s)).

Definition NL : N := 10%N.
Definition HASH : N := 35%N.
Definition CARET : N := 94%N.
Definition RBRACKET : N := 93%N.

(** LineTerminator of ECMAScript: LF, CR, LS, PS. *)
Definition isLineTerminator (c : N) : bool :=
  ((c =? 10) || (c =? 13) || (c =? 8232) || (c =? 8233))%N.

(** The class [\s], which is also what [String.prototype.trim] removes:
    WhiteSpace and LineTerminator. *)
Definition isWhiteSpace (c : N) : bool :=
  (((9 <=? c) && (c <=? 13)) || (c =? 32) || (c =? 160) || (c =? 5760)
   || ((8192 <=? c) && (c <=? 8202)) || (c =? 8232) || (c =? 8233)
   || (c =? 8239) || (c =? 8287) || (c =? 12288) || (c =? 65279))%N.

(** [[a-zA-Z0-9]] *)
Definition isAlnum (c : N) : bool :=
  (((97 <=? c) && (c <=? 122)) || ((65 <=? c) && (c <=? 90))
   || ((48 <=? c) && (c <=? 57)))%N.

(** [s.slice(a, b)] for [0 <= a]. *)
Definition slice (s : jsstring) (a b : nat) : jsstring := firstn (b - a) (skipn a s).

Fixpoint trimStart (s : jsstring) : jsstring :=
  match s with
  | c :: t => if isWhiteSpace c then trimStart t else s
  | [] => []
  end.

Definition trimEnd (s : jsstring) : jsstring := rev (trimStart (rev s)).

(** [s.trim()] *)
Definition trim (s : jsstring) : jsstring := trimEnd (trimStart s).

(** [s.split('\n')]: never empty, the empty string gives one empty line. *)
Fixpoint split (s : jsstring) : list jsstring :=
  match s with
  | [] => [[]]
  | c :: t =>
    if (c =? NL)%N then [] :: split t
    else match split t with
         | l :: ls => (c :: l) :: ls
         | [] => [[c]]
         end
  end.

(** [lines.join('\n')] *)
Fixpoint join (ls : list jsstring) : jsstring :=
  match ls with
  | [] => []
  | [l] => l
  | l :: ls' => l ++ NL :: join ls'
  end.

(** [stripPrefix p s] is the rest of [s] after its prefix [p], if [s] starts
    with [p]. *)
Fixpoint stripPrefix (p s : jsstring) : option jsstring :=
  match p, s with
  | [], _ => Some s
  | a :: p', b :: s' => if (a =? b)%N then stripPrefix p' s' else None
  | _ :: _, [] => None
  end.

(** [s.startsWith(p)] *)
Definition startsWith (s p : jsstring) : bool :=
  match stripPrefix p s with Some _ => true | None => false end.

(** [s.includes(sub)] *)
Fixpoint includes (s sub : jsstring) : bool :=
  startsWith s sub || match s with [] => false | _ :: t => includes t sub end.

(** [a === b] on strings. *)
Fixpoint eqb_js (a b : jsstring) : bool :=
  match a, b with
  | [], [] => true
  | x :: a', y :: b' => (x =? y)%N && eqb_js a' b'
  | _, _ => false
  end.

(** Truthiness of a string: only the empty string is falsy. *)
Definition truthy (s : jsstring) : bool :=
  match s with [] => false | _ :: _ => true end.

(** Truthiness of [string | null]. *)
Definition isTruthy (r : option jsstring) : bool :=
  match r with Some s => truthy s | None => false end.

(** ** Regular expressions *)

Inductive regex : Type :=
| Eps
| Cls (p : N -> bool)
| Seq (r1 r2 : regex)
| Alt (r1 r2 : regex)
| Rep (lo : nat) (hi : option nat) (greedy : bool) (r : regex)
| Grp (i : nat) (r : regex)
| Bol
| Eol
| Ahead (r : regex).

(** Matcher state: the input as a zipper ([pre] is the consumed part,
    reversed) and the captures, latest first, as (group, (start, end)). *)
Record MState := mkState {
  pre : list N;
  suf : list N;
  caps : list (nat * (nat * nat)) }.

Definition pos (s : MState) : nat := length (pre s).

Definition Cont := MState -> option MState.

Fixpoint groupsOf (r : regex) : list nat :=
  match r with
  | Eps | Cls _ | Bol | Eol => []
  | Seq a b | Alt a b => groupsOf a ++ groupsOf b
  | Rep _ _ _ a | Ahead a => groupsOf a
  | Grp i a => i :: groupsOf a
  end.

(** Captures of the groups inside a quantified atom are reset at each
    iteration. *)
Definition clearCaps (gs : list nat) (s : MState) : MState :=
  mkState (pre s) (suf s)
    (filter (fun e => negb (existsb (Nat.eqb (fst e)) gs)) (caps s)).

Definition setCap (i b e : nat) (s : MState) : MState :=
  mkState (pre s) (suf s) ((i, (b, e)) :: caps s).

(** [^] and [$]; [ml] is the [m] flag. *)
Definition atBol (ml : bool) (s : MState) : bool :=
  match pre s with [] => true | c :: _ => ml && isLineTerminator c end.

Definition atEol (ml : bool) (s : MState) : bool :=
  match suf s with [] => true | c :: _ => ml && isLineTerminator c end.

(** Quantifiers.  [repMust] runs the mandatory iterations; [repMay] runs the
    optional ones, at most [rem] of them, and refuses an iteration that
    consumes nothing.  Each optional iteration consumes a code unit, so the
    fuel, one more than the length of the remaining input, is never used up. *)
Section Repeat.
Variable ma : MState -> Cont -> option MState.
Variable clear : MState -> MState.
Variable greedy : bool.
Variable k : Cont.

Fixpoint repMay (fuel : nat) (rem : option nat) (s : MState) : option MState :=
  match fuel with
  | 0 => k s
  | S fuel' =>
    match rem with
    | Some 0 => k s
    | _ =>
      let again (s' : MState) :=
        if pos s' =? pos s then None
        else repMay fuel' (option_map Nat.pred rem) s' in
      if greedy
      then match ma (clear s) again with Some e => Some e | None => k s end
      else match k s with Some e => Some e | None => ma (clear s) again end
    end
  end.

Fixpoint repMust (n : nat) (after : Cont) (s : MState) : option MState :=
  match n with
  | 0 => after s
  | S n' => ma (clear s) (repMust n' after)
  end.
End Repeat.

(** The backtracking matcher, in continuation-passing style: [matcher ml r s k]
    matches [r] at [s] and hands each candidate end state to [k], in the
    priority order of ECMAScript, until [k] accepts one. *)
Fixpoint matcher (ml : bool) (r : regex) (s : MState) (k : Cont) : option MState :=
  match r with
  | Eps => k s
  | Cls p =>
    match suf s with
    | c :: t => if p c then k (mkState (c :: pre s) t (caps s)) else None
    | [] => None
    end
  | Seq a b => matcher ml a s (fun s' => matcher ml b s' k)
  | Alt a b =>
    match matcher ml a s k with Some e => Some e | None => matcher ml b s k end
  | Rep lo hi g a =>
    repMust (matcher ml a) (clearCaps (groupsOf a)) lo
      (fun s' => repMay (matcher ml a) (clearCaps (groupsOf a)) g k
                   (S (length (suf s'))) (option_map (fun h => h - lo) hi) s') s
  | Grp i a => matcher ml a s (fun s' => k (setCap i (pos s) (pos s') s'))
  | Bol => if atBol ml s then k s else None
  | Eol => if atEol ml s then k s else None
  | Ahead a =>
    match matcher ml a s Some with
    | Some e => k (mkState (pre s) (suf s) (caps e))
    | None => None
    end
  end.

(** A compiled pattern with its [m] flag; the [g] flag shows in the function
    a pattern is used with ([matchAll], [replaceAll]). *)
Record RegExp := mkRegExp { source : regex; multiline : bool }.

(** A match: [index], the end offset, the captures, and the input. *)
Record Match := mkMatch {
  index : nat;
  endIndex : nat;
  captured : list (nat * (nat * nat));
  input : jsstring }.

(** [match[0]] *)
Definition fullMatch (m : Match) : jsstring := slice (input m) (index m) (endIndex m).

Fixpoint lookupCap (i : nat) (cs : list (nat * (nat * nat))) : option (nat * nat) :=
  match cs with
  | [] => None
  | (j, be) :: t => if i =? j then Some be else lookupCap i t
  end.

(** [match[i]]: [None] is [undefined], a group that took no part. *)
Definition group (m : Match) (i : nat) : option jsstring :=
  match lookupCap i (captured m) with
  | Some (b, e) => Some (slice (input m) b e)
  | None => None
  end.

(** [match[i]] of a group that every match of the pattern goes through. *)
Definition capture (m : Match) (i : nat) : jsstring :=
  match group m i with Some g => g | None => [] end.

(** Try the pattern at the current offset, then at each later one. *)
Fixpoint scan (re : RegExp) (p s : list N) : option (nat * MState) :=
  match matcher (multiline re) (source re) (mkState p s []) Some with
  | Some e => Some (length p, e)
  | None => match s with [] => None | c :: t => scan re (c :: p) t end
  end.

(** [re.exec(text)] and [text.match(re)] for a pattern without the [g] flag. *)
Definition exec (re : RegExp) (text : jsstring) : option Match :=
  match scan re [] text with
  | Some (i, e) => Some (mkMatch i (pos e) (caps e) text)
  | None => None
  end.

(** [Array.from(text.matchAll(re))]: each search starts where the last match
    ended, one code unit further after an empty match. *)
Fixpoint matchAllFrom (fuel : nat) (re : RegExp) (text : jsstring) (p s : list N) : list Match :=
  match fuel with
  | 0 => []
  | S fuel' =>
    match scan re p s with
    | None => []
    | Some (i, e) =>
      mkMatch i (pos e) (caps e) text ::
      (if pos e =? i
       then match suf e with
            | [] => []
            | c :: t => matchAllFrom fuel' re text (c :: pre e) t
            end
       else matchAllFrom fuel' re text (pre e) (suf e))
    end
  end.

Definition matchAll (re : RegExp) (text : jsstring) : list Match :=
  matchAllFrom (S (length text)) re text [] text.

(** [s.replace(re, repl)] without the [g] flag; [repl] has no [$] pattern. *)
Definition replace (re : RegExp) (repl s : jsstring) : jsstring :=
  match exec re s with
  | Some m => firstn (index m) s ++ repl ++ skipn (endIndex m) s
  | None => s
  end.

Fixpoint spliceMatches (s repl : jsstring) (cur : nat) (ms : list Match) : jsstring :=
  match ms with
  | [] => skipn cur s
  | m :: ms' => slice s cur (index m) ++ repl ++ spliceMatches s repl (endIndex m) ms'
  end.

(** [s.replace(re, repl)] with the [g] flag. *)
Definition replaceAll (re : RegExp) (repl s : jsstring) : jsstring :=
  spliceMatches s repl 0 (matchAll re s).

(** ** The patterns of the source *)

Definition cat (rs : list regex) : regex := fold_right Seq Eps rs.
Definition chr (c : N) : regex := Cls (N.eqb c).
Definition lit (s : jsstring) : regex := cat (map chr s).
Definition dot : regex := Cls (fun c => negb (isLineTerminator c)).
Definition anyChar : regex := Cls (fun _ => true).
Definition ws : regex := Cls isWhiteSpace.
Definition star (r : regex) : regex := Rep 0 None true r.
Definition plus (r : regex) : regex := Rep 1 None true r.
Definition lazyStar (r : regex) : regex := Rep 0 None false r.
Definition opt (r : regex) : regex := Rep 0 (Some 1) true r.

(** [/\!\[\[(.*?)(?:#([^\]]+))?\]\]/g] *)
Definition embedPattern : RegExp :=
  mkRegExp
    (cat [lit (js "![["); Grp 1 (lazyStar dot);
          opt (cat [chr HASH; Grp 2 (plus (Cls (fun c => negb (c =? RBRACKET)%N)))]);
          lit (js "]]")])
    false.

(** [/^---\n[\s\S]*?\n---\n/] *)
Definition metadataPattern : RegExp :=
  mkRegExp (cat [Bol; lit (js "---\n"); lazyStar anyChar; lit (js "\n---\n")]) false.

(** [/\s*\^[a-zA-Z0-9]+\s*$/g] *)
Definition anyBlockIdPattern : RegExp :=
  mkRegExp (cat [star ws; chr CARET; plus (Cls isAlnum); star ws; Eol]) false.

(** [/^(#{1,6})\s/] *)
Definition headingMarkerPattern : RegExp :=
  mkRegExp (cat [Bol; Grp 1 (Rep 1 (Some 6) true (chr HASH)); ws]) false.

(** The source builds its block patterns with [new RegExp] from a template that
    holds a block id as it stands.  An id without pattern syntax characters
    denotes the sequence of its code units.  An id with one is read by the
    RegExp constructor as pattern syntax (or refused with a SyntaxError);
    that reading is outside this model, and [interpolate] gives [None]. *)
Definition isSyntaxCharacter (c : N) : bool :=
  existsb (N.eqb c) (js "^$\.*+?()[]{}|").

Definition interpolate (s : jsstring) : option regex :=
  if forallb (fun c => negb (isSyntaxCharacter c)) s then Some (lit s) else None.

(** [new RegExp(`\\^${blockId}\\s*$`)] *)
Definition thisBlockIdPattern (blockId : regex) : RegExp :=
  mkRegExp (cat [chr CARET; blockId; star ws; Eol]) false.

(** [new RegExp(`(.*?)\\s*\\^${blockId}(?:\\s|$)`, "m")] *)
Definition blockPattern (blockId : regex) : RegExp :=
  mkRegExp (cat [Grp 1 (lazyStar dot); star ws; chr CARET; blockId; Alt ws Eol]) true.

(** [new RegExp(`^(#{1,6})\\s+${safeHeading}`, "m")]; [safeHeading] is the
    heading with every pattern syntax character escaped, so it denotes the
    sequence of the heading's code units. *)
Definition headingLevelPattern (heading : jsstring) : RegExp :=
  mkRegExp (cat [Bol; Grp 1 (Rep 1 (Some 6) true (chr HASH)); plus ws; lit heading]) true.

(** [new RegExp(`^#{${headingLevel}}\\s+${safeHeading}.*?$(\\n[\\s\\S]*?)(?=^#{1,${headingLevel}}\\s|$)`, "m")] *)
Definition headingPattern (headingLevel : nat) (heading : jsstring) : RegExp :=
  mkRegExp
    (cat [Bol; Rep headingLevel (Some headingLevel) true (chr HASH); plus ws; lit heading;
          lazyStar dot; Eol;
          Grp 1 (cat [chr NL; lazyStar anyChar]);
          Ahead (Alt (cat [Bol; Rep 1 (Some headingLevel) true (chr HASH); ws]) Eol)])
    true.

(** ** The stripper *)

(** Errors: [None] stands for a run without a result: one that ends with a
    TypeError, or one that leaves the model, through [interpolate]. *)
Notation "x <- c1 ;; c2" := (match c1 with Some x => c2 | None => None end)
  (at level 61, c1 at next level, right associativity).

Fixpoint mapM {A B : Type} (f : A -> option B) (l : list A) : option (list B) :=
  match l with
  | [] => Some []
  | a :: t => b <- f a ;; bs <- mapM f t ;; Some (b :: bs)
  end.

(** [cleanBlockContent(content, blockId?)] *)
Definition cleanBlockContent (content : jsstring) (blockId : option jsstring) : option jsstring :=
  if negb (truthy content) then Some []
  else
    content1 <- match blockId with
                | Some id =>
                  if truthy id
                  then p <- interpolate id ;; Some (replace (thisBlockIdPattern p) [] content)
                  else Some content
                | None => Some content
                end ;;
    let content2 := replaceAll anyBlockIdPattern [] content1 in
    Some (trim content2).

(** [cleanAllBlockIds(content)] *)
Definition cleanAllBlockIds (content : jsstring) : option jsstring :=
  lines <- mapM (fun line => cleanBlockContent line None) (split content) ;;
  Some (join lines).

(** [content.replace(/^---\n[\s\S]*?\n---\n/, '')] *)
Definition stripMetadata (content : jsstring) : jsstring := replace metadataPattern [] content.

Record Settings := mkSettings { removeMetadata : bool; removeBlockIds : bool }.

(** The two stripping steps that open [OneClickClipboard] and [saveToFile]. *)
Definition strip (settings : Settings) (content : jsstring) : option jsstring :=
  let content := if removeMetadata settings then stripMetadata content else content in
  if removeBlockIds settings then cleanAllBlockIds content else Some content.

(** ** The host *)

(** [HeadingCache]: [heading], [level], [position.start.line]. *)
Record HeadingCache := mkHeading {
  heading : jsstring;
  level : nat;
  headingLine : nat }.

(** [BlockCache]: [position.start.line]. *)
Record BlockCache := mkBlock { blockLine : nat }.

(** [CachedMetadata]; [blocks] maps block ids to their entries, [None] is an
    absent field. *)
Record CachedMetadata := mkCache {
  blocks : option (list (jsstring * BlockCache));
  headings : option (list HeadingCache) }.

(** What the plugin asks of its host: [app.metadataCache.getFirstLinkpathDest],
    [app.vault.read], [app.metadataCache.getFileCache], and the runtime's
    [String.prototype.toLowerCase], whose Unicode case mapping is left open.
    Reads succeed: a rejected read is outside the model. *)
Class Host (TFile : Type) := mkHost {
  getFirstLinkpathDest : jsstring -> option TFile;
  read : TFile -> jsstring;
  getFileCache : TFile -> option CachedMetadata;
  toLowerCase : jsstring -> jsstring }.

(** ** The embed resolver *)

(** [fileCache.blocks] is a plain object, and a read of a property goes on to
    [Object.prototype] when the object has no property of its own by that
    name.  These are the names that are found there; what a read gives for
    them is a function, or the prototype itself for [__proto__]: a value
    that is truthy and has no [position]. *)
Definition objectPrototypeNames : list jsstring :=
  [js "constructor"; js "hasOwnProperty"; js "isPrototypeOf"; js "propertyIsEnumerable";
   js "toLocaleString"; js "toString"; js "valueOf"; js "__proto__";
   js "__defineGetter__"; js "__defineSetter__"; js "__lookupGetter__";
   js "__lookupSetter__"].

(** What a read of a property of [fileCache.blocks] gives: an entry of the
    object's own, an inherited value, or [undefined]. *)
Inductive Property : Type :=
| Entry (b : BlockCache)
| Inherited
| Undefined.

(** The entry that [fileCache.blocks] has of its own for a block id. *)
Fixpoint ownBlock (blockId : jsstring) (bs : list (jsstring * BlockCache)) : option BlockCache :=
  match bs with
  | [] => None
  | (k, b) :: t => if eqb_js k blockId then Some b else ownBlock blockId t
  end.

(** [fileCache.blocks[blockId]] *)
Definition lookupBlock (blockId : jsstring) (bs : list (jsstring * BlockCache)) : Property :=
  match ownBlock blockId bs with
  | Some b => Entry b
  | None => if existsb (eqb_js blockId) objectPrototypeNames then Inherited else Undefined
  end.

(** [fileCache && fileCache.blocks && fileCache.blocks[blockId]]; [Undefined]
    stands for every falsy value of the conjunction. *)
Definition cachedBlock (fileCache : option CachedMetadata) (blockId : jsstring) : Property :=
  match fileCache with
  | Some c => match blocks c with Some bs => lookupBlock blockId bs | None => Undefined end
  | None => Undefined
  end.

(** [headingMatch && headingMatch[1].length <= headingLevel] for one line. *)
Definition isBoundary (headingLevel : nat) (line : jsstring) : bool :=
  match exec headingMarkerPattern line with
  | Some headingMatch => length (capture headingMatch 1) <=? headingLevel
  | None => false
  end.

(** The [for] loop that looks for [endLine], from [lineNum] on; [None] when
    it runs to the end without a [break]. *)
Fixpoint findEndLine (headingLevel : nat) (rest : list jsstring) (lineNum : nat) : option nat :=
  match rest with
  | [] => None
  | line :: rest' =>
    if isBoundary headingLevel line then Some lineNum
    else findEndLine headingLevel rest' (S lineNum)
  end.

(** [fileLines.slice(a, b)] *)
Definition sliceLines (ls : list jsstring) (a b : nat) : list jsstring :=
  firstn (b - a) (skipn a ls).

(** The heading branch on a heading found in the cache. *)
Definition headingSection (fileContent : jsstring) (headingLevel headingLine : nat) : jsstring :=
  let fileLines := split fileContent in
  let endLine :=
    match findEndLine headingLevel (skipn (headingLine + 1) fileLines) (headingLine + 1) with
    | Some lineNum => lineNum
    | None => length fileLines
    end in
  trim (join (sliceLines fileLines headingLine endLine)).

Definition newlineIf (c : option N) : jsstring :=
  match c with
  | Some c => if (c =? NL)%N then [NL] else []
  | None => []
  end.

(** [match[1].trim()] *)
Definition filePathOf (m : Match) : jsstring := trim (capture m 1).

(** [match[2] ? match[2].trim() : ''], the empty string when there is no scope. *)
Definition hashPartOf (m : Match) : jsstring :=
  match group m 2 with
  | Some g => if truthy g then trim g else []
  | None => []
  end.

(** [content.slice(0, match.index) + text + content.slice(match.index + fullMatch.length)] *)
Definition spliceAt (content : jsstring) (m : Match) (text : jsstring) : jsstring :=
  firstn (index m) content ++ text ++ skipn (index m + length (fullMatch m)) content.

(** [content[match.index - 1]] and [content[match.index + fullMatch.length]],
    [None] for the empty string the source takes at either end. *)
Definition beforeEmbed (content : jsstring) (m : Match) : option N :=
  if 0 <? index m then nth_error content (index m - 1) else None.

Definition afterEmbed (content : jsstring) (m : Match) : option N :=
  if index m + length (fullMatch m) <? length content
  then nth_error content (index m + length (fullMatch m)) else None.

Definition fileNotFound (filePath : jsstring) : jsstring :=
  js "[File not found: " ++ filePath ++ js "]".

Definition contentNotFound (filePath hashPart : jsstring) : jsstring :=
  js "[Content not found: " ++ filePath
     ++ (if truthy hashPart then HASH :: hashPart else []) ++ js "]".

(** The [for] loop of [resolveBlockReferences], over the matches from the last
    to the first; [step] is the loop body below the guard
    [if (!match || !match.index) continue]. *)
Fixpoint spliceLoop (step : jsstring -> Match -> option jsstring)
         (content : jsstring) (ms : list Match) : option jsstring :=
  match ms with
  | [] => Some content
  | m :: ms' =>
    if index m =? 0 then spliceLoop step content ms'
    else content' <- step content m ;; spliceLoop step content' ms'
  end.

Section Resolver.
Context {TFile : Type} {host : Host TFile}.

(** [getHeadingContent(filePath, heading)] *)
Definition getHeadingContent (filePath heading : jsstring) : option jsstring :=
  match getFirstLinkpathDest filePath with
  | None => None
  | Some file =>
    let fileContent := read file in
    match exec (headingLevelPattern heading) fileContent with
    | None => None
    | Some levelMatch =>
      let headingLevel := length (capture levelMatch 1) in
      match exec (headingPattern headingLevel heading) fileContent with
      | Some m => Some (trim (capture m 1))
      | None => None
      end
    end
  end.

(** The branch [hashPart.startsWith("^")].  An inherited value is truthy, so
    the cache branch is taken; its [position] is undefined, and
    [blockPosition.start] is a TypeError. *)
Definition blockReplacement (fileContent : jsstring) (fileCache : option CachedMetadata)
           (blockId : jsstring) : option (option jsstring) :=
  match cachedBlock fileCache blockId with
  | Entry b =>
    match nth_error (split fileContent) (blockLine b) with
    | Some line => r <- cleanBlockContent line (Some blockId) ;; Some (Some r)
    | None => Some (Some [])
    end
  | Inherited => None
  | Undefined =>
    p <- interpolate blockId ;;
    let replacement :=
      match exec (blockPattern p) fileContent with
      | Some blockMatch => Some (trim (capture blockMatch 1))
      | None => None
      end in
    if isTruthy replacement then Some replacement
    else
      match find (fun line => includes line (CARET :: blockId)) (split fileContent) with
      | Some line => r <- cleanBlockContent line (Some blockId) ;; Some (Some r)
      | None => Some replacement
      end
  end.

(** [fileCache.headings.find(h => h.heading.toLowerCase() === hashPart.toLowerCase())] *)
Definition cachedHeading (fileCache : option CachedMetadata) (hashPart : jsstring) : option HeadingCache :=
  match fileCache with
  | Some c =>
    match headings c with
    | Some hs => find (fun h => eqb_js (toLowerCase (heading h)) (toLowerCase hashPart)) hs
    | None => None
    end
  | None => None
  end.

(** The branch [else if (hashPart)]. *)
Definition headingReplacement (filePath fileContent : jsstring)
           (fileCache : option CachedMetadata) (hashPart : jsstring) : option jsstring :=
  let replacement :=
    match cachedHeading fileCache hashPart with
    | Some h => Some (headingSection fileContent (level h) (headingLine h))
    | None => None
    end in
  if isTruthy replacement then replacement else getHeadingContent filePath hashPart.

(** The value of [replacement] when the splice is reached. *)
Definition findReplacement (filePath hashPart : jsstring) (targetFile : TFile)
  : option (option jsstring) :=
  let fileContent := read targetFile in
  let fileCache := getFileCache targetFile in
  if startsWith hashPart [CARET]
  then blockReplacement fileContent fileCache (skipn 1 hashPart)
  else if truthy hashPart
       then Some (headingReplacement filePath fileContent fileCache hashPart)
       else Some (Some fileContent).

(** The loop body of [resolveBlockReferences] for one match. *)
Definition resolveEmbed (content : jsstring) (m : Match) : option jsstring :=
  let filePath := filePathOf m in
  let hashPart := hashPartOf m in
  match getFirstLinkpathDest filePath with
  | None => Some (spliceAt content m (fileNotFound filePath))
  | Some targetFile =>
    replacement <- findReplacement filePath hashPart targetFile ;;
    if isTruthy replacement
    then
      let replacement := match replacement with Some r => r | None => [] end in
      Some (spliceAt content m
              (newlineIf (beforeEmbed content m) ++ replacement
                         ++ newlineIf (afterEmbed content m)))
    else Some (spliceAt content m (contentNotFound filePath hashPart))
  end.

(** [resolveBlockReferences(content)] *)
Definition resolveBlockReferences (content : jsstring) : option jsstring :=
  spliceLoop resolveEmbed content (rev (matchAll embedPattern content)).

(** The text that [OneClickClipboard] writes to the clipboard. *)
Definition OneClickClipboard (settings : Settings) (content : jsstring) : option jsstring :=
  content <- strip settings content ;;
  resolveBlockReferences content.
End Resolver.

(** ** Reference definitions

    [rebuildReference] and [stripFrontMatterSpec] follow the words of the
    specification; the theorems compare them with the code above. *)

(** The loop body with the resolution of a directive replaced by a given
    assignment [rho] of replacement strings to directives. *)
Definition spliceWith (rho : Match -> jsstring) (content : jsstring) (m : Match) : option jsstring :=
  Some (spliceAt content m (rho m)).

(** The one-pass rebuild of the design notes: the segments of the original
    text between the directive spans, in order, with each directive's
    replacement between them. *)
Fixpoint rebuildFrom (text : jsstring) (cur : nat) (ms : list Match)
         (rho : Match -> jsstring) : jsstring :=
  match ms with
  | [] => skipn cur text
  | m :: ms' => slice text cur (index m) ++ rho m ++ rebuildFrom text (endIndex m) ms' rho
  end.

Definition rebuildReference (text : jsstring) (ms : list Match) (rho : Match -> jsstring) : jsstring :=
  rebuildFrom text 0 ms rho.

(** The assignment that leaves a directive at offset 0 as it is. *)
Definition keepAtZero (rho : Match -> jsstring) (m : Match) : jsstring :=
  if index m =? 0 then fullMatch m else rho m.

Definition DASHES : jsstring := js "---".

(** The lines after the first line that is exactly [---] and is followed by a
    newline (so is not the last line). *)
Fixpoint afterClosingLine (ls : list jsstring) : option (list jsstring) :=
  match ls with
  | [] => None
  | l :: tl =>
    if eqb_js l DASHES && negb (match tl with [] => true | _ :: _ => false end)
    then Some tl else afterClosingLine tl
  end.

(** Front-matter removal in the words of the specification: the text begins
    with a line [---], any content follows, none included, and then a line
    [---] with its newline; the block goes, delimiters included. *)
Definition stripFrontMatterSpec (text : jsstring) : jsstring :=
  match split text with
  | l0 :: rest =>
    if eqb_js l0 DASHES
    then match afterClosingLine rest with Some tl => join tl | None => text end
    else text
  | [] => text
  end.

(** The two stripping steps in the other order. *)
Definition blockIdsThenMetadata (content : jsstring) : option jsstring :=
  content <- cleanAllBlockIds content ;; Some (stripMetadata content).

(** ** Definitions for the proofs *)

(** [s'] is [s] moved forward over the same input. *)
Definition extends (s s' : MState) : Prop :=
  exists l, pre s' = rev l ++ pre s /\ suf s = l ++ suf s'.

(** [s'] has the captures of [s] for every group outside [gs]. *)
Definition keeps (gs : list nat) (s s' : MState) : Prop :=
  forall i, ~ In i gs -> lookupCap i (caps s') = lookupCap i (caps s).

(** A matcher hands its continuation only states reached by moving forward,
    with the captures of the groups outside [gs] as they were. *)
Definition frames (gs : list nat) (f : MState -> Cont -> option MState) : Prop :=
  forall s k e, f s k = Some e -> exists s', extends s s' /\ keeps gs s s' /\ k s' = Some e.

Definition passes (f : MState -> Cont -> option MState) : Prop :=
  forall s k e, f s k = Some e -> exists s', extends s s' /\ k s' = Some e.

(** The matches of one scan of [text]: in order, disjoint, from [lo] on. *)
Fixpoint chain (text : jsstring) (lo : nat) (ms : list Match) : Prop :=
  match ms with
  | [] => lo <= length text
  | m :: ms' =>
    input m = text /\ lo <= index m /\ index m <= endIndex m /\ chain text (endIndex m) ms'
  end.

(** The rest of [s] after the first occurrence of [pat]. *)
Fixpoint afterFirst (pat s : jsstring) : option jsstring :=
  match stripPrefix pat s with
  | Some r => Some r
  | None => match s with [] => None | _ :: t => afterFirst pat t end
  end.

(** The first state from [(p, s)] on, moving right, that [k] accepts. *)
Fixpoint firstHit (k : Cont) (p s : list N) (cs : list (nat * (nat * nat))) : option MState :=
  match k (mkState p s cs) with
  | Some e => Some e
  | None => match s with [] => None | c :: t => firstHit k (c :: p) t cs end
  end.

Definition noNL (l : jsstring) : Prop := ~ In NL l.

(** [stripMetadata] seen on lines: after the opening line, one line is
    passed over before a closing line is looked for. *)
Definition afterClose (ls : list jsstring) : option (list jsstring) :=
  match ls with
  | _ :: tl => afterClosingLine tl
  | [] => None
  end.

Definition stripLines (ls : list jsstring) : list jsstring :=
  match ls with
  | l0 :: rest =>
    if eqb_js l0 DASHES
    then match afterClose rest with Some tl => tl | None => ls end
    else ls
  | [] => ls
  end.

(** [cleanBlockContent(line)] without a block id, which never fails. *)
Definition cleanLine (line : jsstring) : jsstring :=
  if truthy line then trim (replaceAll anyBlockIdPattern [] line) else [].

Section Modelled.
Context {TFile : Type} {host : Host TFile}.

(** A directive whose resolution has a result within the model: its link
    resolves to no file; or it is no block directive; or the read of its
    block id in the block cache of the file gives no inherited value, and the
    id holds no pattern syntax character. *)
Definition modelled (m : Match) : bool :=
  match getFirstLinkpathDest (filePathOf m) with
  | None => true
  | Some targetFile =>
    match stripPrefix [CARET] (hashPartOf m) with
    | Some blockId =>
      match cachedBlock (getFileCache targetFile) blockId with
      | Inherited => false
      | _ => match interpolate blockId with Some _ => true | None => false end
      end
    | None => true
    end
  end.
End Modelled.

(** The boundary rule in plain terms: the line begins with one to six [#],
    no more than the level of the heading looked for, and a white-space code
    unit follows them. *)
Fixpoint leadingHashes (line : jsstring) : nat :=
  match line with
  | c :: t => if (c =? HASH)%N then S (leadingHashes t) else 0
  | [] => 0
  end.

Definition isMarker (headingLevel : nat) (line : jsstring) : bool :=
  let n := leadingHashes line in
  (1 <=? n) && (n <=? 6) && (n <=? headingLevel)
  && match nth_error line n with Some w => isWhiteSpace w | None => false end.

(** ** A small vault for the examples *)

Module Demo.
Definition doc : jsstring := js "# A\nline1\n  line2 ^abc\n## B\nb1\n# C\nlast".

Definition link (p : jsstring) : option nat :=
  if eqb_js p (js "Doc") then Some 0
  else if eqb_js p (js "Empty") then Some 1 else None.

Definition contents (f : nat) : jsstring :=
  match f with 0 => doc | _ => [] end.

Definition lower (s : jsstring) : jsstring :=
  map (fun c => if ((65 <=? c) && (c <=? 90))%N then (c + 32)%N else c) s.

Definition cache (f : nat) : option CachedMetadata :=
  Some (mkCache (Some [(js "abc", mkBlock 2)])
                (Some [mkHeading (js "A") 1 0; mkHeading (js "B") 2 3; mkHeading (js "C") 1 5])).

Definition indexed : Host nat := mkHost nat link contents cache lower.
Definition unindexed : Host nat := mkHost nat link contents (fun _ => None) lower.
End Demo.


(** ** The first revision of the resolver

    [src/main.ts] opens with an earlier revision of the plugin.  Its loop has
    no guard on [match.index], and it cleans a block line with
    [line.replace(`^${blockId}`, '').trim()]. *)

(** [s.replace(pat, repl)] for a string [pat]: the first occurrence goes;
    [repl] has no [$] pattern. *)
Fixpoint replaceFirst (pat repl s : jsstring) : jsstring :=
  match stripPrefix pat s with
  | Some r => repl ++ r
  | None => match s with [] => [] | c :: t => c :: replaceFirst pat repl t end
  end.

(** The [for] loop of the first revision, over the matches from the last to
    the first; [step] is the whole loop body. *)
Fixpoint spliceLoopV1 (step : jsstring -> Match -> option jsstring)
         (content : jsstring) (ms : list Match) : option jsstring :=
  match ms with
  | [] => Some content
  | m :: ms' => content' <- step content m ;; spliceLoopV1 step content' ms'
  end.

Section ResolverV1.
Context {TFile : Type} {host : Host TFile}.

(** The branch [hashPart.startsWith("^")] of the first revision.  A cached
    line number past the end of the file makes [fileLines[...]] undefined and
    the call of [replace] on it a TypeError; an inherited value has no
    [position], and [blockPosition.start] is a TypeError. *)
Definition blockReplacementV1 (fileContent : jsstring) (fileCache : option CachedMetadata)
           (blockId : jsstring) : option (option jsstring) :=
  match cachedBlock fileCache blockId with
  | Entry b =>
    match nth_error (split fileContent) (blockLine b) with
    | Some line => Some (Some (trim (replaceFirst (CARET :: blockId) [] line)))
    | None => None
    end
  | Inherited => None
  | Undefined =>
    p <- interpolate blockId ;;
    let replacement :=
      match exec (blockPattern p) fileContent with
      | Some blockMatch => Some (trim (capture blockMatch 1))
      | None => None
      end in
    if isTruthy replacement then Some replacement
    else
      match find (fun line => includes line (CARET :: blockId)) (split fileContent) with
      | Some line => Some (Some (trim (replaceFirst (CARET :: blockId) [] line)))
      | None => Some replacement
      end
  end.

Definition findReplacementV1 (filePath hashPart : jsstring) (targetFile : TFile)
  : option (option jsstring) :=
  let fileContent := read targetFile in
  let fileCache := getFileCache targetFile in
  if startsWith hashPart [CARET]
  then blockReplacementV1 fileContent fileCache (skipn 1 hashPart)
  else if truthy hashPart
       then Some (headingReplacement filePath fileContent fileCache hashPart)
       else Some (Some fileContent).

(** The loop body of the first revision for one match. *)
Definition resolveEmbedV1 (content : jsstring) (m : Match) : option jsstring :=
  let filePath := filePathOf m in
  let hashPart := hashPartOf m in
  match getFirstLinkpathDest filePath with
  | None => Some (spliceAt content m (fileNotFound filePath))
  | Some targetFile =>
    replacement <- findReplacementV1 filePath hashPart targetFile ;;
    if isTruthy replacement
    then
      let replacement := match replacement with Some r => r | None => [] end in
      Some (spliceAt content m
              (newlineIf (beforeEmbed content m) ++ replacement
                         ++ newlineIf (afterEmbed content m)))
    else Some (spliceAt content m (contentNotFound filePath hashPart))
  end.

(** [resolveBlockReferences(content)] of the first revision. *)
Definition resolveBlockReferencesV1 (content : jsstring) : option jsstring :=
  spliceLoopV1 resolveEmbedV1 content (rev (matchAll embedPattern content)).
End ResolverV1.

(** ** The resolver in one pass *)

(** One pass over the text from the left: the segments between the directive
    spans as they are, and in the place of each directive what [repl] gives
    for it, from the code unit before the span in the text and the code unit
    after it in the result; a directive that [skip] holds for stays. *)
Fixpoint weave (repl : option N -> option N -> Match -> option jsstring)
         (skip : Match -> bool) (text : jsstring) (cur : nat) (ms : list Match)
  : option jsstring :=
  match ms with
  | [] => Some (skipn cur text)
  | m :: ms' =>
    tail <- weave repl skip text (endIndex m) ms' ;;
    if skip m then Some (slice text cur (endIndex m) ++ tail)
    else t <- repl (beforeEmbed text m) (hd_error tail) m ;;
         Some (slice text cur (index m) ++ t ++ tail)
  end.

Section OnePass.
Context {TFile : Type} {host : Host TFile}.

(** What stands for a directive in the result, given the code units next to
    its span: a diagnostic, or the replacement with its newlines. *)
Definition replacementWith (find : jsstring -> jsstring -> TFile -> option (option jsstring))
           (before after : option N) (m : Match) : option jsstring :=
  match getFirstLinkpathDest (filePathOf m) with
  | None => Some (fileNotFound (filePathOf m))
  | Some targetFile =>
    replacement <- find (filePathOf m) (hashPartOf m) targetFile ;;
    if isTruthy replacement
    then Some (newlineIf before ++ match replacement with Some r => r | None => [] end
                         ++ newlineIf after)
    else Some (contentNotFound (filePathOf m) (hashPartOf m))
  end.

Definition onePass (text : jsstring) : option jsstring :=
  weave (replacementWith findReplacement) (fun m => index m =? 0) text 0
        (matchAll embedPattern text).

Definition onePassV1 (text : jsstring) : option jsstring :=
  weave (replacementWith findReplacementV1) (fun _ => false) text 0
        (matchAll embedPattern text).
End OnePass.

(** ** Definitions for the further properties *)

(** A text that the pattern [/\s*\^[a-zA-Z0-9]+\s*$/] matches from its first
    code unit to its last: white space, a caret, a non-empty run of letters
    and digits, white space. *)
Definition blockIdTail (l : jsstring) : Prop :=
  exists w1 id w2,
    l = w1 ++ CARET :: id ++ w2
    /\ Forall (fun c => isWhiteSpace c = true) w1
    /\ id <> [] /\ Forall (fun c => isAlnum c = true) id
    /\ Forall (fun c => isWhiteSpace c = true) w2.

(** ** Saving to a file *)

(** [s.endsWith(p)] *)
Definition endsWith (s p : jsstring) : bool :=
  (length p <=? length s) && eqb_js (skipn (length s - length p) s) p.

(** [suggestedName] of [saveToFile]: the prefix of the settings, the name of
    the current file without its first [.md], or [exported-content] when the
    view has no file, and [.md]. *)
Definition suggestedName (fileNamePrefix : jsstring) (currentFile : option jsstring) : jsstring :=
  let fileName :=
    match currentFile with
    | Some name => replaceFirst (js ".md") [] name
    | None => js "exported-content"
    end in
  fileNamePrefix ++ fileName ++ js ".md".

(** [targetPath] of [saveToFile] when it reaches the vault: the default save
    location of the settings, or else the answer to the prompt, with [.md]
    put after it unless it ends with it.  [answer] is what [SaveFileModal]
    resolves with, the empty string after Cancel; [None] is the [return]
    that follows an empty answer. *)
Definition targetPath (defaultSaveLocation answer : jsstring) : option jsstring :=
  if truthy defaultSaveLocation then Some defaultSaveLocation
  else if negb (truthy answer) then None
       else if negb (endsWith answer (js ".md")) then Some (answer ++ js ".md")
            else Some answer.

(** ** The buttons

    What [updateButtonLocations] puts on the screen, from the two position
    settings.  The document and the workspace show in two answers of the
    host: whether a settings view is open ([isSettingsOpen]), and whether the
    root split of the workspace is found ([mainContent] in
    [createFloatingButtonGroup]). *)
Module Buttons.

Inductive Horizontal := Left | Right.
Inductive Vertical := Top | Middle | Bottom.

(** ['ribbon' | 'hidden' | 'floating-<horizontal>-<vertical>'] *)
Inductive ButtonPosition :=
| ribbon
| hidden
| floating (horizontal : Horizontal) (vertical : Vertical).

(** ['copy' | 'save'] *)
Inductive ButtonType := copy | save.

(** A control that a call leaves on the screen: a ribbon icon for a button,
    or a floating container at a position with the buttons put into it. *)
Inductive Control :=
| RibbonIcon (type : ButtonType)
| FloatingContainer (position : ButtonPosition) (buttons : list ButtonType).

(** [position.startsWith('floating-')] *)
Definition isFloating (position : ButtonPosition) : bool :=
  match position with floating _ _ => true | _ => false end.

Definition eqb_Horizontal (a b : Horizontal) : bool :=
  match a, b with Left, Left | Right, Right => true | _, _ => false end.

Definition eqb_Vertical (a b : Vertical) : bool :=
  match a, b with Top, Top | Middle, Middle | Bottom, Bottom => true | _, _ => false end.

(** [a === b] on positions. *)
Definition eqb_ButtonPosition (a b : ButtonPosition) : bool :=
  match a, b with
  | ribbon, ribbon | hidden, hidden => true
  | floating h v, floating h' v' => eqb_Horizontal h h' && eqb_Vertical v v'
  | _, _ => false
  end.

(** [createFloatingButton(type, position)] *)
Definition createFloatingButton (type : ButtonType) (position : ButtonPosition) : Control :=
  FloatingContainer position [type].

(** [createFloatingButtonGroup(position)]: without the root split the
    container is returned as it was created, before any button is put into
    it. *)
Definition createFloatingButtonGroup (mainContent : bool) (position : ButtonPosition) : Control :=
  if negb mainContent then FloatingContainer position []
  else FloatingContainer position [copy; save].

(** [addButtonForPosition(type, position)] *)
Definition addButtonForPosition (type : ButtonType) (position : ButtonPosition) : list Control :=
  match position with
  | hidden => []
  | ribbon => [RibbonIcon type]
  | floating _ _ => []
  end.

(** [addButtonsToContainers()] *)
Definition addButtonsToContainers (copyButtonPosition saveButtonPosition : ButtonPosition)
  : list Control :=
  addButtonForPosition copy copyButtonPosition ++ addButtonForPosition save saveButtonPosition.

(** [updateButtonLocations()]: the controls that one call creates, after it
    has removed the floating containers of the calls before. *)
Definition updateButtonLocations (settingsOpen mainContent : bool)
           (copyButtonPosition saveButtonPosition : ButtonPosition) : list Control :=
  if settingsOpen then []
  else
    (if isFloating copyButtonPosition || isFloating saveButtonPosition
     then
       if eqb_ButtonPosition copyButtonPosition saveButtonPosition
          && isFloating copyButtonPosition
       then [createFloatingButtonGroup mainContent copyButtonPosition]
       else
         (if isFloating copyButtonPosition
          then [createFloatingButton copy copyButtonPosition] else [])
         ++ (if isFloating saveButtonPosition
             then [createFloatingButton save saveButtonPosition] else [])
     else [])
    ++ addButtonsToContainers copyButtonPosition saveButtonPosition.

Definition eqb_ButtonType (a b : ButtonType) : bool :=
  match a, b with copy, copy | save, save => true | _, _ => false end.

(** The control gives access to the button. *)
Definition holds (type : ButtonType) (c : Control) : bool :=
  match c with
  | RibbonIcon t => eqb_ButtonType t type
  | FloatingContainer _ buttons => existsb (eqb_ButtonType type) buttons
  end.

(** The control is a floating container at the position. *)
Definition floatsAt (position : ButtonPosition) (c : Control) : bool :=
  match c with
  | RibbonIcon _ => false
  | FloatingContainer p _ => eqb_ButtonPosition p position
  end.

Definition positionOf (type : ButtonType) (copyButtonPosition saveButtonPosition : ButtonPosition)
  : ButtonPosition :=
  match type with copy => copyButtonPosition | save => saveButtonPosition end.

(** What [isSettingsOpen] asks of the workspace:
    [app.workspace.getLeavesOfType] and [leaf.view?.getViewType()], which is
    [None] for a leaf without a view. *)
Class Workspace (Leaf : Type) := mkWorkspace {
  getLeavesOfType : jsstring -> list Leaf;
  getViewType : Leaf -> option jsstring }.

(** [isSettingsOpen()] *)
Definition isSettingsOpen {Leaf : Type} {workspace : Workspace Leaf} : bool :=
  let allLeaves := getLeavesOfType (js "markdown") ++ getLeavesOfType (js "empty") in
  existsb (fun leaf =>
             match getViewType leaf with
             | Some viewType => eqb_js viewType (js "setting")
             | None => false
             end) allLeaves.

(** A workspace with one leaf of every type, for the examples. *)
Definition oneLeafEach : Workspace jsstring := mkWorkspace jsstring (fun t => [t]) Some.
End Buttons.

(** A text that the pattern [\^<id>\s*$] matches from its first code unit to
    its last, for an id that stands for itself: a caret, the id, white
    space. *)
Definition idTail (id l : jsstring) : Prop :=
  exists w, l = CARET :: id ++ w /\ Forall (fun c => isWhiteSpace c = true) w.

(** ** The revision of [src/unnamed/part_001]

    In this revision [cleanBlockContent] ends with
    [content.replace(/\s+$/, '')] in the place of [content.trim()]. *)
Module Part001.

(** [/\s+$/] *)
Definition trailingWhiteSpacePattern : RegExp :=
  mkRegExp (cat [plus ws; Eol]) false.

(** [cleanBlockContent(content, blockId?)] *)
Definition cleanBlockContent (content : jsstring) (blockId : option jsstring) : option jsstring :=
  if negb (truthy content) then Some []
  else
    content1 <- match blockId with
                | Some id =>
                  if truthy id
                  then p <- interpolate id ;; Some (replace (thisBlockIdPattern p) [] content)
                  else Some content
                | None => Some content
                end ;;
    let content2 := replaceAll anyBlockIdPattern [] content1 in
    Some (replace trailingWhiteSpacePattern [] content2).
End Part001.
(** * Theory

    ** The matcher only moves forward *)
Lemma extends_refl s : extends s s.
Proof. exists []. split; reflexivity. Qed.

Lemma extends_trans a b c : extends a b -> extends b c -> extends a c.
Proof.
  intros [l1 [H1 H2]] [l2 [H3 H4]]. exists (l1 ++ l2). split.
  - rewrite H3, H1, rev_app_distr, app_assoc. reflexivity.
  - rewrite H2, H4, app_assoc. reflexivity.
Qed.

Lemma extends_same s s' t :
  pre t = pre s' -> suf t = suf s' -> extends s s' -> extends s t.
Proof. intros Hp Hs [l [H1 H2]]. exists l. rewrite Hp, Hs. auto. Qed.

Lemma extends_from s s' t :
  pre t = pre s -> suf t = suf s -> extends t s' -> extends s s'.
Proof. intros Hp Hs [l [H1 H2]]. exists l. rewrite <- Hp, <- Hs. auto. Qed.

Lemma extends_pos s s' : extends s s' -> pos s <= pos s'.
Proof.
  intros [l [H1 _]]. unfold pos. rewrite H1, length_app. lia.
Qed.

Lemma keeps_refl gs s : keeps gs s s.
Proof. intros i _. reflexivity. Qed.

Lemma keeps_trans gs a b c : keeps gs a b -> keeps gs b c -> keeps gs a c.
Proof. intros H1 H2 i Hi. rewrite (H2 i Hi). apply H1. exact Hi. Qed.

Lemma keeps_weaken gs gs' a b : incl gs gs' -> keeps gs a b -> keeps gs' a b.
Proof. intros Hincl H i Hi. apply H. intros Hin. apply Hi, Hincl, Hin. Qed.

Lemma lookupCap_clear gs i : forall cs,
  ~ In i gs ->
  lookupCap i (filter (fun e => negb (existsb (Nat.eqb (fst e)) gs)) cs) = lookupCap i cs.
Proof.
  intros cs Hi. induction cs as [|[j be] cs IH]; [reflexivity|].
  cbn [filter fst lookupCap]. destruct (existsb (Nat.eqb j) gs) eqn:E; cbn [negb].
  - destruct (Nat.eqb_spec i j) as [->|Hne]; [|exact IH].
    exfalso. apply Hi. apply existsb_exists in E. destruct E as (x & Hx & Hjx).
    apply Nat.eqb_eq in Hjx. subst x. exact Hx.
  - cbn [lookupCap]. destruct (i =? j); [reflexivity | exact IH].
Qed.

Lemma keeps_clear gs s s' : keeps gs (clearCaps gs s) s' -> keeps gs s s'.
Proof.
  intros H i Hi. rewrite (H i Hi). unfold clearCaps. cbn [caps].
  apply lookupCap_clear. exact Hi.
Qed.

Lemma repMay_frames ma gs g k :
  frames gs ma ->
  forall fuel rem s e,
    repMay ma (clearCaps gs) g k fuel rem s = Some e ->
    exists s', extends s s' /\ keeps gs s s' /\ k s' = Some e.
Proof.
  intros Hma. induction fuel as [|fuel IH]; intros rem s e H; simpl in H.
  - exists s. (split; [|split]); [apply extends_refl | apply keeps_refl | exact H].
  - remember (ma (clearCaps gs s)
         (fun s' => if pos s' =? pos s then None
                    else repMay ma (clearCaps gs) g k fuel (option_map Nat.pred rem) s')) as it eqn:Eit.
    assert (Hiter : forall e0, it = Some e0 ->
                               exists s', extends s s' /\ keeps gs s s' /\ k s' = Some e0).
    { intros e0 H0. rewrite Eit in H0. apply Hma in H0. destruct H0 as (s1 & E1 & K1 & H1).
      destruct (pos s1 =? pos s); [discriminate|].
      apply IH in H1. destruct H1 as (s2 & E2 & K2 & H2).
      exists s2. (split; [|split]); [| |exact H2].
      - eapply extends_trans; [|exact E2].
        eapply extends_from; [| |exact E1]; reflexivity.
      - eapply keeps_trans; [|exact K2]. apply keeps_clear. exact K1. }
    assert (Hk : forall e0, k s = Some e0 ->
                            exists s', extends s s' /\ keeps gs s s' /\ k s' = Some e0).
    { intros e0 H0. exists s. (split; [|split]); [apply extends_refl | apply keeps_refl | exact H0]. }
    clear Eit.
    destruct rem as [[|n]|]; [apply Hk, H | |];
      (destruct g;
       [ destruct it; [apply Hiter, H | apply Hk, H]
       | destruct (k s); [apply Hk, H | apply Hiter, H] ]).
Qed.

Lemma repMust_frames ma gs (after : Cont) :
  frames gs ma ->
  forall n s e,
    repMust ma (clearCaps gs) n after s = Some e ->
    exists s', extends s s' /\ keeps gs s s' /\ after s' = Some e.
Proof.
  intros Hma. induction n as [|n IH]; intros s e H; simpl in H.
  - exists s. (split; [|split]); [apply extends_refl | apply keeps_refl | exact H].
  - apply Hma in H. destruct H as (s1 & E1 & K1 & H1).
    apply IH in H1. destruct H1 as (s2 & E2 & K2 & H2).
    exists s2. (split; [|split]); [| |exact H2].
    + eapply extends_trans; [|exact E2].
      eapply extends_from; [| |exact E1]; reflexivity.
    + eapply keeps_trans; [|exact K2]. apply keeps_clear. exact K1.
Qed.

Lemma matcher_frames ml r : frames (groupsOf r) (matcher ml r).
Proof.
  induction r as [|p|a IHa b IHb|a IHa b IHb|lo hi g a IHa|i a IHa| | |a IHa];
    intros s k e H; cbn [matcher groupsOf] in *.
  - exists s. (split; [|split]); [apply extends_refl | apply keeps_refl | exact H].
  - destruct (suf s) as [|c t] eqn:Es; [discriminate|].
    destruct (p c); [|discriminate].
    eexists. (split; [|split]); [| |exact H].
    + exists [c]. simpl. split; [reflexivity | exact Es].
    + intros j _. reflexivity.
  - apply IHa in H. destruct H as (s1 & E1 & K1 & H1).
    apply IHb in H1. destruct H1 as (s2 & E2 & K2 & H2).
    exists s2. (split; [|split]); [eapply extends_trans; eassumption | | exact H2].
    eapply keeps_trans; eapply keeps_weaken; try eassumption;
      [apply incl_appl | apply incl_appr]; apply incl_refl.
  - destruct (matcher ml a s k) eqn:E.
    + inversion H; subst. apply IHa in E. destruct E as (s1 & E1 & K1 & H1).
      exists s1. (split; [|split]); auto.
      eapply keeps_weaken; [|exact K1]. apply incl_appl, incl_refl.
    + apply IHb in H. destruct H as (s1 & E1 & K1 & H1).
      exists s1. (split; [|split]); auto.
      eapply keeps_weaken; [|exact K1]. apply incl_appr, incl_refl.
  - apply repMust_frames in H; [|exact IHa].
    destruct H as (s1 & E1 & K1 & H1).
    apply repMay_frames in H1; [|exact IHa].
    destruct H1 as (s2 & E2 & K2 & H2).
    exists s2. (split; [|split]);
      [eapply extends_trans; eassumption | eapply keeps_trans; eassumption | exact H2].
  - apply IHa in H. destruct H as (s1 & E1 & K1 & H1).
    eexists. (split; [|split]); [| |exact H1].
    + eapply extends_same; [| |exact E1]; reflexivity.
    + intros j Hj. unfold setCap. cbn [caps lookupCap].
      destruct (Nat.eqb_spec j i) as [->|Hne]; [exfalso; apply Hj; left; reflexivity|].
      apply K1. intros Hin. apply Hj. right. exact Hin.
  - destruct (atBol ml s); [|discriminate].
    exists s. (split; [|split]); [apply extends_refl | apply keeps_refl | exact H].
  - destruct (atEol ml s); [|discriminate].
    exists s. (split; [|split]); [apply extends_refl | apply keeps_refl | exact H].
  - destruct (matcher ml a s Some) as [e1|] eqn:E; [|discriminate].
    apply IHa in E. destruct E as (s1 & E1 & K1 & H1). injection H1 as <-.
    eexists. (split; [|split]); [| |exact H].
    + eapply extends_same; [| |apply extends_refl]; reflexivity.
    + exact K1.
Qed.

Lemma matcher_passes ml r : passes (matcher ml r).
Proof.
  intros s k e H. apply matcher_frames in H. destruct H as (s1 & E1 & _ & H1).
  exists s1. split; assumption.
Qed.

Lemma scan_sound re : forall s p i e,
  scan re p s = Some (i, e) ->
  exists l1 l2, s = l1 ++ l2 ++ suf e /\ pre e = rev l2 ++ rev l1 ++ p /\ i = length p + length l1.
Proof.
  induction s as [|c t IH]; intros p i e H; simpl in H.
  - destruct (matcher _ _ _ _) eqn:E; [|discriminate].
    inversion H; subst. apply matcher_passes in E.
    destruct E as [s' [[l [H1 H2]] H3]]. inversion H3; subst. simpl in *.
    exists [], l. simpl. repeat split; auto.
  - destruct (matcher _ _ _ _) eqn:E.
    + inversion H; subst. apply matcher_passes in E.
      destruct E as [s' [[l [H1 H2]] H3]]. inversion H3; subst. simpl in *.
      exists [], l. simpl. repeat split; auto.
    + apply IH in H. destruct H as [l1 [l2 [H1 [H2 H3]]]].
      exists (c :: l1), l2. simpl. repeat split.
      * rewrite H1. reflexivity.
      * rewrite H2, <- !app_assoc. reflexivity.
      * rewrite H3. simpl. lia.
Qed.

(** ** The matches of a scan are ordered and disjoint *)

Lemma chain_weaken text ms : forall lo lo', lo <= lo' -> chain text lo' ms -> chain text lo ms.
Proof.
  destruct ms as [|m ms]; simpl; intros lo lo' Hle H.
  - lia.
  - destruct H as (Hi & H1 & H2 & H3). repeat split; auto. lia.
Qed.

Lemma chain_bound text ms : forall lo, chain text lo ms -> lo <= length text.
Proof.
  induction ms as [|m ms IH]; simpl; intros lo H.
  - exact H.
  - destruct H as (Hi & H1 & H2 & H3). apply IH in H3. lia.
Qed.

Lemma chain_Forall text ms : forall lo, chain text lo ms -> Forall (fun m => lo <= index m) ms.
Proof.
  induction ms as [|m ms IH]; simpl; intros lo H.
  - constructor.
  - destruct H as (Hi & H1 & H2 & H3). constructor; [exact H1|].
    apply IH. eapply chain_weaken; [|exact H3]. lia.
Qed.

Lemma matchAllFrom_chain re text : forall fuel p s,
  rev p ++ s = text -> chain text (length p) (matchAllFrom fuel re text p s).
Proof.
  induction fuel as [|fuel IH]; intros p s Hz; simpl.
  - rewrite <- Hz, length_app, length_rev. lia.
  - destruct (scan re p s) as [[i e]|] eqn:Es.
    + apply scan_sound in Es. destruct Es as (l1 & l2 & H1 & H2 & H3).
      assert (Hz' : rev (pre e) ++ suf e = text).
      { rewrite H2, !rev_app_distr, !rev_involutive, <- Hz, H1, <- !app_assoc. reflexivity. }
      assert (Hp : pos e = length p + length l1 + length l2).
      { unfold pos. rewrite H2, !length_app, !length_rev. lia. }
      simpl. repeat split; try lia.
      destruct (pos e =? i) eqn:Ei.
      * destruct (suf e) as [|c t] eqn:Et.
        -- simpl. rewrite <- Hz', length_app, length_rev. unfold pos. lia.
        -- eapply chain_weaken; [|apply IH].
           ++ simpl. unfold pos. lia.
           ++ simpl. rewrite <- app_assoc. exact Hz'.
      * apply IH. exact Hz'.
    + simpl. rewrite <- Hz, length_app, length_rev. lia.
Qed.

Lemma matchAll_chain re text : chain text 0 (matchAll re text).
Proof. apply (matchAllFrom_chain re text _ [] text). reflexivity. Qed.

Lemma fullMatch_length text m :
  input m = text -> index m <= endIndex m -> endIndex m <= length text ->
  index m + length (fullMatch m) = endIndex m.
Proof.
  intros Hi H1 H2. unfold fullMatch, slice. rewrite Hi, length_firstn, length_skipn. lia.
Qed.

Lemma spliceLoop_app step : forall a b content,
  spliceLoop step content (a ++ b) =
  match spliceLoop step content a with
  | Some content' => spliceLoop step content' b
  | None => None
  end.
Proof.
  induction a as [|m a IH]; intros b content; simpl.
  - reflexivity.
  - destruct (index m =? 0); [apply IH|].
    destruct (step content m); [apply IH | reflexivity].
Qed.

(** ** Splicing from the right *)

Lemma firstn_slice (text : jsstring) : forall lo i,
  lo <= i -> firstn lo text ++ slice text lo i = firstn i text.
Proof.
  unfold slice. induction text as [|c t IH]; intros lo i H.
  - rewrite skipn_nil, !firstn_nil. reflexivity.
  - destruct lo as [|lo]; simpl.
    + rewrite Nat.sub_0_r. reflexivity.
    + destruct i as [|i]; [lia|]. simpl. f_equal. apply IH. lia.
Qed.

Lemma spliceLoop_rebuild text rho : forall ms lo,
  chain text lo ms ->
  spliceLoop (spliceWith rho) text (rev ms) =
  Some (firstn lo text ++ rebuildFrom text lo ms (keepAtZero rho)).
Proof.
  induction ms as [|m ms IH]; intros lo H; simpl.
  - rewrite firstn_skipn. reflexivity.
  - destruct H as (Hi & H1 & H2 & H3).
    pose proof (chain_bound _ _ _ H3) as Hb.
    rewrite spliceLoop_app, (IH _ H3). simpl.
    rewrite app_assoc, (firstn_slice text lo (index m) H1).
    unfold keepAtZero.
    destruct (index m =? 0) eqn:E0.
    + apply Nat.eqb_eq in E0. f_equal.
      unfold fullMatch, slice. rewrite Hi, E0. simpl. rewrite Nat.sub_0_r. reflexivity.
    + unfold spliceWith, spliceAt. f_equal.
      rewrite (fullMatch_length text m Hi H2 Hb).
      rewrite firstn_app, firstn_firstn, length_firstn.
      replace (Nat.min (index m) (endIndex m)) with (index m) by lia.
      replace (index m - Nat.min (endIndex m) (length text)) with 0 by lia.
      simpl. rewrite app_nil_r.
      rewrite skipn_app, length_firstn.
      replace (endIndex m - Nat.min (endIndex m) (length text)) with 0 by lia.
      rewrite skipn_all2 by (rewrite length_firstn; lia).
      reflexivity.
Qed.

Lemma spliceLoop_keeps_prefix step :
  (forall c m c', step c m = Some c' -> exists t, c' = spliceAt c m t) ->
  forall ms b content out,
    Forall (fun m => b <= index m) ms -> b <= length content ->
    spliceLoop step content ms = Some out -> firstn b out = firstn b content.
Proof.
  intros Hstep. induction ms as [|m ms IH]; intros b content out Hall Hb H; simpl in H.
  - inversion H. reflexivity.
  - inversion Hall as [|? ? Hm Hms]; subst.
    destruct (index m =? 0); [eapply IH; eassumption|].
    destruct (step content m) as [c'|] eqn:Ec; [|discriminate].
    destruct (Hstep _ _ _ Ec) as [t Ht].
    assert (Hpre : firstn b c' = firstn b content).
    { rewrite Ht. unfold spliceAt. rewrite firstn_app, firstn_firstn, length_firstn.
      replace (Nat.min b (index m)) with b by lia.
      replace (b - Nat.min (index m) (length content)) with 0 by lia.
      simpl. apply app_nil_r. }
    rewrite <- Hpre. eapply IH; [exact Hms| |exact H].
    rewrite Ht. unfold spliceAt. rewrite length_app, length_firstn. lia.
Qed.

(** ** The front-matter pattern *)

Lemma stripPrefix_Some p : forall s r, stripPrefix p s = Some r <-> s = p ++ r.
Proof.
  induction p as [|a p IH]; intros s r; simpl.
  - split; intros H; [inversion H | subst]; reflexivity.
  - destruct s as [|b s].
    + split; intros H; discriminate.
    + destruct (N.eqb_spec a b) as [->|Hne].
      * rewrite IH. split; intros H; [subst | inversion H]; reflexivity.
      * split; intros H; [discriminate | inversion H; congruence].
Qed.

Lemma afterFirst_Some pat : forall s rest,
  afterFirst pat s = Some rest ->
  exists c, s = c ++ pat ++ rest /\
            forall c' rest', s = c' ++ pat ++ rest' -> length c <= length c'.
Proof.
  induction s as [|x s IH]; intros rest H; simpl in H.
  - destruct (stripPrefix pat []) eqn:E; [|discriminate].
    inversion H; subst. apply stripPrefix_Some in E.
    exists []. split; [exact E | intros; simpl; lia].
  - destruct (stripPrefix pat (x :: s)) eqn:E.
    + inversion H; subst. apply stripPrefix_Some in E.
      exists []. split; [exact E | intros; simpl; lia].
    + destruct (IH _ H) as [c [Hc Hmin]].
      exists (x :: c). split; [rewrite Hc; reflexivity|].
      intros c' rest' Heq. destruct c' as [|y c'].
      * simpl in Heq. apply stripPrefix_Some in Heq. congruence.
      * inversion Heq; subst. simpl. apply le_n_S. eapply Hmin. eassumption.
Qed.

Lemma afterFirst_None pat : forall s,
  afterFirst pat s = None -> forall c rest, s <> c ++ pat ++ rest.
Proof.
  induction s as [|x s IH]; intros H c rest Heq; simpl in H.
  - destruct (stripPrefix pat []) eqn:E; [discriminate|].
    destruct c; [|discriminate]. simpl in Heq.
    apply stripPrefix_Some in Heq. congruence.
  - destruct (stripPrefix pat (x :: s)) eqn:E; [discriminate|].
    destruct c as [|y c].
    + simpl in Heq. apply stripPrefix_Some in Heq. congruence.
    + inversion Heq; subst. eapply IH; [exact H | reflexivity].
Qed.

Lemma matcher_lit ml : forall l s k,
  matcher ml (lit l) s k =
  match stripPrefix l (suf s) with
  | Some r => k (mkState (rev l ++ pre s) r (caps s))
  | None => None
  end.
Proof.
  unfold lit. induction l as [|c l IH]; intros s k; simpl.
  - destruct s; reflexivity.
  - destruct (suf s) as [|b t] eqn:Es; [reflexivity|].
    rewrite (N.eqb_sym c b).
    destruct (N.eqb_spec b c) as [->|Hne]; [|reflexivity].
    rewrite IH. simpl. destruct (stripPrefix l t); [|reflexivity].
    rewrite <- app_assoc. reflexivity.
Qed.

Lemma filter_all {A} (l : list A) : filter (fun _ => true) l = l.
Proof. induction l; simpl; congruence. Qed.

Lemma clearCaps_nil s : clearCaps [] s = s.
Proof. destruct s. unfold clearCaps. simpl. rewrite filter_all. reflexivity. Qed.

Lemma lazy_any ml k : forall fuel s,
  length (suf s) < fuel ->
  repMay (matcher ml anyChar) (clearCaps []) false k fuel None s =
  firstHit k (pre s) (suf s) (caps s).
Proof.
  induction fuel as [|fuel IH]; intros [p s cs] H; [simpl in H; lia|].
  cbn [repMay]. rewrite clearCaps_nil. cbn [pre suf caps option_map].
  destruct s as [|c t]; cbn [firstHit matcher anyChar suf pre caps].
  - reflexivity.
  - destruct (k _); [reflexivity|].
    unfold pos at 1 2. cbn [pre length].
    replace (S (length p) =? length p) with false by (symmetry; apply Nat.eqb_neq; lia).
    rewrite IH by (simpl in *; lia). reflexivity.
Qed.

Lemma matcher_lazy_any ml s k :
  matcher ml (lazyStar anyChar) s k = firstHit k (pre s) (suf s) (caps s).
Proof.
  unfold lazyStar. cbn [matcher repMust groupsOf anyChar].
  apply (lazy_any ml k). lia.
Qed.

Lemma firstHit_lit ml pat cs : forall s p e,
  firstHit (fun s' => matcher ml (cat [lit pat]) s' Some) p s cs = Some e ->
  afterFirst pat s = Some (suf e).
Proof.
  induction s as [|x s IH]; intros p e H; simpl in H;
    rewrite matcher_lit in H; simpl in H.
  - destruct (stripPrefix pat []) eqn:E; [|discriminate]. inversion H; subst. simpl.
    rewrite E. reflexivity.
  - simpl. destruct (stripPrefix pat (x :: s)) eqn:E.
    + inversion H; subst. reflexivity.
    + eapply IH. exact H.
Qed.

Lemma firstHit_lit_None ml pat cs : forall s p,
  firstHit (fun s' => matcher ml (cat [lit pat]) s' Some) p s cs = None ->
  afterFirst pat s = None.
Proof.
  induction s as [|x s IH]; intros p H; simpl in H;
    rewrite matcher_lit in H; simpl in H.
  - simpl. destruct (stripPrefix pat []) eqn:E; [discriminate | reflexivity].
  - simpl. destruct (stripPrefix pat (x :: s)) eqn:E; [discriminate|].
    eapply IH. exact H.
Qed.

Lemma scan_anchored rs : forall s p,
  p <> [] -> scan (mkRegExp (cat (Bol :: rs)) false) p s = None.
Proof.
  induction s as [|c t IH]; intros p Hp; simpl; destruct p as [|b p]; try congruence; simpl.
  - reflexivity.
  - apply IH. discriminate.
Qed.

Lemma exec_suffix re text m :
  exec re text = Some m ->
  exists e, scan re [] text = Some (index m, e) /\ endIndex m = pos e /\
            skipn (endIndex m) text = suf e /\ index m <= endIndex m.
Proof.
  unfold exec. destruct (scan re [] text) as [[i e]|] eqn:Es; [|discriminate].
  intros H. inversion H; subst. simpl. exists e. repeat split.
  - apply scan_sound in Es. destruct Es as (l1 & l2 & H1 & H2 & H3).
    assert (Ht : text = rev (pre e) ++ suf e).
    { rewrite H1, H2, !rev_app_distr, !rev_involutive, <- app_assoc. reflexivity. }
    rewrite Ht at 1. unfold pos. rewrite <- (length_rev (pre e)), skipn_app.
    rewrite skipn_all, Nat.sub_diag. reflexivity.
  - apply scan_sound in Es. destruct Es as (l1 & l2 & H1 & H2 & H3).
    unfold pos. rewrite H2, !length_app, !length_rev. simpl in *. lia.
Qed.


Lemma scan_unfold re p s :
  scan re p s =
  match matcher (multiline re) (source re) (mkState p s []) Some with
  | Some e => Some (length p, e)
  | None => match s with [] => None | c :: t => scan re (c :: p) t end
  end.
Proof. destruct s; reflexivity. Qed.

Lemma scan_metadata text :
  scan metadataPattern [] text =
  match stripPrefix (js "---\n") text with
  | Some r =>
    match firstHit (fun s' => matcher false (cat [lit (js "\n---\n")]) s' Some)
                   (rev (js "---\n") ++ []) r [] with
    | Some e => Some (0, e)
    | None => None
    end
  | None => None
  end.
Proof.
  rewrite scan_unfold.
  cbn [metadataPattern source multiline cat fold_right matcher atBol pre].
  rewrite matcher_lit. cbn [suf pre caps].
  assert (Hrest : match text with [] => None | c :: t => scan metadataPattern [c] t end = None).
  { destruct text; [reflexivity|]. apply scan_anchored. discriminate. }
  destruct (stripPrefix (js "---\n") text) as [r|]; [|exact Hrest].
  rewrite matcher_lazy_any. cbn [suf pre caps].
  destruct (firstHit _ _ r []); [reflexivity | exact Hrest].
Qed.

Lemma stripMetadata_eq text :
  stripMetadata text =
  match stripPrefix (js "---\n") text with
  | Some r => match afterFirst (js "\n---\n") r with Some rest => rest | None => text end
  | None => text
  end.
Proof.
  unfold stripMetadata, replace.
  destruct (exec metadataPattern text) as [m|] eqn:E.
  - destruct (exec_suffix _ _ _ E) as (e & Hs & He & Hk & Hle).
    rewrite Hk. rewrite scan_metadata in Hs.
    destruct (stripPrefix (js "---\n") text) as [r|]; [|discriminate].
    destruct (firstHit _ _ r []) as [e'|] eqn:Ef; [|discriminate].
    injection Hs as Hi Hee. subst e'. rewrite <- Hi.
    apply firstHit_lit in Ef. rewrite Ef. reflexivity.
  - unfold exec in E. rewrite scan_metadata in E.
    destruct (stripPrefix (js "---\n") text) as [r|]; [|reflexivity].
    destruct (firstHit _ _ r []) as [e'|] eqn:Ef; [discriminate|].
    apply firstHit_lit_None in Ef. rewrite Ef. reflexivity.
Qed.

(** ** Lines *)

Lemma join_cons l ls : ls <> [] -> join (l :: ls) = l ++ NL :: join ls.
Proof. destruct ls; [congruence | reflexivity]. Qed.

Lemma split_nonempty s : split s <> [].
Proof.
  induction s as [|c t IH]; simpl; [discriminate|].
  destruct (c =? NL)%N; [discriminate|].
  destruct (split t); discriminate.
Qed.

Lemma join_split s : join (split s) = s.
Proof.
  induction s as [|c t IH]; simpl; [reflexivity|].
  destruct (N.eqb_spec c NL) as [->|Hne].
  - rewrite join_cons by apply split_nonempty. simpl. rewrite IH. reflexivity.
  - destruct (split t) as [|l ls] eqn:E; [exfalso; eapply split_nonempty; eassumption|].
    destruct ls as [|l' ls']; simpl in *; rewrite <- IH; reflexivity.
Qed.

Lemma split_noNL s : Forall noNL (split s).
Proof.
  induction s as [|c t IH]; simpl.
  - constructor; [intros []|constructor].
  - destruct (N.eqb_spec c NL) as [->|Hne].
    + constructor; [intros []|exact IH].
    + destruct (split t) as [|l ls]; [repeat constructor; intros [H|[]]; congruence|].
      inversion IH; subst. constructor; [|assumption].
      intros [H|H]; [congruence | contradiction].
Qed.

Lemma split_app_NL l : noNL l -> forall rest, split (l ++ NL :: rest) = l :: split rest.
Proof.
  induction l as [|c l IH]; intros Hl rest; simpl.
  - reflexivity.
  - destruct (N.eqb_spec c NL) as [->|Hne]; [exfalso; apply Hl; left; reflexivity|].
    rewrite IH; [reflexivity|]. intros H. apply Hl. right. exact H.
Qed.

Lemma split_single l : noNL l -> split l = [l].
Proof.
  induction l as [|c l IH]; intros Hl; simpl; [reflexivity|].
  destruct (N.eqb_spec c NL) as [->|Hne]; [exfalso; apply Hl; left; reflexivity|].
  rewrite IH; [reflexivity|]. intros H. apply Hl. right. exact H.
Qed.

Lemma split_join ls : ls <> [] -> Forall noNL ls -> split (join ls) = ls.
Proof.
  induction ls as [|l ls IH]; intros Hne Hall; [congruence|].
  inversion Hall; subst.
  destruct ls as [|l' ls'].
  - simpl. apply split_single. assumption.
  - rewrite join_cons by discriminate.
    rewrite split_app_NL by assumption. f_equal. apply IH; [discriminate | assumption].
Qed.

Lemma eqb_js_spec a : forall b, eqb_js a b = true <-> a = b.
Proof.
  induction a as [|x a IH]; intros [|y b]; simpl; try (split; [discriminate | congruence]).
  - split; reflexivity.
  - rewrite andb_true_iff, N.eqb_eq, IH. split; [intros [-> ->]; reflexivity | intros H; inversion H; auto].
Qed.

Lemma afterClose_cons l l2 rest2 :
  afterClose (l :: l2 :: rest2) =
  if eqb_js l2 DASHES && negb (match rest2 with [] => true | _ :: _ => false end)
  then Some rest2 else afterClose (l2 :: rest2).
Proof. reflexivity. Qed.

Lemma stripPrefix_app p : forall s, stripPrefix p (p ++ s) = Some s.
Proof. intros s. apply stripPrefix_Some. reflexivity. Qed.

Lemma line_start l tl :
  noNL l ->
  stripPrefix (js "---\n") (join (l :: tl)) =
  if eqb_js l DASHES && negb (match tl with [] => true | _ :: _ => false end)
  then Some (join tl) else None.
Proof.
  intros Hl. destruct (eqb_js l DASHES) eqn:E.
  - apply eqb_js_spec in E. subst l. destruct tl as [|l' tl']; simpl; [reflexivity|].
    reflexivity.
  - cbn [andb]. destruct (stripPrefix (js "---\n") (join (l :: tl))) as [r|] eqn:Ep; [|reflexivity].
    exfalso. apply stripPrefix_Some in Ep.
    assert (Hsp : split (join (l :: tl)) = DASHES :: split r).
    { rewrite Ep. apply (split_app_NL DASHES).
      intros H. simpl in H. repeat (destruct H as [H|H]; [discriminate|]). exact H. }
    destruct tl as [|l' tl'].
    + simpl in Hsp. rewrite split_single in Hsp by assumption.
      inversion Hsp; subst. rewrite (proj2 (eqb_js_spec _ _) eq_refl) in E. discriminate.
    + rewrite join_cons in Hsp by discriminate.
      rewrite split_app_NL in Hsp by assumption.
      inversion Hsp; subst. rewrite (proj2 (eqb_js_spec _ _) eq_refl) in E. discriminate.
Qed.

Lemma afterFirst_skip_line pat l :
  hd_error pat = Some NL -> noNL l -> forall rest,
  afterFirst pat (l ++ rest) = afterFirst pat rest.
Proof.
  destruct pat as [|x pat]; [discriminate|].
  intros Hx. injection Hx as ->.
  induction l as [|c l IH]; intros Hl rest; [reflexivity|].
  cbn [app afterFirst stripPrefix].
  destruct (N.eqb_spec NL c) as [<-|Hne]; [exfalso; apply Hl; left; reflexivity|].
  apply IH. intros H. apply Hl. right. exact H.
Qed.

Lemma afterFirst_step pat c s :
  afterFirst pat (c :: s) =
  match stripPrefix pat (c :: s) with Some r => Some r | None => afterFirst pat s end.
Proof. reflexivity. Qed.

Lemma afterFirst_lines : forall ls,
  Forall noNL ls ->
  afterFirst (js "\n---\n") (join ls) = option_map join (afterClose ls).
Proof.
  induction ls as [|l tl IH]; intros Hall; [reflexivity|].
  inversion Hall as [|? ? Hl Htl]; subst.
  destruct tl as [|l2 rest2].
  - cbn [join afterClose option_map].
    rewrite <- (app_nil_r l) at 1.
    rewrite (afterFirst_skip_line (js "\n---\n") l eq_refl Hl). reflexivity.
  - rewrite join_cons by discriminate.
    rewrite (afterFirst_skip_line (js "\n---\n") l eq_refl Hl).
    rewrite afterClose_cons. inversion Htl as [|? ? Hl2 Hr2]; subst.
    pose proof (line_start l2 rest2 Hl2) as Hs.
    rewrite afterFirst_step.
    change (stripPrefix (js "\n---\n") (NL :: join (l2 :: rest2)))
      with (stripPrefix (js "---\n") (join (l2 :: rest2))).
    rewrite Hs.
    destruct (eqb_js l2 DASHES && _); [reflexivity|].
    apply IH. exact Htl.
Qed.

Lemma stripMetadata_lines ls :
  Forall noNL ls -> stripMetadata (join ls) = join (stripLines ls).
Proof.
  intros Hall. rewrite stripMetadata_eq.
  destruct ls as [|l0 rest]; [reflexivity|].
  inversion Hall as [|? ? Hl Hrest]; subst.
  rewrite (line_start l0 rest Hl). unfold stripLines.
  destruct (eqb_js l0 DASHES) eqn:E; [|reflexivity].
  destruct rest as [|l1 rest1]; [reflexivity|]. cbn [andb negb].
  rewrite (afterFirst_lines _ Hrest).
  destruct (afterClose (l1 :: rest1)); reflexivity.
Qed.

(** ** Block-id cleaning, line by line *)

Lemma cleanBlockContent_None line : cleanBlockContent line None = Some (cleanLine line).
Proof. unfold cleanBlockContent, cleanLine. destruct line; reflexivity. Qed.

Lemma mapM_total {A B} (f : A -> option B) (g : A -> B) :
  (forall a, f a = Some (g a)) -> forall l, mapM f l = Some (map g l).
Proof.
  intros H. induction l as [|a l IH]; simpl; [reflexivity|].
  rewrite H, IH. reflexivity.
Qed.

Lemma cleanAllBlockIds_eq content :
  cleanAllBlockIds content = Some (join (map cleanLine (split content))).
Proof.
  unfold cleanAllBlockIds.
  rewrite (mapM_total _ cleanLine) by apply cleanBlockContent_None. reflexivity.
Qed.

Lemma In_firstn {A} (x : A) : forall n l, In x (firstn n l) -> In x l.
Proof.
  induction n as [|n IH]; intros [|a l] H; simpl in *; try contradiction.
  destruct H as [H|H]; [left; exact H | right; apply IH; exact H].
Qed.

Lemma In_skipn {A} (x : A) : forall n l, In x (skipn n l) -> In x l.
Proof.
  induction n as [|n IH]; intros [|a l] H; simpl in *; try contradiction; auto.
Qed.

Lemma In_trimStart c : forall s, In c (trimStart s) -> In c s.
Proof.
  induction s as [|x s IH]; simpl; [auto|].
  destruct (isWhiteSpace x); [intros H; right; apply IH; exact H | auto].
Qed.

Lemma In_trim c s : In c (trim s) -> In c s.
Proof.
  unfold trim, trimEnd. intros H.
  apply In_trimStart. apply in_rev in H. apply In_trimStart in H.
  apply in_rev in H. exact H.
Qed.

Lemma In_spliceMatches c s : forall ms cur, In c (spliceMatches s [] cur ms) -> In c s.
Proof.
  induction ms as [|m ms IH]; intros cur H; simpl in H.
  - eapply In_skipn. exact H.
  - apply in_app_or in H. destruct H as [H|H].
    + unfold slice in H. apply In_firstn, In_skipn in H. exact H.
    + eapply IH. exact H.
Qed.

Lemma cleanLine_noNL l : noNL l -> noNL (cleanLine l).
Proof.
  unfold noNL, cleanLine. intros Hl H. apply Hl.
  destruct (truthy l); [|contradiction].
  apply In_trim in H. unfold replaceAll in H. eapply In_spliceMatches. exact H.
Qed.

Lemma afterClosingLine_map (f : jsstring -> jsstring) : forall ls,
  (forall l, In l ls -> eqb_js (f l) DASHES = eqb_js l DASHES) ->
  afterClosingLine (map f ls) = option_map (map f) (afterClosingLine ls).
Proof.
  induction ls as [|l tl IH]; intros H; [reflexivity|].
  cbn [map afterClosingLine]. rewrite (H l) by (left; reflexivity).
  assert (Hnil : match map f tl with [] => true | _ :: _ => false end
                 = match tl with [] => true | _ :: _ => false end)
    by (destruct tl; reflexivity).
  rewrite Hnil.
  destruct (eqb_js l DASHES && _); [reflexivity|].
  apply IH. intros l' Hin. apply H. right. exact Hin.
Qed.

Lemma afterClose_map (f : jsstring -> jsstring) ls :
  (forall l, In l ls -> eqb_js (f l) DASHES = eqb_js l DASHES) ->
  afterClose (map f ls) = option_map (map f) (afterClose ls).
Proof.
  destruct ls as [|l tl]; intros H; [reflexivity|].
  apply afterClosingLine_map. intros l' Hin. apply H. right. exact Hin.
Qed.

Lemma stripLines_map (f : jsstring -> jsstring) ls :
  (forall l, In l ls -> eqb_js (f l) DASHES = eqb_js l DASHES) ->
  stripLines (map f ls) = map f (stripLines ls).
Proof.
  intros H. destruct ls as [|l0 rest]; [reflexivity|].
  cbn [map stripLines]. rewrite (H l0) by (left; reflexivity).
  destruct (eqb_js l0 DASHES); [|reflexivity].
  rewrite afterClose_map by (intros l Hin; apply H; right; exact Hin).
  destruct (afterClose rest); reflexivity.
Qed.

Lemma afterClosingLine_suffix : forall ls tl,
  afterClosingLine ls = Some tl -> tl <> [] /\ exists hd, ls = hd ++ tl.
Proof.
  induction ls as [|l rest IH]; intros tl H; [discriminate|].
  cbn [afterClosingLine] in H.
  destruct (eqb_js l DASHES && _) eqn:E.
  - inversion H; subst. split.
    + destruct tl; [rewrite andb_false_r in E|]; discriminate.
    + exists [l]. reflexivity.
  - destruct (IH _ H) as [Hne [hd Hhd]]. split; [exact Hne|].
    exists (l :: hd). rewrite Hhd. reflexivity.
Qed.

Lemma afterClose_suffix ls tl :
  afterClose ls = Some tl -> tl <> [] /\ exists hd, ls = hd ++ tl.
Proof.
  destruct ls as [|l rest]; intros H; [discriminate|].
  destruct (afterClosingLine_suffix _ _ H) as [Hne [hd Hhd]]. split; [exact Hne|].
  exists (l :: hd). rewrite Hhd. reflexivity.
Qed.

Lemma stripLines_shape ls :
  ls <> [] -> Forall noNL ls -> stripLines ls <> [] /\ Forall noNL (stripLines ls).
Proof.
  intros Hne Hall. destruct ls as [|l0 rest]; [congruence|]. cbn [stripLines].
  destruct (eqb_js l0 DASHES); [|split; assumption].
  destruct (afterClose rest) as [tl|] eqn:E; [|split; assumption].
  destruct (afterClose_suffix _ _ E) as [Htl [hd Hhd]]. split; [exact Htl|].
  inversion Hall as [|? ? _ Hrest]; subst.
  apply Forall_app in Hrest. tauto.
Qed.

Lemma eqb_js_cleanLine l :
  (cleanLine l = DASHES -> l = DASHES) ->
  eqb_js (cleanLine l) DASHES = eqb_js l DASHES.
Proof.
  intros H. destruct (eqb_js l DASHES) eqn:E.
  - apply eqb_js_spec in E. subst l. vm_compute. reflexivity.
  - destruct (eqb_js (cleanLine l) DASHES) eqn:E'; [|reflexivity].
    apply eqb_js_spec in E'. apply H in E'. subst l. vm_compute in E. discriminate.
Qed.


(** ** The loop body *)

Lemma spliceLoop_one step content m :
  index m <> 0 -> spliceLoop step content [m] = step content m.
Proof.
  intros H. simpl. apply Nat.eqb_neq in H. rewrite H.
  destruct (step content m); reflexivity.
Qed.

Section ResolverFacts.
Context {TFile : Type} {host : Host TFile}.

Lemma resolveEmbed_splices content m c' :
  resolveEmbed content m = Some c' -> exists t, c' = spliceAt content m t.
Proof.
  unfold resolveEmbed. intros H.
  destruct (getFirstLinkpathDest (filePathOf m)) as [f|].
  - destruct (findReplacement _ _ f) as [r|]; [|discriminate].
    destruct (isTruthy r); inversion H; eexists; reflexivity.
  - inversion H. eexists. reflexivity.
Qed.

Lemma file_not_found_spliced content m :
  index m <> 0 ->
  getFirstLinkpathDest (filePathOf m) = None ->
  spliceLoop resolveEmbed content [m] =
  Some (spliceAt content m (js "[File not found: " ++ filePathOf m ++ js "]")).
Proof.
  intros Hi Hf. rewrite (spliceLoop_one _ _ _ Hi). unfold resolveEmbed.
  rewrite Hf. reflexivity.
Qed.

Lemma afterEmbed_nth content m :
  afterEmbed content m = nth_error content (index m + length (fullMatch m)).
Proof.
  unfold afterEmbed. destruct (_ <? _) eqn:E; [reflexivity|].
  apply Nat.ltb_ge in E. symmetry. apply nth_error_None. exact E.
Qed.

Lemma beforeEmbed_nth content m :
  index m <> 0 -> beforeEmbed content m = nth_error content (index m - 1).
Proof.
  intros H. unfold beforeEmbed.
  destruct (0 <? index m) eqn:E; [reflexivity|]. apply Nat.ltb_ge in E. lia.
Qed.
End ResolverFacts.

Lemma matchAll_embed_rebuild text rho :
  spliceLoop (spliceWith rho) text (rev (matchAll embedPattern text)) =
  Some (rebuildReference text (matchAll embedPattern text) (keepAtZero rho)).
Proof.
  rewrite (spliceLoop_rebuild text rho _ 0 (matchAll_chain embedPattern text)).
  reflexivity.
Qed.

Lemma rebuildFrom_ext text rho rho' : forall ms cur,
  Forall (fun m => rho m = rho' m) ms ->
  rebuildFrom text cur ms rho = rebuildFrom text cur ms rho'.
Proof.
  induction ms as [|m ms IH]; intros cur H; simpl; [reflexivity|].
  inversion H; subst. rewrite IH by assumption. congruence.
Qed.

Lemma splice_refines_rebuild text rho :
  Forall (fun m => index m <> 0) (matchAll embedPattern text) ->
  spliceLoop (spliceWith rho) text (rev (matchAll embedPattern text)) =
  Some (rebuildReference text (matchAll embedPattern text) rho).
Proof.
  intros H. rewrite matchAll_embed_rebuild. f_equal. unfold rebuildReference.
  apply rebuildFrom_ext. eapply Forall_impl; [|exact H].
  intros m Hm. unfold keepAtZero. apply Nat.eqb_neq in Hm. rewrite Hm. reflexivity.
Qed.

(** ** Where a pattern can match *)

Lemma scan_matched re : forall s p i e,
  scan re p s = Some (i, e) ->
  exists l1 l2,
    s = l1 ++ l2
    /\ matcher (multiline re) (source re) (mkState (rev l1 ++ p) l2 []) Some = Some e.
Proof.
  induction s as [|c t IH]; intros p i e H; rewrite scan_unfold in H.
  - destruct (matcher _ _ _ _) eqn:E; [|discriminate].
    inversion H; subst. exists [], []. split; [reflexivity | exact E].
  - destruct (matcher _ _ _ _) eqn:E.
    + inversion H; subst. exists [], (c :: t). split; [reflexivity | exact E].
    + destruct (IH _ _ _ H) as (l1 & l2 & H1 & H2).
      exists (c :: l1), l2. split; [rewrite H1; reflexivity|].
      simpl. rewrite <- app_assoc. exact H2.
Qed.

Lemma includes_app sub : forall a b, includes (a ++ sub ++ b) sub = true.
Proof.
  induction a as [|x a IH]; intros b.
  - simpl app. destruct (sub ++ b) eqn:E; simpl; unfold startsWith;
      rewrite <- E, stripPrefix_app; reflexivity.
  - cbn [app includes]. rewrite IH. apply orb_true_r.
Qed.

Lemma includes_true sub : forall s, includes s sub = true -> exists a b, s = a ++ sub ++ b.
Proof.
  induction s as [|x s IH]; intros H; simpl in H.
  - rewrite orb_false_r in H. unfold startsWith in H.
    destruct (stripPrefix sub []) as [r|] eqn:E; [|discriminate].
    apply stripPrefix_Some in E. exists [], r. exact E.
  - apply orb_true_iff in H. destruct H as [H|H].
    + unfold startsWith in H.
      destruct (stripPrefix sub (x :: s)) as [r|] eqn:E; [|discriminate].
      apply stripPrefix_Some in E. exists [], r. exact E.
    + destruct (IH H) as (a & b & Hab). exists (x :: a), b. rewrite Hab. reflexivity.
Qed.

Lemma scan_needs_literal l rs ml : forall s p,
  includes s l = false -> scan (mkRegExp (cat (lit l :: rs)) ml) p s = None.
Proof.
  intros s p H. destruct (scan _ p s) as [[i e]|] eqn:E; [|reflexivity].
  apply scan_matched in E. destruct E as (l1 & l2 & H1 & H2).
  cbn [source multiline cat fold_right matcher] in H2. rewrite matcher_lit in H2.
  cbn [suf] in H2. destruct (stripPrefix l l2) as [r|] eqn:Ep; [|discriminate].
  apply stripPrefix_Some in Ep. rewrite H1, Ep, includes_app in H. discriminate.
Qed.

Lemma matchAll_needs_marker text :
  includes text (js "![[") = false -> matchAll embedPattern text = [].
Proof.
  intros H. unfold matchAll, embedPattern. cbn [matchAllFrom].
  rewrite scan_needs_literal by exact H. reflexivity.
Qed.

Lemma In_join line : forall ls, In line ls -> exists a b, join ls = a ++ line ++ b.
Proof.
  induction ls as [|l ls IH]; intros H; [contradiction|].
  destruct ls as [|l' ls'].
  - destruct H as [->|[]]. exists [], []. simpl. rewrite app_nil_r. reflexivity.
  - rewrite join_cons by discriminate. destruct H as [->|H].
    + exists [], (NL :: join (l' :: ls')). reflexivity.
    + destruct (IH H) as (a & b & Hab). exists (l ++ NL :: a), b.
      rewrite Hab, <- app_assoc. reflexivity.
Qed.

Lemma includes_line text sub line :
  In line (split text) -> includes line sub = true -> includes text sub = true.
Proof.
  intros Hin Hl. apply In_join in Hin. destruct Hin as (a & b & Hab).
  rewrite join_split in Hab. apply includes_true in Hl. destruct Hl as (a' & b' & Hl).
  rewrite Hab, Hl.
  replace (a ++ (a' ++ sub ++ b') ++ b) with ((a ++ a') ++ sub ++ (b' ++ b))
    by (rewrite <- !app_assoc; reflexivity).
  apply includes_app.
Qed.

Lemma interpolate_lit s p : interpolate s = Some p -> p = lit s.
Proof. unfold interpolate. destruct (forallb _ s); congruence. Qed.

Lemma blockPattern_needs_anchor blockId text :
  includes text (CARET :: blockId) = false ->
  exec (blockPattern (lit blockId)) text = None.
Proof.
  intros H. unfold exec.
  destruct (scan _ [] text) as [[i e]|] eqn:E; [|reflexivity].
  exfalso. apply scan_matched in E. destruct E as (l1 & l2 & H1 & H2).
  cbn [blockPattern source multiline cat fold_right matcher] in H2.
  apply matcher_passes in H2. destruct H2 as (s1 & E1 & H2).
  apply (matcher_passes true (star ws)) in H2. destruct H2 as (s2 & E2 & H2).
  cbn [matcher chr] in H2.
  destruct (suf s2) as [|c t] eqn:Es; [discriminate|].
  destruct (N.eqb_spec CARET c) as [<-|]; [|discriminate].
  rewrite matcher_lit in H2. cbn [suf] in H2.
  destruct (stripPrefix blockId t) as [r|] eqn:Ep; [|discriminate].
  apply stripPrefix_Some in Ep.
  assert (Ex : extends (mkState (rev l1 ++ []) l2 []) s2).
  { eapply extends_trans; [|exact E2].
    eapply extends_same; [| |exact E1]; reflexivity. }
  destruct Ex as (l & _ & Hl). cbn [suf] in Hl.
  rewrite H1, Hl, Es, Ep in H.
  replace (l1 ++ l ++ CARET :: blockId ++ r)
    with ((l1 ++ l) ++ (CARET :: blockId) ++ r) in H
    by (rewrite <- app_assoc; reflexivity).
  rewrite includes_app in H. discriminate.
Qed.

Section Totality.
Context {TFile : Type} {host : Host TFile}.

(** A block id that appears neither in the cache nor in the text gives no
    replacement. *)
Lemma block_absent_not_found fileContent fileCache blockId :
  cachedBlock fileCache blockId = Undefined ->
  interpolate blockId <> None ->
  includes fileContent (CARET :: blockId) = false ->
  blockReplacement fileContent fileCache blockId = Some None.
Proof.
  intros Hc Hp Hi. unfold blockReplacement. rewrite Hc.
  destruct (interpolate blockId) as [p|] eqn:Ep; [|congruence].
  apply interpolate_lit in Ep. subst p.
  rewrite (blockPattern_needs_anchor _ _ Hi). cbn [isTruthy].
  destruct (find _ (split fileContent)) as [line|] eqn:Ef; [|reflexivity].
  apply find_some in Ef. destruct Ef as [Hin Hl].
  rewrite (includes_line _ _ _ Hin Hl) in Hi. discriminate.
Qed.

Lemma cleanBlockContent_total line blockId :
  interpolate blockId <> None ->
  exists r, cleanBlockContent line (Some blockId) = Some r.
Proof.
  intros Hp. unfold cleanBlockContent.
  destruct (negb (truthy line)); [eexists; reflexivity|].
  destruct (truthy blockId); [|eexists; reflexivity].
  destruct (interpolate blockId); [eexists; reflexivity | congruence].
Qed.

Lemma blockReplacement_total fileContent fileCache blockId :
  cachedBlock fileCache blockId <> Inherited ->
  interpolate blockId <> None ->
  exists r, blockReplacement fileContent fileCache blockId = Some r.
Proof.
  intros Hc Hp. unfold blockReplacement.
  destruct (cachedBlock fileCache blockId) as [b| |].
  - destruct (nth_error _ _) as [line|]; [|eexists; reflexivity].
    destruct (cleanBlockContent_total line blockId Hp) as [r ->]. eexists. reflexivity.
  - congruence.
  - destruct (interpolate blockId) as [p|] eqn:Ep; [|congruence].
    destruct (isTruthy _); [eexists; reflexivity|].
    destruct (find _ _) as [line|]; [|eexists; reflexivity].
    destruct (cleanBlockContent_total line blockId) as [r ->]; [congruence|].
    eexists. reflexivity.
Qed.

Lemma resolveEmbed_total content m :
  modelled m = true -> exists c', resolveEmbed content m = Some c'.
Proof.
  unfold modelled, resolveEmbed, findReplacement, startsWith. intros H.
  destruct (getFirstLinkpathDest (filePathOf m)) as [f|]; [|eexists; reflexivity].
  destruct (hashPartOf m) as [|c t] eqn:Eh.
  - cbn [stripPrefix truthy]. destruct (isTruthy _); eexists; reflexivity.
  - cbn [stripPrefix] in *. destruct (CARET =? c)%N.
    + cbn [skipn].
      destruct (blockReplacement_total (read f) (getFileCache f) t) as [found ->].
      * intros Ec. rewrite Ec in H. discriminate.
      * intros Ei. rewrite Ei in H. destruct (cachedBlock _ t); discriminate.
      * destruct (isTruthy found); eexists; reflexivity.
    + cbn [truthy]. destruct (isTruthy _); eexists; reflexivity.
Qed.

Lemma spliceLoop_total : forall ms content,
  Forall (fun m => modelled m = true) ms ->
  exists out, spliceLoop resolveEmbed content ms = Some out.
Proof.
  induction ms as [|m ms IH]; intros c Hall; simpl.
  - eexists. reflexivity.
  - inversion Hall as [|? ? Hm Hms]; subst.
    destruct (index m =? 0); [apply IH; exact Hms|].
    destruct (resolveEmbed_total c m Hm) as [c' ->]. apply IH. exact Hms.
Qed.

(** Within the model the resolver always returns a text. *)
Lemma resolveBlockReferences_total content :
  forallb modelled (matchAll embedPattern content) = true ->
  exists out, resolveBlockReferences content = Some out.
Proof.
  intros H. unfold resolveBlockReferences. apply spliceLoop_total.
  apply Forall_rev, Forall_forall. apply forallb_forall. exact H.
Qed.

(** A text that holds no exclamation mark followed by two opening brackets
    is returned as it is. *)
Lemma resolve_without_marker content :
  includes content (js "![[") = false -> resolveBlockReferences content = Some content.
Proof.
  intros H. unfold resolveBlockReferences.
  rewrite (matchAll_needs_marker _ H). reflexivity.
Qed.
End Totality.

(** A block id that names a property of [Object.prototype]: with a block
    cache that has no entry of its own for it, the run ends with a TypeError;
    without a block cache the search of the text goes on as for any id. *)
Example inherited_block_id_example :
  resolveBlockReferences (host := Demo.indexed) (js "![[Doc]] x ![[Doc#^constructor]] y") = None
  /\ resolveBlockReferences (host := Demo.unindexed) (js "![[Doc]] x ![[Doc#^constructor]] y")
     = Some (js "![[Doc]] x [Content not found: Doc#^constructor] y").
Proof. split; vm_compute; reflexivity. Qed.

(** ** The heading marker pattern *)

Lemma greedy_hashes ml (k : Cont) :
  (forall p t cs, k (mkState p (HASH :: t) cs) = None) ->
  forall rem fuel p s cs,
    length s < fuel ->
    repMay (matcher ml (chr HASH)) (clearCaps []) true k fuel (Some rem) (mkState p s cs) =
    k (mkState (rev (firstn (Nat.min rem (leadingHashes s)) s) ++ p)
               (skipn (Nat.min rem (leadingHashes s)) s) cs).
Proof.
  intros Hk. induction rem as [|rem IH]; intros fuel p s cs Hf.
  - destruct fuel; reflexivity.
  - destruct fuel as [|fuel]; [lia|].
    cbn [repMay]. rewrite clearCaps_nil. cbn [matcher chr suf pre caps option_map Nat.pred].
    destruct s as [|c t]; [reflexivity|].
    cbn [leadingHashes]. rewrite (N.eqb_sym HASH c).
    destruct (N.eqb_spec c HASH) as [->|Hne]; [|reflexivity].
    unfold pos at 1 2. cbn [pre length].
    replace (S (length p) =? length p) with false by (symmetry; apply Nat.eqb_neq; lia).
    rewrite IH by (simpl in Hf; lia).
    cbn [Nat.min firstn skipn rev]. rewrite <- app_assoc. cbn [app].
    destruct (k _); [reflexivity | apply Hk].
Qed.

Lemma leadingHashes_le line : leadingHashes line <= length line.
Proof.
  induction line as [|c t IH]; simpl; [lia|].
  destruct (c =? HASH)%N; simpl; lia.
Qed.

Lemma leadingHashes_next line :
  forall n, n < leadingHashes line -> nth_error line n = Some HASH.
Proof.
  induction line as [|c t IH]; intros n H; simpl in H; [lia|].
  destruct (N.eqb_spec c HASH) as [->|]; [|lia].
  destruct n as [|n]; [reflexivity|]. simpl. apply IH. lia.
Qed.

Lemma nth_error_skipn {A} (l : list A) : forall n, nth_error l n = hd_error (skipn n l).
Proof.
  induction l as [|a l IH]; intros [|n]; simpl; auto.
Qed.

Lemma isBoundary_marker headingLevel line :
  isBoundary headingLevel line = isMarker headingLevel line.
Proof.
  unfold isBoundary, isMarker, exec. rewrite scan_unfold.
  cbn [headingMarkerPattern source multiline cat fold_right matcher atBol pre pos length
       repMust groupsOf chr option_map].
  rewrite clearCaps_nil. cbn [matcher suf pre caps].
  assert (Hrest : match line with [] => None | c :: t => scan headingMarkerPattern [c] t end = None).
  { destruct line; [reflexivity|]. apply scan_anchored. discriminate. }
  destruct line as [|c t]; [reflexivity|].
  cbn [leadingHashes]. rewrite (N.eqb_sym HASH c).
  destruct (N.eqb_spec c HASH) as [->|Hne]; [|rewrite Hrest; reflexivity].
  rewrite (greedy_hashes false) by (cbn [suf length]; lia || (intros; reflexivity)).
  cbn [Nat.sub]. set (j := Nat.min 5 (leadingHashes t)).
  cbn [setCap pre suf caps pos matcher ws].
  pose proof (leadingHashes_le t) as Hle.
  assert (Hj : j <= length t) by (unfold j; lia).
  cbn [nth_error]. rewrite (nth_error_skipn t).
  destruct (Nat.lt_ge_cases j (leadingHashes t)) as [Hlt|Hge].
  - (* seven or more *)
    assert (j = 5) by (unfold j; lia).
    pose proof (leadingHashes_next t j Hlt) as Hn. rewrite nth_error_skipn in Hn.
    destruct (skipn j t) as [|w r]; [discriminate|]. injection Hn as ->.
    cbn [isWhiteSpace]. rewrite Hrest.
    replace (S (leadingHashes t) <=? 6) with false by (symmetry; apply Nat.leb_gt; lia).
    rewrite andb_false_r. reflexivity.
  - assert (Ej : j = leadingHashes t) by (unfold j in *; lia).
    rewrite <- Ej.
    destruct (skipn j t) as [|w r] eqn:Es; cbn [hd_error].
    + rewrite Hrest, andb_false_r. reflexivity.
    + destruct (isWhiteSpace w); [|rewrite Hrest, andb_false_r; reflexivity].
      unfold capture, group, pos, slice.
      cbn [captured caps pre lookupCap Nat.eqb input skipn].
      rewrite Nat.sub_0_r, length_firstn, length_app, length_rev, length_firstn.
      cbn [length].
      replace (Nat.min (Nat.min j (length t) + 1) (S (length t))) with (S j) by lia.
      replace (S j <=? 6) with true by (symmetry; apply Nat.leb_le; unfold j; lia).
      rewrite andb_true_r. reflexivity.
Qed.

(** The loop for [endLine] stops at the first boundary line. *)
Lemma findEndLine_first headingLevel : forall rest lineNum endLine,
  findEndLine headingLevel rest lineNum = Some endLine ->
  exists i line,
    endLine = lineNum + i
    /\ nth_error rest i = Some line
    /\ isBoundary headingLevel line = true
    /\ Forall (fun l => isBoundary headingLevel l = false) (firstn i rest).
Proof.
  induction rest as [|l rest IH]; intros lineNum endLine H; simpl in H; [discriminate|].
  destruct (isBoundary headingLevel l) eqn:E.
  - inversion H; subst. exists 0, l. rewrite Nat.add_0_r. auto.
  - destruct (IH _ _ H) as (i & line & H1 & H2 & H3 & H4).
    exists (S i), line. repeat split; auto; [lia|].
    simpl. constructor; assumption.
Qed.

Lemma findEndLine_none headingLevel : forall rest lineNum,
  findEndLine headingLevel rest lineNum = None ->
  Forall (fun l => isBoundary headingLevel l = false) rest.
Proof.
  induction rest as [|l rest IH]; intros lineNum H; simpl in H; [constructor|].
  destruct (isBoundary headingLevel l) eqn:E; [discriminate|].
  constructor; [exact E | eapply IH; exact H].
Qed.

Lemma nth_error_skipn_add {A} (l : list A) : forall k i,
  nth_error (skipn k l) i = nth_error l (k + i).
Proof.
  induction l as [|a l IH]; intros [|k] i; simpl; auto.
  destruct i; reflexivity.
Qed.

Lemma Forall_firstn_nth {A} (P : A -> Prop) : forall l i,
  Forall P (firstn i l) -> forall j x, j < i -> nth_error l j = Some x -> P x.
Proof.
  induction l as [|a l IH]; intros i H j x Hj Hx.
  - destruct j; discriminate.
  - destruct i as [|i]; [lia|]. simpl in H. inversion H; subst.
    destruct j as [|j]; simpl in Hx.
    + injection Hx as <-. assumption.
    + eapply IH; [eassumption | | eassumption]. lia.
Qed.

Lemma Forall_nth {A} (P : A -> Prop) l :
  Forall P l -> forall j x, nth_error l j = Some x -> P x.
Proof.
  intros H j x Hx. eapply Forall_forall; [exact H|]. eapply nth_error_In. exact Hx.
Qed.

(** The cached heading path: the section runs from the heading's line up to
    the first later line that is a marker of the heading's level or above, or
    to the end of the document. *)
Lemma headingSection_span fileContent headingLevel headingLine :
  let lines := split fileContent in
  exists endLine,
    headingSection fileContent headingLevel headingLine
    = trim (join (sliceLines lines headingLine endLine))
    /\ (forall j line, headingLine < j < endLine -> nth_error lines j = Some line ->
                       isMarker headingLevel line = false)
    /\ (endLine = length lines
        \/ (headingLine < endLine
            /\ exists line, nth_error lines endLine = Some line
                            /\ isMarker headingLevel line = true)).
Proof.
  intros lines. unfold headingSection. fold lines.
  destruct (findEndLine headingLevel (skipn (headingLine + 1) lines) (headingLine + 1))
    as [endLine|] eqn:E.
  - apply findEndLine_first in E. destruct E as (i & line & H1 & H2 & H3 & H4).
    rewrite nth_error_skipn_add in H2. rewrite isBoundary_marker in H3.
    exists endLine. split; [reflexivity|]. split.
    + intros j l Hj Hl. rewrite <- isBoundary_marker.
      apply (Forall_firstn_nth _ _ _ H4 (j - (headingLine + 1)) l); [lia|].
      rewrite nth_error_skipn_add. replace (headingLine + 1 + (j - (headingLine + 1))) with j by lia.
      exact Hl.
    + right. split; [lia|]. exists line. rewrite H1. auto.
  - apply findEndLine_none in E. exists (length lines). split; [reflexivity|]. split.
    + intros j l Hj Hl. rewrite <- isBoundary_marker.
      apply (Forall_nth _ _ E (j - (headingLine + 1)) l).
      rewrite nth_error_skipn_add. replace (headingLine + 1 + (j - (headingLine + 1))) with j by lia.
      exact Hl.
    + left. reflexivity.
Qed.

(** ** The fallback heading pattern *)

Lemma matcher_Seq ml a b s k :
  matcher ml (Seq a b) s k = matcher ml a s (fun s' => matcher ml b s' k).
Proof. reflexivity. Qed.

Lemma matcher_Grp ml i a s k :
  matcher ml (Grp i a) s k = matcher ml a s (fun s' => k (setCap i (pos s) (pos s') s')).
Proof. reflexivity. Qed.

Lemma matcher_chr ml c s k :
  matcher ml (chr c) s k =
  match suf s with
  | x :: t => if (c =? x)%N then k (mkState (x :: pre s) t (caps s)) else None
  | [] => None
  end.
Proof. reflexivity. Qed.

Lemma matcher_Eps ml s k : matcher ml Eps s k = k s.
Proof. reflexivity. Qed.

(** Pass over the first component of a sequence: what is left of [H] is the
    match of the rest, from a state [s] further right. *)
Ltac peel H s E :=
  rewrite matcher_Seq in H; apply matcher_passes in H; destruct H as (s & E & H).

Lemma firstHit_first k cs : forall s p e,
  firstHit k p s cs = Some e ->
  exists l t,
    s = l ++ t
    /\ k (mkState (rev l ++ p) t cs) = Some e
    /\ forall l1 l2, l = l1 ++ l2 -> l2 <> [] ->
                     k (mkState (rev l1 ++ p) (l2 ++ t) cs) = None.
Proof.
  induction s as [|c s IH]; intros p e H; simpl in H.
  - destruct (k _) eqn:E; [|discriminate]. inversion H; subst.
    exists [], []. repeat split; auto.
    intros l1 l2 Hl Hne. destruct l1; destruct l2; try discriminate. congruence.
  - destruct (k (mkState p (c :: s) cs)) eqn:E.
    + inversion H; subst. exists [], (c :: s). repeat split; auto.
      intros l1 l2 Hl Hne. destruct l1; destruct l2; try discriminate. congruence.
    + destruct (IH _ _ H) as (l & t & H1 & H2 & H3).
      exists (c :: l), t. split; [rewrite H1; reflexivity|]. split.
      * simpl. rewrite <- app_assoc. exact H2.
      * intros l1 l2 Hl Hne. destruct l1 as [|x l1].
        -- simpl in Hl. subst l2. simpl. rewrite <- H1. exact E.
        -- injection Hl as <- Hl. simpl. rewrite <- app_assoc. apply H3; assumption.
Qed.

Lemma lookahead_accepts_line_end r s x t :
  suf s = x :: t -> isLineTerminator x = true ->
  exists e, matcher true (cat [Ahead (Alt r Eol)]) s Some = Some e.
Proof.
  intros Hs Hx. cbn [cat fold_right]. rewrite matcher_Seq.
  change (matcher true (Ahead (Alt r Eol)) s (fun s' => matcher true Eps s' Some))
    with (match (match matcher true r s Some with
                 | Some e => Some e
                 | None => if atEol true s then Some s else None
                 end) with
          | Some e => Some (mkState (pre s) (suf s) (caps e))
          | None => None
          end).
  destruct (matcher true r s Some); [eexists; reflexivity|].
  unfold atEol. rewrite Hs, Hx. eexists. reflexivity.
Qed.

Lemma extends_text l1 l2 s :
  extends (mkState (rev l1 ++ []) l2 []) s -> l1 ++ l2 = rev (pre s) ++ suf s.
Proof.
  intros (l & Hp & Hs). cbn [pre suf] in *.
  rewrite Hp, Hs, app_nil_r, rev_app_distr, !rev_involutive, app_assoc. reflexivity.
Qed.

Lemma headingPattern_capture headingLevel heading text m :
  exec (headingPattern headingLevel heading) text = Some m ->
  exists l, capture m 1 = NL :: l /\ Forall (fun c => isLineTerminator c = false) l.
Proof.
  unfold exec. destruct (scan _ [] text) as [[i e]|] eqn:E; [|discriminate].
  intros Hm. injection Hm as <-.
  apply scan_matched in E. destruct E as (l1 & l2 & Ht & H).
  cbn [headingPattern source multiline cat fold_right] in H.
  peel H s1 E1. peel H s2 E2. peel H s3 E3. peel H s4 E4. peel H s5 E5. peel H s6 E6.
  assert (Ex : extends (mkState (rev l1 ++ []) l2 []) s6)
    by (repeat (eapply extends_trans; [eassumption|]); apply extends_refl).
  apply extends_text in Ex. rewrite <- Ht in Ex. clear E1 E2 E3 E4 E5 E6 s1 s2 s3 s4 s5.
  rewrite matcher_Seq, matcher_Grp, matcher_Seq, matcher_chr in H.
  destruct (suf s6) as [|x t] eqn:Es; [discriminate|].
  destruct (N.eqb_spec NL x) as [<-|]; [|discriminate].
  rewrite matcher_Seq, matcher_lazy_any in H. cbn [pre suf caps] in H.
  apply firstHit_first in H. destruct H as (l & t' & Hl & Hk & Hmin).
  exists l. split.
  - rewrite matcher_Eps in Hk.
    apply matcher_frames in Hk. destruct Hk as (s9 & _ & K9 & H9). injection H9 as <-.
    unfold capture, group. cbn [captured input].
    rewrite (K9 1) by (cbn; tauto).
    unfold setCap, pos. cbn [caps pre lookupCap Nat.eqb].
    unfold slice.
    assert (Hsk : skipn (length (pre s6)) text = NL :: l ++ t').
    { rewrite Ex, Hl, <- (length_rev (pre s6)), skipn_app, skipn_all, Nat.sub_diag.
      reflexivity. }
    rewrite Hsk, length_app, length_rev. cbn [length].
    replace (length l + S (length (pre s6)) - length (pre s6)) with (S (length l)) by lia.
    cbn [firstn]. f_equal.
    rewrite firstn_app, firstn_all, Nat.sub_diag. cbn [firstn]. apply app_nil_r.
  - apply Forall_forall. intros c Hc.
    destruct (isLineTerminator c) eqn:Ec; [|reflexivity]. exfalso.
    apply in_split in Hc. destruct Hc as (la & lb & Hlab).
    specialize (Hmin la (c :: lb) Hlab ltac:(discriminate)).
    rewrite matcher_Eps in Hmin.
    match type of Hmin with
    | matcher true _ ?s Some = None =>
      destruct (lookahead_accepts_line_end
                  (cat [Bol; Rep 1 (Some headingLevel) true (chr HASH); ws])
                  s c (lb ++ t') eq_refl Ec) as [e' He']
    end.
    cbn [cat fold_right] in He'. congruence.
Qed.

Section Fallback.
Context {TFile : Type} {host : Host TFile}.

(** Whatever the document, the fallback returns text of a single line: its
    capture stops at the first line end. *)
Lemma getHeadingContent_one_line filePath heading r :
  getHeadingContent filePath heading = Some r ->
  Forall (fun c => isLineTerminator c = false) r.
Proof.
  unfold getHeadingContent. intros H.
  destruct (getFirstLinkpathDest filePath) as [file|]; [|discriminate].
  destruct (exec (headingLevelPattern heading) (read file)) as [levelMatch|]; [|discriminate].
  destruct (exec (headingPattern _ heading) (read file)) as [m|] eqn:E; [|discriminate].
  injection H as <-.
  destruct (headingPattern_capture _ _ _ _ E) as (l & Hl & Hall). rewrite Hl.
  change (trim (NL :: l)) with (trim l).
  apply Forall_forall. intros c Hc. apply In_trim in Hc.
  eapply Forall_forall in Hall; eassumption.
Qed.
End Fallback.

(** ** What [trim] leaves *)

Lemma trimStart_suffix s : exists r, s = r ++ trimStart s.
Proof.
  induction s as [|c s [r IH]]; simpl.
  - exists []. reflexivity.
  - destruct (isWhiteSpace c); [|exists []; reflexivity].
    exists (c :: r). simpl. rewrite <- IH. reflexivity.
Qed.

Lemma trimStart_head s c t : trimStart s = c :: t -> isWhiteSpace c = false.
Proof.
  induction s as [|x s IH]; simpl; [discriminate|].
  destruct (isWhiteSpace x) eqn:E; [exact IH|].
  intros H. injection H as <- _. exact E.
Qed.

Lemma trimEnd_prefix s : exists r, s = trimEnd s ++ r.
Proof.
  unfold trimEnd. destruct (trimStart_suffix (rev s)) as [r Hr].
  exists (rev r). rewrite <- rev_app_distr, <- Hr, rev_involutive. reflexivity.
Qed.

Lemma trim_head s c t : trim s = c :: t -> isWhiteSpace c = false.
Proof.
  unfold trim. intros H. destruct (trimEnd_prefix (trimStart s)) as [r Hr].
  rewrite H in Hr. apply (trimStart_head s c (t ++ r)). exact Hr.
Qed.

(** Whatever the line and the block id, the cleaned line does not begin with
    white space: indentation never survives [cleanBlockContent]. *)
Lemma cleanBlockContent_no_indent content blockId c t :
  cleanBlockContent content blockId = Some (c :: t) -> isWhiteSpace c = false.
Proof.
  unfold cleanBlockContent. destruct (negb (truthy content)); [discriminate|].
  intros H.
  destruct (match blockId with Some _ => _ | None => _ end) as [content1|]; [|discriminate].
  injection H as H. eapply trim_head. exact H.
Qed.

(** * The claims *)

(** ** C9: text without directives *)

(** C9.  For every text in which the embed pattern finds no directive,
    [resolveBlockReferences] returns the text unchanged. *)
Theorem resolve_without_directives {TFile : Type} {host : Host TFile} (content : jsstring) :
  matchAll embedPattern content = [] ->
  resolveBlockReferences content = Some content.
Proof.
  intros H. unfold resolveBlockReferences. rewrite H. reflexivity.
Qed.

Lemma resolve_without_directives_witness :
  resolveBlockReferences (host := Demo.unindexed) (js "a [[link]] and ![image](x.png)\n")
  = Some (js "a [[link]] and ![image](x.png)\n").
Proof.
  apply (resolve_without_directives (host := Demo.unindexed)). vm_compute. reflexivity.
Defined.

(** ** C5: a directive at offset 0 *)

(** C5.  When the first directive of a text starts at offset 0, the loop
    passes it over: the result is that of the loop over the other directives
    alone, every output begins with the directive as it was written, and
    there is an output whenever each of the other directives is [modelled]:
    none of them is a block directive, to a file that is there, whose id
    reads an inherited value from the block cache of the file or holds a
    pattern syntax character. *)
Theorem embed_at_offset_zero_survives {TFile : Type} {host : Host TFile}
        (content : jsstring) (m : Match) (ms : list Match) :
  matchAll embedPattern content = m :: ms ->
  index m = 0 ->
  resolveBlockReferences content = spliceLoop resolveEmbed content (rev ms)
  /\ (forall out, resolveBlockReferences content = Some out ->
                  exists tail, out = fullMatch m ++ tail)
  /\ (forallb modelled ms = true ->
      exists tail, resolveBlockReferences content = Some (fullMatch m ++ tail)).
Proof.
  intros Hms Hi.
  assert (Hloop : resolveBlockReferences content = spliceLoop resolveEmbed content (rev ms)).
  { unfold resolveBlockReferences. rewrite Hms. cbn [rev]. rewrite spliceLoop_app.
    destruct (spliceLoop resolveEmbed content (rev ms)); [|reflexivity].
    cbn [spliceLoop]. rewrite Hi. reflexivity. }
  assert (Hpre : forall out, resolveBlockReferences content = Some out ->
                             exists tail, out = fullMatch m ++ tail).
  { intros out Hout. rewrite Hloop in Hout.
    pose proof (matchAll_chain embedPattern content) as Hc. rewrite Hms in Hc.
    destruct Hc as (Hin & _ & Hle & Hc).
    pose proof (chain_bound _ _ _ Hc) as Hb.
    assert (Hfirst : firstn (endIndex m) out = firstn (endIndex m) content).
    { apply (spliceLoop_keeps_prefix resolveEmbed resolveEmbed_splices (rev ms)); auto.
      apply Forall_rev. eapply chain_Forall. exact Hc. }
    exists (skipn (endIndex m) out).
    unfold fullMatch, slice. rewrite Hin, Hi. cbn [skipn]. rewrite Nat.sub_0_r, <- Hfirst.
    symmetry. apply firstn_skipn. }
  split; [exact Hloop|]. split; [exact Hpre|].
  intros Hmod.
  destruct (spliceLoop_total (rev ms) content) as [out Hout].
  { apply Forall_rev, Forall_forall. apply forallb_forall. exact Hmod. }
  rewrite <- Hloop in Hout. destruct (Hpre out Hout) as [tail ->].
  exists tail. exact Hout.
Qed.

Lemma embed_at_offset_zero_survives_witness :
  exists tail,
    resolveBlockReferences (host := Demo.indexed) (js "![[Doc#^abc]] and ![[Missing]]")
    = Some (fullMatch (mkMatch 0 13 [(2, (7, 11)); (1, (3, 6))]
                               (js "![[Doc#^abc]] and ![[Missing]]")) ++ tail).
Proof.
  refine (proj2 (proj2 (embed_at_offset_zero_survives (host := Demo.indexed)
                          (js "![[Doc#^abc]] and ![[Missing]]")
                          (mkMatch 0 13 [(2, (7, 11)); (1, (3, 6))]
                                   (js "![[Doc#^abc]] and ![[Missing]]"))
                          _ _ _)) _).
  - vm_compute. reflexivity.
  - reflexivity.
  - vm_compute. reflexivity.
Defined.

(** ** C6: unknown files *)

(** C6 (at offset 0).  A text that consists of the directive [![[Missing]]]
    alone, for a link that resolves to no file, comes back unchanged; the
    same directive further right is replaced by the diagnostic. *)
Theorem file_not_found_at_offset_zero :
  getFirstLinkpathDest (Host := Demo.unindexed) (js "Missing") = None
  /\ resolveBlockReferences (host := Demo.unindexed) (js "![[Missing]]") = Some (js "![[Missing]]")
  /\ resolveBlockReferences (host := Demo.unindexed) (js "see ![[Missing]]")
     = Some (js "see [File not found: Missing]").
Proof. repeat split; vm_compute; reflexivity. Qed.

(** ** C3: splicing from the right and the one-pass rebuild *)

(** C3 (at offset 0).  For the text [![[A]] tail] and the assignment of [X]
    to its directive, the loop leaves the text as it is, and the one-pass
    reference gives [X tail]. *)
Theorem splice_skips_offset_zero :
  let text := js "![[A]] tail" in
  let rho := fun _ : Match => js "X" in
  spliceLoop (spliceWith rho) text (rev (matchAll embedPattern text)) = Some (js "![[A]] tail")
  /\ rebuildReference text (matchAll embedPattern text) rho = js "X tail".
Proof. split; vm_compute; reflexivity. Qed.

(** The regression case of the specification: directives at offsets 5 and 50,
    replacements of other lengths. *)
Example splice_order_example :
  let text := js "0123 ![[Doc]] 01234567890123456789012345678901234 ![[Missing]] end" in
  let rho := fun m : Match => if index m =? 5 then js "a long replacement" else js "s" in
  map index (matchAll embedPattern text) = [5; 50]
  /\ spliceLoop (spliceWith rho) text (rev (matchAll embedPattern text))
     = Some (js "0123 a long replacement 01234567890123456789012345678901234 s end")
  /\ rebuildReference text (matchAll embedPattern text) rho
     = js "0123 a long replacement 01234567890123456789012345678901234 s end".
Proof. repeat split; vm_compute; reflexivity. Qed.

(** ** C4: whole-file embeds *)

(** C4, amended.  For a directive without a scope, away from offset 0, whose
    link resolves to a file: when the file's text is not empty, the span is
    replaced by the text as it is, with a newline put before it exactly when
    the code unit before the span is a newline, and after it exactly when the
    code unit after the span is one; when the file's text is empty, the span
    is replaced by the diagnostic [[Content not found: <path>]]. *)
Theorem full_file_embed {TFile : Type} {host : Host TFile}
        (content : jsstring) (m : Match) (f : TFile) :
  index m <> 0 ->
  hashPartOf m = [] ->
  getFirstLinkpathDest (filePathOf m) = Some f ->
  spliceLoop resolveEmbed content [m] =
  Some (spliceAt content m
          (if truthy (read f)
           then newlineIf (nth_error content (index m - 1)) ++ read f
                ++ newlineIf (nth_error content (index m + length (fullMatch m)))
           else js "[Content not found: " ++ filePathOf m ++ js "]")).
Proof.
  intros Hi Hh Hf. rewrite (spliceLoop_one _ _ _ Hi). unfold resolveEmbed.
  rewrite Hf, Hh. unfold findReplacement. cbn [startsWith stripPrefix truthy isTruthy].
  destruct (read f) as [|c t] eqn:Er; cbn [truthy negb].
  - reflexivity.
  - rewrite afterEmbed_nth, (beforeEmbed_nth _ _ Hi). reflexivity.
Qed.

Lemma full_file_embed_witness :
  let content := js "a\n![[Doc]] b" in
  let m := mkMatch 2 10 [(1, (5, 8))] content in
  spliceLoop (resolveEmbed (host := Demo.unindexed)) content [m]
  = Some (js "a\n\n" ++ Demo.doc ++ js " b").
Proof.
  intros content m.
  refine (eq_trans (full_file_embed (host := Demo.unindexed) content m 0 _ _ _) _).
  - vm_compute. discriminate.
  - vm_compute. reflexivity.
  - vm_compute. reflexivity.
  - vm_compute. reflexivity.
Defined.

(** C4 as stated fails on an empty document: the directive [![[Empty]]],
    whose file is empty, is not replaced by the empty text. *)
Lemma full_file_empty_document :
  let content := js "a ![[Empty]] b" in
  exists (m : Match) (f : nat),
    matchAll embedPattern content = [m]
    /\ hashPartOf m = []
    /\ getFirstLinkpathDest (Host := Demo.unindexed) (filePathOf m) = Some f
    /\ read (Host := Demo.unindexed) f = []
    /\ resolveBlockReferences (host := Demo.unindexed) content
       = Some (js "a [Content not found: Empty] b")
    /\ resolveBlockReferences (host := Demo.unindexed) content
       <> Some (spliceAt content m
                  (newlineIf (beforeEmbed content m) ++ read (Host := Demo.unindexed) f
                             ++ newlineIf (afterEmbed content m))).
Proof.
  intros content. exists (mkMatch 2 12 [(1, (5, 10))] content), 1.
  repeat split; try (vm_compute; reflexivity).
  vm_compute. discriminate.
Qed.

(** ** C7: scopes that are not found *)

(** C7, amended.  For a directive with a scope, away from offset 0, whose link
    resolves to a file and whose lookup ends with no replacement or an empty
    one, the span is replaced by [[Content not found: <path>#<scope>]], where
    [<scope>] is the scope text of the directive with the white space around
    it trimmed. *)
Theorem content_not_found_spliced {TFile : Type} {host : Host TFile}
        (content : jsstring) (m : Match) (f : TFile) (r : option jsstring) :
  index m <> 0 ->
  getFirstLinkpathDest (filePathOf m) = Some f ->
  truthy (hashPartOf m) = true ->
  findReplacement (filePathOf m) (hashPartOf m) f = Some r ->
  isTruthy r = false ->
  spliceLoop resolveEmbed content [m] =
  Some (spliceAt content m
          (js "[Content not found: " ++ filePathOf m ++ HASH :: hashPartOf m ++ js "]")).
Proof.
  intros Hi Hf Hh Hr Ht. rewrite (spliceLoop_one _ _ _ Hi). unfold resolveEmbed.
  rewrite Hf, Hr, Ht. unfold contentNotFound. rewrite Hh. reflexivity.
Qed.

Lemma content_not_found_spliced_witness :
  let content := js "x ![[Doc#^nope]] y" in
  let m := mkMatch 2 16 [(2, (9, 14)); (1, (5, 8))] content in
  spliceLoop (resolveEmbed (host := Demo.indexed)) content [m]
  = Some (js "x [Content not found: Doc#^nope] y").
Proof.
  intros content m.
  refine (eq_trans (content_not_found_spliced (host := Demo.indexed) content m 0 None _ _ _ _ _) _).
  - vm_compute. discriminate.
  - vm_compute. reflexivity.
  - vm_compute. reflexivity.
  - vm_compute. reflexivity.
  - reflexivity.
  - vm_compute. reflexivity.
Defined.

(** C7 as stated fails on a scope written with white space around it: the
    diagnostic carries the trimmed scope, not the scope as it was written. *)
Lemma content_not_found_scope_trimmed :
  let content := js "x ![[Doc# ^nope ]] y" in
  exists m : Match,
    matchAll embedPattern content = [m]
    /\ group m 2 = Some (js " ^nope ")
    /\ resolveBlockReferences (host := Demo.unindexed) content
       = Some (js "x [Content not found: Doc#^nope] y")
    /\ resolveBlockReferences (host := Demo.unindexed) content
       <> Some (spliceAt content m
                  (js "[Content not found: " ++ filePathOf m ++ HASH :: capture m 2 ++ js "]")).
Proof.
  intros content. exists (mkMatch 2 18 [(2, (9, 16)); (1, (5, 8))] content).
  repeat split; try (vm_compute; reflexivity).
  vm_compute. discriminate.
Qed.

(** ** C8: the front-matter block *)

(** C8, amended.  [stripMetadata] removes a leading block exactly when the
    text begins with [---] and a newline, followed by any run of code units,
    the empty one included, followed by a newline, [---] and a newline: one
    line at least, possibly empty, stands between the two delimiter lines.
    The block removed ends at the first such closing sequence; what is left
    is the text after it.  In every other case the text is unchanged. *)
Theorem stripMetadata_characterised (text : jsstring) :
  (exists c rest,
      text = js "---\n" ++ c ++ js "\n---\n" ++ rest
      /\ (forall c' rest', text = js "---\n" ++ c' ++ js "\n---\n" ++ rest' -> length c <= length c')
      /\ stripMetadata text = rest)
  \/ ((forall c rest, text <> js "---\n" ++ c ++ js "\n---\n" ++ rest)
      /\ stripMetadata text = text).
Proof.
  rewrite stripMetadata_eq.
  destruct (stripPrefix (js "---\n") text) as [r|] eqn:Ep.
  - apply stripPrefix_Some in Ep.
    destruct (afterFirst (js "\n---\n") r) as [rest|] eqn:Ea.
    + left. destruct (afterFirst_Some _ _ _ Ea) as [c [Hc Hmin]].
      exists c, rest. repeat split.
      * rewrite Ep, Hc. reflexivity.
      * intros c' rest' Heq. rewrite Ep in Heq. apply app_inv_head in Heq.
        eapply Hmin. exact Heq.
    + right. split; [|reflexivity]. intros c rest Heq.
      rewrite Ep in Heq. apply app_inv_head in Heq.
      exact (afterFirst_None _ _ Ea c rest Heq).
  - right. split; [|reflexivity]. intros c rest Heq.
    assert (H : stripPrefix (js "---\n") text = Some (c ++ js "\n---\n" ++ rest))
      by (apply stripPrefix_Some; exact Heq).
    congruence.
Qed.

(** C8 as stated fails on front matter without content: the text begins with
    a line [---] followed at once by a line [---] and its newline, and the
    block stays. *)
Lemma empty_front_matter_kept :
  let text := js "---\n---\nBody\n" in
  stripFrontMatterSpec text = js "Body\n"
  /\ stripMetadata text = text
  /\ stripMetadata text <> stripFrontMatterSpec text.
Proof.
  intros text. repeat split; try (vm_compute; reflexivity).
  vm_compute. discriminate.
Qed.

(** Where content stands between the delimiters the two agree. *)
Example front_matter_removed :
  stripMetadata (js "---\ntags: x\n---\nBody ^id1\n") = js "Body ^id1\n"
  /\ stripFrontMatterSpec (js "---\ntags: x\n---\nBody ^id1\n") = js "Body ^id1\n"
  /\ stripMetadata (js "Body\n---\nx\n---\n") = js "Body\n---\nx\n---\n"
  /\ strip (mkSettings true true) (js "---\ntags: x\n---\nBody ^id1\n") = Some (js "Body\n").
Proof. repeat split; vm_compute; reflexivity. Qed.

(** ** C10: the order of the two stripping steps *)
(** C10, amended.  On every text in which the block-id step turns no line
    into a line [---] that was not one before, stripping the metadata and then
    the block ids gives the same result as stripping the block ids and then
    the metadata. *)
Theorem strip_orders_agree content :
  (forall l, In l (split content) -> cleanLine l = DASHES -> l = DASHES) ->
  strip (mkSettings true true) content = blockIdsThenMetadata content.
Proof.
  intros H. unfold strip, blockIdsThenMetadata. cbn [removeMetadata removeBlockIds].
  rewrite !cleanAllBlockIds_eq. f_equal.
  pose proof (split_noNL content) as Hall.
  pose proof (split_nonempty content) as Hne.
  rewrite <- (join_split content) at 1.
  rewrite (stripMetadata_lines _ Hall).
  destruct (stripLines_shape _ Hne Hall) as [Hne' Hall'].
  rewrite (split_join _ Hne' Hall').
  rewrite stripMetadata_lines.
  - rewrite stripLines_map; [reflexivity|].
    intros l Hin. apply eqb_js_cleanLine. apply H. exact Hin.
  - clear -Hall. induction Hall; constructor; [apply cleanLine_noNL|]; assumption.
Qed.

Lemma strip_orders_agree_witness :
  strip (mkSettings true true) (js "---\ntags: x\n---\n  Body ^id1\nmore\n")
  = blockIdsThenMetadata (js "---\ntags: x\n---\n  Body ^id1\nmore\n").
Proof.
  apply strip_orders_agree.
  intros l Hin. vm_compute in Hin.
  repeat (destruct Hin as [Hin|Hin]; [subst l; vm_compute; intros H; try discriminate H; reflexivity|]).
  destruct Hin.
Defined.

(** C10 as stated fails where the block-id step turns a line into a
    delimiter: with a blank after the opening [---], the front matter stays
    in the mandated order and goes in the other. *)
Lemma strip_orders_differ :
  let text := js "--- \nx\n---\nBody" in
  strip (mkSettings true true) text = Some (js "---\nx\n---\nBody")
  /\ blockIdsThenMetadata text = Some (js "Body")
  /\ strip (mkSettings true true) text <> blockIdsThenMetadata text.
Proof.
  intros text. repeat split; try (vm_compute; reflexivity).
  vm_compute. discriminate.
Qed.

(** ** C1: heading sections *)

(** The boundary rule on the marker lines of the examples. *)
Example isBoundary_examples :
  isBoundary 1 (js "# C") = true
  /\ isBoundary 1 (js "## B") = false
  /\ isBoundary 2 (js "## B") = true
  /\ isBoundary 6 (js "####### seven") = false
  /\ isBoundary 3 (js "#tag") = false.
Proof. repeat split; vm_compute; reflexivity. Qed.

(** C1 (fallback path).  In [Demo.doc] the heading [# A] is followed by two
    lines and a deeper heading, and then by [# C].  With the cache the
    replacement is the heading line and all lines up to [# C].  Without it,
    [getHeadingContent] returns the first line after the heading and no more:
    the heading line is left out and the span ends at the first line end. *)
Theorem heading_fallback_diverges :
  headingReplacement (host := Demo.indexed) (js "Doc") Demo.doc (Demo.cache 0) (js "A")
  = Some (js "# A\nline1\n  line2 ^abc\n## B\nb1")
  /\ headingReplacement (host := Demo.unindexed) (js "Doc") Demo.doc None (js "A")
     = Some (js "line1")
  /\ resolveBlockReferences (host := Demo.indexed) (js "x ![[Doc#A]] y")
     = Some (js "x # A\nline1\n  line2 ^abc\n## B\nb1 y")
  /\ resolveBlockReferences (host := Demo.unindexed) (js "x ![[Doc#A]] y")
     = Some (js "x line1 y").
Proof. repeat split; vm_compute; reflexivity. Qed.

(** ** C2: indentation *)

(** C2 (leading white space).  [cleanBlockContent] ends with [trim], so the
    indentation of a line goes with its block id: in [cleanAllBlockIds], and
    in a block embed through the cache and through the fallback alike. *)
Theorem cleaning_drops_indentation :
  cleanAllBlockIds (js "- item ^id1\n    - nested ^id2") = Some (js "- item\n- nested")
  /\ cleanBlockContent (js "  line2 ^abc") (Some (js "abc")) = Some (js "line2")
  /\ resolveBlockReferences (host := Demo.indexed) (js "x ![[Doc#^abc]] y")
     = Some (js "x line2 y")
  /\ resolveBlockReferences (host := Demo.unindexed) (js "x ![[Doc#^abc]] y")
     = Some (js "x line2 y").
Proof. repeat split; vm_compute; reflexivity. Qed.


(** * Further properties *)

(** ** Every match comes from a run of the matcher *)

Lemma scan_at re : forall s p i e,
  scan re p s = Some (i, e) ->
  exists l1 l2,
    s = l1 ++ l2 /\ i = length p + length l1
    /\ matcher (multiline re) (source re) (mkState (rev l1 ++ p) l2 []) Some = Some e.
Proof.
  induction s as [|c t IH]; intros p i e H; rewrite scan_unfold in H.
  - destruct (matcher _ _ _ _) eqn:E; [|discriminate].
    inversion H; subst. exists [], []. simpl. repeat split; [lia | exact E].
  - destruct (matcher _ _ _ _) eqn:E.
    + inversion H; subst. exists [], (c :: t). simpl. repeat split; [lia | exact E].
    + destruct (IH _ _ _ H) as (l1 & l2 & H1 & H2 & H3).
      exists (c :: l1), l2. split; [rewrite H1; reflexivity|]. split.
      * rewrite H2. simpl. lia.
      * simpl. rewrite <- app_assoc. exact H3.
Qed.

Lemma matchAllFrom_In re text m : forall fuel p s,
  rev p ++ s = text ->
  In m (matchAllFrom fuel re text p s) ->
  exists l1 l2 e,
    text = l1 ++ l2 /\ index m = length l1
    /\ matcher (multiline re) (source re) (mkState (rev l1) l2 []) Some = Some e
    /\ endIndex m = pos e /\ captured m = caps e /\ input m = text.
Proof.
  induction fuel as [|fuel IH]; intros p s Hz Hin; simpl in Hin; [contradiction|].
  destruct (scan re p s) as [[i e]|] eqn:Es; [|contradiction].
  pose proof (scan_sound _ _ _ _ _ Es) as (k1 & k2 & H1 & H2 & H3).
  assert (Hz' : rev (pre e) ++ suf e = text).
  { rewrite H2, !rev_app_distr, !rev_involutive, <- Hz, H1, <- !app_assoc. reflexivity. }
  destruct Hin as [<-|Hin].
  - apply scan_at in Es. destruct Es as (l1 & l2 & E1 & E2 & E3).
    exists (rev p ++ l1), l2, e. cbn [index endIndex captured input].
    rewrite rev_app_distr, rev_involutive, length_app, length_rev.
    repeat split; auto. rewrite <- Hz, E1, app_assoc. reflexivity.
  - destruct (pos e =? i).
    + destruct (suf e) as [|c t] eqn:Et; [contradiction|].
      apply (IH (c :: pre e) t); [|exact Hin].
      simpl. rewrite <- app_assoc. exact Hz'.
    + apply (IH (pre e) (suf e)); assumption.
Qed.

Lemma matchAll_In re text m :
  In m (matchAll re text) ->
  exists l1 l2 e,
    text = l1 ++ l2 /\ index m = length l1
    /\ matcher (multiline re) (source re) (mkState (rev l1) l2 []) Some = Some e
    /\ endIndex m = pos e /\ captured m = caps e /\ input m = text.
Proof. apply (matchAllFrom_In re text m _ [] text). reflexivity. Qed.

(** ** Repetition of a character class *)

Lemma repMay_class ml (p : N -> bool) g k : forall fuel rem s e,
  repMay (matcher ml (Cls p)) (clearCaps []) g k fuel rem s = Some e ->
  exists l s',
    suf s = l ++ suf s' /\ pre s' = rev l ++ pre s /\ caps s' = caps s
    /\ Forall (fun c => p c = true) l /\ k s' = Some e.
Proof.
  induction fuel as [|fuel IH]; intros rem s e H.
  - exists [], s. repeat split; auto.
  - cbn [repMay] in H. rewrite clearCaps_nil in H.
    remember (matcher ml (Cls p) s
                (fun s' => if pos s' =? pos s then None
                           else repMay (matcher ml (Cls p)) (clearCaps []) g k fuel
                                       (option_map Nat.pred rem) s')) as it eqn:Eit.
    assert (Hk : forall e0, k s = Some e0 ->
              exists l s', suf s = l ++ suf s' /\ pre s' = rev l ++ pre s /\ caps s' = caps s
                           /\ Forall (fun c => p c = true) l /\ k s' = Some e0).
    { intros e0 H0. exists [], s. repeat split; auto. }
    assert (Hiter : forall e0, it = Some e0 ->
              exists l s', suf s = l ++ suf s' /\ pre s' = rev l ++ pre s /\ caps s' = caps s
                           /\ Forall (fun c => p c = true) l /\ k s' = Some e0).
    { intros e0 H0. rewrite Eit in H0. cbn [matcher] in H0.
      destruct (suf s) as [|c t] eqn:Es; [discriminate|].
      destruct (p c) eqn:Ep; [|discriminate].
      destruct (_ =? _); [discriminate|].
      apply IH in H0. destruct H0 as (l & s' & H1 & H2 & H3 & H4 & H5).
      cbn [suf pre caps] in *.
      exists (c :: l), s'. repeat split; auto.
      - rewrite H1. reflexivity.
      - rewrite H2. simpl. rewrite <- app_assoc. reflexivity. }
    clear Eit.
    destruct rem as [[|n]|]; [apply Hk, H | |];
      (destruct g;
       [ destruct it; [apply Hiter, H | apply Hk, H]
       | destruct (k s); [apply Hk, H | apply Hiter, H] ]).
Qed.

Lemma repMust_class ml (p : N -> bool) (after : Cont) : forall n s e,
  repMust (matcher ml (Cls p)) (clearCaps []) n after s = Some e ->
  exists l s',
    suf s = l ++ suf s' /\ pre s' = rev l ++ pre s /\ caps s' = caps s
    /\ Forall (fun c => p c = true) l /\ length l = n /\ after s' = Some e.
Proof.
  induction n as [|n IH]; intros s e H; cbn [repMust] in H.
  - exists [], s. repeat split; auto.
  - rewrite clearCaps_nil in H. cbn [matcher] in H.
    destruct (suf s) as [|c t] eqn:Es; [discriminate|].
    destruct (p c) eqn:Ep; [|discriminate].
    apply IH in H. destruct H as (l & s' & H1 & H2 & H3 & H4 & H5 & H6).
    cbn [suf pre caps] in *.
    exists (c :: l), s'. repeat split; auto.
    + rewrite H1. reflexivity.
    + rewrite H2. simpl. rewrite <- app_assoc. reflexivity.
    + simpl. rewrite H5. reflexivity.
Qed.

Lemma rep_class ml (p : N -> bool) lo hi g s k e :
  matcher ml (Rep lo hi g (Cls p)) s k = Some e ->
  exists l s',
    suf s = l ++ suf s' /\ pre s' = rev l ++ pre s /\ caps s' = caps s
    /\ Forall (fun c => p c = true) l /\ lo <= length l /\ k s' = Some e.
Proof.
  cbn [matcher groupsOf]. intros H.
  apply (repMust_class ml) in H. destruct H as (l1 & s1 & A1 & A2 & A3 & A4 & A5 & H).
  apply (repMay_class ml) in H. destruct H as (l2 & s2 & B1 & B2 & B3 & B4 & H).
  exists (l1 ++ l2), s2.
  split; [rewrite A1, B1, app_assoc; reflexivity|].
  split; [rewrite B2, A2, rev_app_distr, app_assoc; reflexivity|].
  split; [congruence|].
  split; [apply Forall_app; split; assumption|].
  split; [rewrite length_app; lia | exact H].
Qed.


(** ** The shape of a directive *)

Lemma matcher_opt ml r s k :
  matcher ml (opt r) s k =
  match matcher ml r (clearCaps (groupsOf r) s)
                (fun s' => if pos s' =? pos s then None else k s') with
  | Some e => Some e
  | None => k s
  end.
Proof.
  unfold opt. cbn [matcher repMust option_map Nat.sub repMay Nat.pred].
  destruct (length (suf s)); reflexivity.
Qed.

Lemma embed_shape l1 l2 e :
  matcher false (source embedPattern) (mkState (rev l1) l2 []) Some = Some e ->
  exists path scope rest,
    l2 = js "![[" ++ path ++ scope ++ js "]]" ++ rest
    /\ Forall (fun c => isLineTerminator c = false) path
    /\ pos e = length l1 + 3 + length path + length scope + 2
    /\ lookupCap 1 (caps e) = Some (length l1 + 3, length l1 + 3 + length path)
    /\ ((scope = [] /\ lookupCap 2 (caps e) = None)
        \/ exists g,
             scope = HASH :: g /\ g <> [] /\ ~ In RBRACKET g
             /\ lookupCap 2 (caps e)
                = Some (length l1 + 3 + length path + 1,
                        length l1 + 3 + length path + 1 + length g)).
Proof.
  cbn [embedPattern source cat fold_right]. intros H.
  rewrite matcher_Seq, matcher_lit in H. cbn [suf pre caps] in H.
  destruct (stripPrefix (js "![[") l2) as [r1|] eqn:E1; [|discriminate].
  apply stripPrefix_Some in E1.
  rewrite matcher_Seq, matcher_Grp in H.
  apply rep_class in H. destruct H as (path & s2 & P1 & P2 & P3 & P4 & _ & H).
  cbn [suf pre caps] in P1, P2, P3.
  assert (Hpos1 : pos (mkState (rev (js "![[") ++ rev l1) r1 []) = length l1 + 3).
  { unfold pos. cbn [pre]. rewrite length_app, !length_rev.
    change (length (js "![[")) with 3. lia. }
  assert (Hpos2 : pos s2 = length l1 + 3 + length path).
  { unfold pos. rewrite P2, !length_app, !length_rev.
    change (length (js "![[")) with 3. lia. }
  rewrite Hpos1, Hpos2 in H.
  assert (Hpath : Forall (fun c => isLineTerminator c = false) path).
  { eapply Forall_impl; [|exact P4]. intros c Hc. apply negb_true_iff in Hc. exact Hc. }
  rewrite matcher_Seq, matcher_opt in H.
  match type of H with
  | match ?it with _ => _ end = _ => destruct it as [e1|] eqn:Eopt
  end.
  - (* a scope *)
    injection H as <-.
    cbn [cat fold_right groupsOf app] in Eopt.
    rewrite matcher_Seq, matcher_chr in Eopt.
    unfold clearCaps, setCap in Eopt. cbn [suf pre caps] in Eopt.
    rewrite P3 in Eopt. cbn [filter fst existsb Nat.eqb orb negb] in Eopt.
    destruct (suf s2) as [|x t] eqn:Es2; [discriminate|].
    destruct (N.eqb_spec HASH x) as [<-|]; [|discriminate].
    rewrite matcher_Seq, matcher_Grp in Eopt.
    apply rep_class in Eopt. destruct Eopt as (g & s4 & G1 & G2 & G3 & G4 & G5 & H).
    cbn [suf pre caps] in G1, G2, G3.
    rewrite matcher_Eps in H.
    destruct (_ =? _) in H; [discriminate|].
    rewrite matcher_Seq, matcher_lit in H. unfold setCap in H. cbn [suf pre caps] in H.
    destruct (stripPrefix (js "]]") (suf s4)) as [rest|] eqn:E4; [|discriminate].
    apply stripPrefix_Some in E4. rewrite matcher_Eps in H. injection H as <-.
    exists path, (HASH :: g), rest.
    assert (Hpos4 : pos s4 = length l1 + 3 + length path + 1 + length g).
    { unfold pos in *. rewrite G2. rewrite length_app, length_rev. cbn [length]. lia. }
    split; [rewrite E1, P1, G1, E4; reflexivity|].
    split; [exact Hpath|].
    split.
    { unfold pos in *. cbn [pre length]. rewrite Hpos4. lia. }
    cbn [caps]. rewrite G3. unfold pos at 1 2. cbn [pre length].
    split; [cbn [lookupCap Nat.eqb]; reflexivity|].
    right. exists g. split; [reflexivity|]. split; [destruct g; [simpl in G5; lia | discriminate]|].
    split.
    + intros Hin. eapply Forall_forall in G4; [|exact Hin].
      cbn in G4. discriminate.
    + cbn [lookupCap Nat.eqb]. unfold pos in *. cbn [pre length].
      rewrite Hpos4, Hpos2. do 3 f_equal. lia.
  - (* no scope *)
    rewrite matcher_Seq, matcher_lit in H. unfold setCap in H. cbn [suf pre caps] in H.
    destruct (stripPrefix (js "]]") (suf s2)) as [rest|] eqn:E4; [|discriminate].
    apply stripPrefix_Some in E4. rewrite matcher_Eps in H. injection H as <-.
    exists path, [], rest.
    split; [rewrite E1, P1, E4; reflexivity|].
    split; [exact Hpath|].
    split.
    { unfold pos in *. cbn [pre length]. rewrite Hpos2. lia. }
    cbn [caps]. rewrite P3. cbn [lookupCap Nat.eqb].
    split; [reflexivity|]. left. split; reflexivity.
Qed.

Lemma slice_mid (a b c : jsstring) :
  slice (a ++ b ++ c) (length a) (length a + length b) = b.
Proof.
  unfold slice. rewrite skipn_app, skipn_all, Nat.sub_diag. cbn [skipn app].
  replace (length a + length b - length a) with (length b) by lia.
  rewrite firstn_app, firstn_all, Nat.sub_diag. cbn [firstn]. apply app_nil_r.
Qed.

Lemma slice_at (a b c : jsstring) i j :
  i = length a -> j = length a + length b -> slice (a ++ b ++ c) i j = b.
Proof. intros -> ->. apply slice_mid. Qed.

(** A directive found by the embed pattern, with the parts of the text
    around it. *)
Lemma matchAll_embed_shape text m :
  In m (matchAll embedPattern text) ->
  exists before path scope rest,
    text = before ++ (js "![[" ++ path ++ scope ++ js "]]") ++ rest
    /\ input m = text
    /\ index m = length before
    /\ endIndex m = length before + length (js "![[" ++ path ++ scope ++ js "]]")
    /\ Forall (fun c => isLineTerminator c = false) path
    /\ capture m 1 = path
    /\ ((scope = [] /\ group m 2 = None)
        \/ exists g, scope = HASH :: g /\ g <> [] /\ ~ In RBRACKET g /\ group m 2 = Some g).
Proof.
  intros Hin. apply matchAll_In in Hin.
  destruct Hin as (l1 & l2 & e & Ht & Hi & Hm & He & Hc & Hinp).
  apply embed_shape in Hm.
  destruct Hm as (path & scope & rest & Hl2 & Hpath & Hpos & Hc1 & Hc2).
  exists l1, path, scope, rest.
  assert (Htext : text = l1 ++ (js "![[" ++ path ++ scope ++ js "]]") ++ rest).
  { rewrite Ht, Hl2, <- !app_assoc. reflexivity. }
  split; [exact Htext|]. split; [exact Hinp|]. split; [exact Hi|].
  split.
  { rewrite He, Hpos, !length_app.
    change (length (js "![[")) with 3. change (length (js "]]")) with 2. lia. }
  split; [exact Hpath|].
  split.
  { unfold capture, group. rewrite Hc, Hc1, Hinp.
    replace text with ((l1 ++ js "![[") ++ path ++ (scope ++ js "]]" ++ rest))
      by (rewrite Htext, <- !app_assoc; reflexivity).
    apply slice_at; rewrite length_app; change (length (js "![[")) with 3; lia. }
  destruct Hc2 as [[Hs Hn]|(g & Hs & Hg & Hr & Hn)].
  - left. split; [exact Hs|]. unfold group. rewrite Hc, Hn. reflexivity.
  - right. exists g. split; [exact Hs|]. split; [exact Hg|]. split; [exact Hr|].
    unfold group. rewrite Hc, Hn, Hinp. f_equal.
    replace text with ((l1 ++ js "![[" ++ path ++ [HASH]) ++ g ++ (js "]]" ++ rest))
      by (rewrite Htext, Hs, <- !app_assoc; reflexivity).
    apply slice_at; rewrite !length_app; change (length (js "![[")) with 3;
      cbn [length]; lia.
Qed.

Lemma chain_split text : forall before lo m after,
  chain text lo (before ++ m :: after) ->
  Forall (fun m' => endIndex m' <= index m) before
  /\ endIndex m <= length text
  /\ Forall (fun m' => endIndex m <= index m') after.
Proof.
  induction before as [|b before IH]; intros lo m after H.
  - destruct H as (_ & _ & _ & H). split; [constructor|].
    split; [exact (chain_bound _ _ _ H) | exact (chain_Forall _ _ _ H)].
  - destruct H as (_ & _ & _ & H). cbn [app] in *.
    pose proof (chain_Forall _ _ _ H) as Hall.
    destruct (IH _ _ _ H) as (H1 & H2 & H3).
    split; [|split; assumption]. constructor; [|exact H1].
    apply Forall_app in Hall. destruct Hall as [_ Hall]. inversion Hall; assumption.
Qed.

(** ** The loop as one pass *)

Lemma spliceLoopV1_app step : forall a b content,
  spliceLoopV1 step content (a ++ b) =
  match spliceLoopV1 step content a with
  | Some content' => spliceLoopV1 step content' b
  | None => None
  end.
Proof.
  induction a as [|m a IH]; intros b content; simpl; [reflexivity|].
  destruct (step content m); [apply IH | reflexivity].
Qed.

Lemma spliceLoop_guarded step : forall ms content,
  spliceLoop step content ms
  = spliceLoopV1 (fun c m => if index m =? 0 then Some c else step c m) content ms.
Proof.
  induction ms as [|m ms IH]; intros content; simpl; [reflexivity|].
  destruct (index m =? 0); [apply IH|].
  destruct (step content m); [apply IH | reflexivity].
Qed.

(** The code units next to a span, once the text to its right has been
    resolved into [tail]. *)
Lemma beforeEmbed_resolved text m tail :
  index m <= endIndex m -> endIndex m <= length text ->
  beforeEmbed (firstn (endIndex m) text ++ tail) m = beforeEmbed text m.
Proof.
  intros H1 H2. unfold beforeEmbed. destruct (0 <? index m) eqn:E; [|reflexivity].
  apply Nat.ltb_lt in E.
  rewrite nth_error_app1 by (rewrite length_firstn; lia).
  rewrite nth_error_firstn.
  replace (index m - 1 <? endIndex m) with true by (symmetry; apply Nat.ltb_lt; lia).
  reflexivity.
Qed.

Lemma afterEmbed_resolved text m tail :
  input m = text -> index m <= endIndex m -> endIndex m <= length text ->
  afterEmbed (firstn (endIndex m) text ++ tail) m = hd_error tail.
Proof.
  intros Hi H1 H2. rewrite afterEmbed_nth, (fullMatch_length text m Hi H1 H2).
  rewrite nth_error_app2 by (rewrite length_firstn; lia).
  rewrite length_firstn. replace (endIndex m - Nat.min (endIndex m) (length text)) with 0 by lia.
  destruct tail; reflexivity.
Qed.

Lemma spliceAt_resolved text m tail t :
  input m = text -> index m <= endIndex m -> endIndex m <= length text ->
  spliceAt (firstn (endIndex m) text ++ tail) m t = firstn (index m) text ++ t ++ tail.
Proof.
  intros Hi H1 H2. unfold spliceAt. rewrite (fullMatch_length text m Hi H1 H2).
  rewrite firstn_app, firstn_firstn, length_firstn.
  replace (Nat.min (index m) (endIndex m)) with (index m) by lia.
  replace (index m - Nat.min (endIndex m) (length text)) with 0 by lia.
  cbn [firstn]. rewrite app_nil_r.
  rewrite skipn_app, length_firstn.
  replace (endIndex m - Nat.min (endIndex m) (length text)) with 0 by lia.
  rewrite skipn_all2 by (rewrite length_firstn; lia).
  reflexivity.
Qed.

Lemma weave_loop repl skip step text :
  (forall c m, step c m = if skip m : bool then Some c
                          else match repl (beforeEmbed c m) (afterEmbed c m) m with
                               | Some t => Some (spliceAt c m t)
                               | None => None
                               end) ->
  forall ms lo,
    chain text lo ms ->
    spliceLoopV1 step text (rev ms)
    = option_map (app (firstn lo text)) (weave repl skip text lo ms).
Proof.
  intros Hstep. induction ms as [|m ms IH]; intros lo H.
  - cbn [rev spliceLoopV1 weave option_map]. rewrite firstn_skipn. reflexivity.
  - destruct H as (Hi & H1 & H2 & H3).
    pose proof (chain_bound _ _ _ H3) as Hb.
    cbn [rev weave]. rewrite spliceLoopV1_app, (IH _ H3).
    destruct (weave repl skip text (endIndex m) ms) as [tail|]; [|reflexivity].
    cbn [option_map spliceLoopV1]. rewrite Hstep.
    destruct (skip m).
    + cbn [option_map]. rewrite <- (firstn_slice text lo (endIndex m)) by lia.
      rewrite <- app_assoc. reflexivity.
    + rewrite (beforeEmbed_resolved _ _ _ H2 Hb), (afterEmbed_resolved _ _ _ Hi H2 Hb).
      destruct (repl _ _ m) as [t|]; [|reflexivity].
      cbn [option_map]. rewrite (spliceAt_resolved _ _ _ _ Hi H2 Hb).
      rewrite <- (firstn_slice text lo (index m)) by lia.
      rewrite <- app_assoc. reflexivity.
Qed.

Lemma spliceLoopV1_weave repl skip step text ms :
  (forall c m, step c m = if skip m : bool then Some c
                          else match repl (beforeEmbed c m) (afterEmbed c m) m with
                               | Some t => Some (spliceAt c m t)
                               | None => None
                               end) ->
  chain text 0 ms ->
  spliceLoopV1 step text (rev ms) = weave repl skip text 0 ms.
Proof.
  intros Hstep Hc. rewrite (weave_loop repl skip step text Hstep ms 0 Hc).
  cbn [firstn app]. destruct (weave _ _ _ _ _); reflexivity.
Qed.

Lemma spliceLoop_weave repl step text ms :
  (forall c m, step c m = match repl (beforeEmbed c m) (afterEmbed c m) m with
                          | Some t => Some (spliceAt c m t)
                          | None => None
                          end) ->
  chain text 0 ms ->
  spliceLoop step text (rev ms) = weave repl (fun m => index m =? 0) text 0 ms.
Proof.
  intros Hstep Hc. rewrite spliceLoop_guarded.
  apply spliceLoopV1_weave; [|exact Hc].
  intros c m. rewrite Hstep. reflexivity.
Qed.

Section OnePassFacts.
Context {TFile : Type} {host : Host TFile}.

Lemma resolveEmbed_replacementWith content m :
  resolveEmbed content m
  = match replacementWith findReplacement (beforeEmbed content m) (afterEmbed content m) m with
    | Some t => Some (spliceAt content m t)
    | None => None
    end.
Proof.
  unfold resolveEmbed, replacementWith.
  destruct (getFirstLinkpathDest (filePathOf m)) as [f|]; [|reflexivity].
  destruct (findReplacement _ _ f) as [r|]; [|reflexivity].
  destruct (isTruthy r); reflexivity.
Qed.

Lemma resolveEmbedV1_replacementWith content m :
  resolveEmbedV1 content m
  = match replacementWith findReplacementV1 (beforeEmbed content m) (afterEmbed content m) m with
    | Some t => Some (spliceAt content m t)
    | None => None
    end.
Proof.
  unfold resolveEmbedV1, replacementWith.
  destruct (getFirstLinkpathDest (filePathOf m)) as [f|]; [|reflexivity].
  destruct (findReplacementV1 _ _ f) as [r|]; [|reflexivity].
  destruct (isTruthy r); reflexivity.
Qed.

(** X3.  [resolveBlockReferences] splices in place, from the last directive
    to the first.  Its result is that of one pass over the text from the
    left, [onePass]: the text between the directives stays as it is, a
    directive at offset 0 stays, and every other directive gives way to its
    diagnostic or to its replacement, with a newline before the replacement
    when the code unit before the span is one, and a newline after it when
    the result goes on with one.  The two agree also on the runs that leave
    the model. *)
Theorem resolve_is_one_pass (content : jsstring) :
  resolveBlockReferences content = onePass content.
Proof.
  unfold resolveBlockReferences, onePass.
  apply spliceLoop_weave.
  - intros c m. apply resolveEmbed_replacementWith.
  - apply matchAll_chain.
Qed.

(** X4.  The loop of the first revision has no guard: its result is that of
    the one pass in which every directive gives way, the one at offset 0
    too. *)
Theorem first_revision_is_one_pass (content : jsstring) :
  resolveBlockReferencesV1 content = onePassV1 content.
Proof.
  unfold resolveBlockReferencesV1, onePassV1.
  apply spliceLoopV1_weave.
  - intros c m. apply resolveEmbedV1_replacementWith.
  - apply matchAll_chain.
Qed.
End OnePassFacts.

(** The two revisions on a text with a directive at offset 0. *)
Example one_pass_example :
  let text := js "![[Doc#^abc]] a\n![[Missing]]\nb ![[Doc#^abc]]" in
  onePass (host := Demo.indexed) text
  = Some (js "![[Doc#^abc]] a\n[File not found: Missing]\nb line2")
  /\ onePassV1 (host := Demo.indexed) text
     = Some (js "line2 a\n[File not found: Missing]\nb line2").
Proof. split; vm_compute; reflexivity. Qed.

(** ** What the block-id pattern removes *)

(** A greedy repetition of a class that runs into a code unit outside the
    class, or into the end, hands the whole run to its continuation first. *)
Lemma repMay_run ml (p : N -> bool) (k : Cont) : forall l fuel pr rest cs e,
  Forall (fun c => p c = true) l ->
  match rest with [] => True | c :: _ => p c = false end ->
  length l < fuel ->
  k (mkState (rev l ++ pr) rest cs) = Some e ->
  repMay (matcher ml (Cls p)) (clearCaps []) true k fuel None (mkState pr (l ++ rest) cs)
  = Some e.
Proof.
  induction l as [|c l IH]; intros fuel pr rest cs e Hl Hrest Hf Hk.
  - destruct fuel as [|fuel]; [exact Hk|].
    cbn [repMay app rev]. rewrite clearCaps_nil. cbn [matcher suf].
    destruct rest as [|c t]; [exact Hk|]. rewrite Hrest. exact Hk.
  - destruct fuel as [|fuel]; [simpl in Hf; lia|].
    inversion Hl as [|? ? Hc Hl']; subst.
    cbn [repMay app]. rewrite clearCaps_nil. cbn [matcher suf pre caps]. rewrite Hc.
    unfold pos at 1 2. cbn [pre length option_map].
    replace (S (length pr) =? length pr) with false by (symmetry; apply Nat.eqb_neq; lia).
    assert (R : repMay (matcher ml (Cls p)) (clearCaps []) true k fuel None
                       (mkState (c :: pr) (l ++ rest) cs) = Some e).
    { apply IH; [exact Hl' | exact Hrest | simpl in Hf; lia |].
      cbn [rev] in Hk. rewrite <- app_assoc in Hk. exact Hk. }
    cbn [matcher] in R. rewrite R. reflexivity.
Qed.

Lemma star_run ml (p : N -> bool) (k : Cont) l pr rest cs e :
  Forall (fun c => p c = true) l ->
  match rest with [] => True | c :: _ => p c = false end ->
  k (mkState (rev l ++ pr) rest cs) = Some e ->
  matcher ml (star (Cls p)) (mkState pr (l ++ rest) cs) k = Some e.
Proof.
  intros Hl Hrest Hk. unfold star. cbn [matcher repMust groupsOf option_map suf].
  apply (repMay_run ml); try assumption. rewrite length_app. lia.
Qed.

Lemma star_run_end ml (p : N -> bool) (k : Cont) l pr cs e :
  Forall (fun c => p c = true) l ->
  k (mkState (rev l ++ pr) [] cs) = Some e ->
  matcher ml (star (Cls p)) (mkState pr l cs) k = Some e.
Proof.
  intros Hl Hk. pose proof (star_run ml p k l pr [] cs e Hl I Hk) as R.
  rewrite app_nil_r in R. exact R.
Qed.

Lemma plus_run ml (p : N -> bool) (k : Cont) l pr rest cs e :
  l <> [] ->
  Forall (fun c => p c = true) l ->
  match rest with [] => True | c :: _ => p c = false end ->
  k (mkState (rev l ++ pr) rest cs) = Some e ->
  matcher ml (plus (Cls p)) (mkState pr (l ++ rest) cs) k = Some e.
Proof.
  intros Hne Hl Hrest Hk. destruct l as [|c l]; [congruence|].
  inversion Hl as [|? ? Hc Hl']; subst.
  unfold plus. cbn [matcher repMust groupsOf option_map]. rewrite clearCaps_nil.
  cbn [matcher suf pre caps app]. rewrite Hc. cbn [suf].
  apply (repMay_run ml); try assumption.
  - rewrite length_app. lia.
  - cbn [rev] in Hk. rewrite <- app_assoc in Hk. exact Hk.
Qed.

Lemma whiteSpace_not_alnum c : isWhiteSpace c = true -> isAlnum c = false.
Proof.
  intros H. destruct (isAlnum c) eqn:E; [|reflexivity]. exfalso.
  unfold isWhiteSpace in H. unfold isAlnum in E.
  repeat rewrite ?orb_true_iff, ?andb_true_iff, ?N.leb_le, ?N.eqb_eq in H.
  repeat rewrite ?orb_true_iff, ?andb_true_iff, ?N.leb_le, ?N.eqb_eq in E.
  lia.
Qed.

Lemma head_outside (p q : N -> bool) (l rest : jsstring) :
  (forall c, q c = true -> p c = false) ->
  Forall (fun c => q c = true) l ->
  match rest with [] => True | c :: _ => p c = false end ->
  match l ++ rest with [] => True | c :: _ => p c = false end.
Proof.
  intros Hpq Hl Hrest. destruct l as [|c l]; [exact Hrest|].
  inversion Hl; subst. cbn [app]. apply Hpq. assumption.
Qed.

(** The pattern matches from an offset exactly when the rest of the text is
    a [blockIdTail], and then up to the end of the text. *)
Lemma anyBlockId_sound pr l2 e :
  matcher false (source anyBlockIdPattern) (mkState pr l2 []) Some = Some e ->
  blockIdTail l2 /\ pos e = length pr + length l2.
Proof.
  cbn [anyBlockIdPattern source cat fold_right]. intros H.
  rewrite matcher_Seq in H. unfold star at 1 in H. apply rep_class in H.
  destruct H as (w1 & s1 & A1 & A2 & A3 & A4 & _ & H). cbn [suf pre caps] in A1, A2, A3.
  rewrite matcher_Seq, matcher_chr in H.
  destruct (suf s1) as [|x t] eqn:Es1; [discriminate|].
  destruct (N.eqb_spec CARET x) as [<-|]; [|discriminate].
  rewrite matcher_Seq in H. unfold plus in H. apply rep_class in H.
  destruct H as (id & s2 & B1 & B2 & B3 & B4 & B5 & H). cbn [suf pre caps] in B1, B2, B3.
  rewrite matcher_Seq in H. unfold star in H. apply rep_class in H.
  destruct H as (w2 & s3 & C1 & C2 & C3 & C4 & _ & H).
  rewrite matcher_Seq in H. cbn [matcher] in H. unfold atEol in H.
  destruct (suf s3) as [|y u] eqn:Es3; [|discriminate]. injection H as <-.
  rewrite app_nil_r in C1.
  split.
  - exists w1, id, w2. split; [rewrite A1, B1, C1; reflexivity|].
    split; [exact A4|]. split; [destruct id; [simpl in B5; lia | discriminate]|].
    split; [exact B4 | exact C4].
  - unfold pos. rewrite C2, B2. cbn [length app]. rewrite A2, A1, B1, C1.
    rewrite !length_app, !length_rev. cbn [length]. rewrite !length_app, ?length_rev. lia.
Qed.

Lemma anyBlockId_complete pr l2 :
  blockIdTail l2 ->
  exists e, matcher false (source anyBlockIdPattern) (mkState pr l2 []) Some = Some e.
Proof.
  intros (w1 & id & w2 & -> & H1 & Hne & H2 & H3).
  eexists. cbn [anyBlockIdPattern source cat fold_right].
  rewrite matcher_Seq. apply star_run; [exact H1 | reflexivity |].
  rewrite matcher_Seq, matcher_chr. cbn [suf pre caps]. rewrite N.eqb_refl.
  rewrite matcher_Seq. apply plus_run; [exact Hne | exact H2 | |].
  { destruct w2 as [|c w2]; [exact I|]. inversion H3; subst.
    apply whiteSpace_not_alnum. assumption. }
  rewrite matcher_Seq. apply star_run_end; [exact H3|].
  rewrite matcher_Seq. cbn [matcher atEol suf]. reflexivity.
Qed.

(** A scan stops at the first offset at which the pattern matches. *)
Lemma scan_least re : forall s p i e,
  scan re p s = Some (i, e) ->
  forall l1 l2, s = l1 ++ l2 -> length p + length l1 < i ->
  matcher (multiline re) (source re) (mkState (rev l1 ++ p) l2 []) Some = None.
Proof.
  induction s as [|c t IH]; intros p i e H l1 l2 Hs Hlt; rewrite scan_unfold in H.
  - destruct (matcher _ _ _ _) eqn:E; [|discriminate].
    injection H as <- _. lia.
  - destruct (matcher _ _ (mkState p (c :: t) []) _) eqn:E.
    + injection H as <- _. lia.
    + destruct l1 as [|c' l1]; cbn [app] in Hs.
      * subst l2. exact E.
      * injection Hs as <- ->. cbn [rev]. rewrite <- app_assoc.
        apply (IH _ _ _ H l1 l2 eq_refl). simpl in *. lia.
Qed.

Lemma scan_nowhere re : forall s p,
  scan re p s = None ->
  forall l1 l2, s = l1 ++ l2 ->
  matcher (multiline re) (source re) (mkState (rev l1 ++ p) l2 []) Some = None.
Proof.
  induction s as [|c t IH]; intros p H l1 l2 Hs; rewrite scan_unfold in H.
  - destruct (matcher _ _ _ _) eqn:E; [discriminate|].
    destruct l1; [|discriminate]. cbn [app] in Hs. subst l2. exact E.
  - destruct (matcher _ _ (mkState p (c :: t) []) _) eqn:E; [discriminate|].
    destruct l1 as [|c' l1]; cbn [app] in Hs.
    + subst l2. exact E.
    + injection Hs as <- ->. cbn [rev]. rewrite <- app_assoc.
      apply (IH _ H l1 l2 eq_refl).
Qed.

Lemma spliceMatches_past (s : jsstring) : forall ms cur,
  Forall (fun m => endIndex m = length s) ms -> length s <= cur ->
  spliceMatches s [] cur ms = [].
Proof.
  induction ms as [|m ms IH]; intros cur Hall Hc; cbn [spliceMatches].
  - apply skipn_all2. exact Hc.
  - inversion Hall as [|? ? Hm Hms]; subst.
    unfold slice. rewrite (skipn_all2 s Hc), firstn_nil. cbn [app].
    apply IH; [exact Hms | lia].
Qed.

Lemma matchAll_anyBlockId_end s m :
  In m (matchAll anyBlockIdPattern s) -> endIndex m = length s.
Proof.
  intros H. apply matchAll_In in H.
  destruct H as (l1 & l2 & e & Ht & _ & Hm & He & _).
  apply anyBlockId_sound in Hm. destruct Hm as [_ Hp].
  rewrite He, Hp, Ht, length_rev, length_app. reflexivity.
Qed.

(** With the [g] flag the pattern still removes one match at most, the
    first: every match ends at the end of the text. *)
Lemma replaceAll_anyBlockId s :
  replaceAll anyBlockIdPattern [] s
  = match scan anyBlockIdPattern [] s with
    | Some (i, _) => firstn i s
    | None => s
    end.
Proof.
  unfold replaceAll.
  pose proof (matchAll_anyBlockId_end s) as Hend.
  unfold matchAll in *. cbn [matchAllFrom] in *.
  destruct (scan anyBlockIdPattern [] s) as [[i e]|]; [|reflexivity].
  match type of Hend with
  | forall m, In m (_ :: ?r) -> _ => remember r as rest eqn:Er
  end.
  clear Er. cbn [spliceMatches index endIndex].
  rewrite spliceMatches_past.
  - unfold slice. cbn [skipn app]. rewrite Nat.sub_0_r, app_nil_r. reflexivity.
  - apply Forall_forall. intros m Hm. apply Hend. right. exact Hm.
  - rewrite <- (Hend (mkMatch i (pos e) (caps e) s)) by (left; reflexivity).
    cbn [endIndex]. lia.
Qed.

Lemma replaceAll_anyBlockId_characterised s :
  (exists a b,
      s = a ++ b /\ blockIdTail b
      /\ (forall a' b', s = a' ++ b' -> blockIdTail b' -> length a <= length a')
      /\ replaceAll anyBlockIdPattern [] s = a)
  \/ ((forall a b, s = a ++ b -> ~ blockIdTail b)
      /\ replaceAll anyBlockIdPattern [] s = s).
Proof.
  rewrite replaceAll_anyBlockId.
  destruct (scan anyBlockIdPattern [] s) as [[i e]|] eqn:E.
  - left. pose proof (scan_least _ _ _ _ _ E) as Hleast.
    apply scan_at in E. destruct E as (l1 & l2 & Hs & Hi & Hm).
    cbn [multiline anyBlockIdPattern] in Hm.
    apply anyBlockId_sound in Hm. destruct Hm as [Hb _].
    exists l1, l2. split; [exact Hs|]. split; [exact Hb|]. split.
    + intros a' b' Hs' Hb'.
      destruct (Nat.le_gt_cases (length l1) (length a')) as [|Hlt]; [assumption|].
      exfalso. specialize (Hleast a' b' Hs'). cbn [length] in Hleast.
      destruct (anyBlockId_complete (rev a' ++ []) b' Hb') as [e' He'].
      cbn [multiline anyBlockIdPattern] in Hleast.
      rewrite Hleast in He' by (simpl in Hi; lia). discriminate.
    + simpl in Hi. subst i. rewrite Hs, firstn_app, firstn_all, Nat.sub_diag.
      cbn [firstn]. apply app_nil_r.
  - right. split; [|reflexivity]. intros a b Hs Hb.
    pose proof (scan_nowhere _ _ _ E a b Hs) as Hn.
    destruct (anyBlockId_complete (rev a ++ []) b Hb) as [e' He'].
    cbn [multiline anyBlockIdPattern] in Hn. rewrite Hn in He'. discriminate.
Qed.

(** ** Cleaning, line by line *)

(** X5.  Without a block id to look for, [cleanBlockContent] removes at most
    one block id, the one the line ends with: when some suffix of the line is
    white space, a caret, letters and digits and white space, the longest
    such suffix goes and what is left is trimmed; otherwise the line is
    trimmed and nothing else. *)
Theorem cleanBlockContent_characterised (line : jsstring) :
  (exists a b,
      line = a ++ b /\ blockIdTail b
      /\ (forall a' b', line = a' ++ b' -> blockIdTail b' -> length a <= length a')
      /\ cleanBlockContent line None = Some (trim a))
  \/ ((forall a b, line = a ++ b -> ~ blockIdTail b)
      /\ cleanBlockContent line None = Some (trim line)).
Proof.
  rewrite cleanBlockContent_None. unfold cleanLine.
  destruct (replaceAll_anyBlockId_characterised line) as [(a & b & H1 & H2 & H3 & H4)|[H1 H2]].
  - left. exists a, b. split; [exact H1|]. split; [exact H2|]. split; [exact H3|].
    destruct line as [|c t]; [|cbn [truthy]; rewrite H4; reflexivity].
    destruct a; [|discriminate]. reflexivity.
  - right. split; [exact H1|].
    destruct line as [|c t]; [reflexivity|]. cbn [truthy]. rewrite H2. reflexivity.
Qed.

(** X6.  [cleanAllBlockIds] works line by line and keeps the lines apart: the
    result has as many lines as the text, and its line [i] is the cleaning of
    line [i] of the text. *)
Theorem cleanAllBlockIds_line_by_line (content : jsstring) :
  exists out,
    cleanAllBlockIds content = Some out
    /\ length (split out) = length (split content)
    /\ forall i line, nth_error (split content) i = Some line ->
         exists r, cleanBlockContent line None = Some r
                   /\ nth_error (split out) i = Some r.
Proof.
  exists (join (map cleanLine (split content))).
  split; [apply cleanAllBlockIds_eq|].
  assert (Hs : split (join (map cleanLine (split content))) = map cleanLine (split content)).
  { apply split_join.
    - pose proof (split_nonempty content) as Hne.
      destruct (split content); [congruence | discriminate].
    - pose proof (split_noNL content) as Hall.
      induction Hall; constructor; [apply cleanLine_noNL|]; assumption. }
  rewrite Hs. split; [apply length_map|].
  intros i line Hi. exists (cleanLine line).
  split; [apply cleanBlockContent_None|]. apply map_nth_error. exact Hi.
Qed.

Lemma trim_last s t c : trim s = t ++ [c] -> isWhiteSpace c = false.
Proof.
  unfold trim, trimEnd. intros H.
  apply (f_equal (@rev N)) in H. rewrite rev_involutive, rev_app_distr in H.
  cbn [rev app] in H. eapply trimStart_head. exact H.
Qed.

(** X7.  Whatever the content and the block id, what [cleanBlockContent]
    returns neither begins nor ends with a white-space code unit. *)
Theorem cleaned_has_no_outer_white_space (content : jsstring) (blockId : option jsstring)
        (r : jsstring) :
  cleanBlockContent content blockId = Some r ->
  (forall c t, r = c :: t -> isWhiteSpace c = false)
  /\ (forall t c, r = t ++ [c] -> isWhiteSpace c = false).
Proof.
  unfold cleanBlockContent. destruct (negb (truthy content)).
  - intros H. injection H as <-. split.
    + intros c t H. discriminate.
    + intros t c H. destruct t; discriminate.
  - intros H.
    destruct (match blockId with Some _ => _ | None => _ end) as [content1|]; [|discriminate].
    injection H as <-. split.
    + intros c t H. eapply trim_head. exact H.
    + intros t c H. eapply trim_last. exact H.
Qed.

Lemma cleaned_has_no_outer_white_space_witness :
  (forall c t, js "item" = c :: t -> isWhiteSpace c = false)
  /\ (forall t c, js "item" = t ++ [c] -> isWhiteSpace c = false).
Proof.
  apply (cleaned_has_no_outer_white_space (js "  item ^id1 ") (Some (js "id1"))).
  vm_compute. reflexivity.
Defined.

(** ** What stands for a directive in the result *)

Lemma weave_In repl skip text m : forall ms lo out,
  weave repl skip text lo ms = Some out ->
  In m ms -> skip m = false ->
  exists p q tail t,
    repl (beforeEmbed text m) (hd_error tail) m = Some t
    /\ out = p ++ t ++ q /\ q = tail.
Proof.
  induction ms as [|x ms IH]; intros lo out H Hin Hs; [contradiction|].
  cbn [weave] in H.
  destruct (weave repl skip text (endIndex x) ms) as [tail|] eqn:Et; [|discriminate].
  destruct Hin as [->|Hin].
  - rewrite Hs in H.
    destruct (repl (beforeEmbed text m) (hd_error tail) m) as [t|] eqn:Er; [|discriminate].
    injection H as <-. exists (slice text lo (index m)), tail, tail, t.
    split; [exact Er|]. split; reflexivity.
  - destruct (IH _ _ Et Hin Hs) as (p & q & tl & t & Hr & Ho & Hq).
    destruct (skip x).
    + injection H as <-. exists (slice text lo (endIndex x) ++ p), q, tl, t.
      split; [exact Hr|]. split; [rewrite Ho, <- app_assoc; reflexivity | exact Hq].
    + destruct (repl (beforeEmbed text x) (hd_error tail) x) as [tx|]; [|discriminate].
      injection H as <-. exists (slice text lo (index x) ++ tx ++ p), q, tl, t.
      split; [exact Hr|]. split; [rewrite Ho, <- !app_assoc; reflexivity | exact Hq].
Qed.

Lemma headingLevelPattern_needs_heading hd text :
  includes text hd = false -> exec (headingLevelPattern hd) text = None.
Proof.
  intros H. unfold exec.
  destruct (scan _ [] text) as [[i e]|] eqn:E; [|reflexivity].
  exfalso. apply scan_matched in E. destruct E as (l1 & l2 & H1 & H2).
  cbn [headingLevelPattern source multiline cat fold_right] in H2.
  peel H2 s1 E1. peel H2 s2 E2. peel H2 s3 E3.
  rewrite matcher_Seq, matcher_lit in H2.
  destruct (stripPrefix hd (suf s3)) as [r|] eqn:Ep; [|discriminate].
  apply stripPrefix_Some in Ep.
  assert (Ex : extends (mkState (rev l1 ++ []) l2 []) s3)
    by (repeat (eapply extends_trans; [eassumption|]); apply extends_refl).
  apply extends_text in Ex. rewrite <- H1, Ep in Ex.
  rewrite Ex, includes_app in H. discriminate.
Qed.

Section Reported.
Context {TFile : Type} {host : Host TFile}.

Lemma resolved_directive content out m :
  resolveBlockReferences content = Some out ->
  In m (matchAll embedPattern content) ->
  index m <> 0 ->
  exists p q t,
    replacementWith findReplacement (beforeEmbed content m) (hd_error q) m = Some t
    /\ out = p ++ t ++ q.
Proof.
  intros H Hin Hi. unfold resolveBlockReferences in H.
  rewrite (spliceLoop_weave (replacementWith findReplacement)) in H
    by (try apply matchAll_chain; intros c x; apply resolveEmbed_replacementWith).
  apply Nat.eqb_neq in Hi.
  destruct (weave_In _ _ _ m _ _ _ H Hin Hi) as (p & q & tl & t & Hr & Ho & ->).
  exists p, tl, t. split; assumption.
Qed.

(** X8.  A directive away from offset 0 whose link resolves to no file shows
    in the result as [[File not found: <path>]], wherever it stands in the
    text and whatever the other directives are. *)
Theorem unknown_file_reported (content out : jsstring) (m : Match) :
  resolveBlockReferences content = Some out ->
  In m (matchAll embedPattern content) ->
  index m <> 0 ->
  getFirstLinkpathDest (filePathOf m) = None ->
  exists p q, out = p ++ fileNotFound (filePathOf m) ++ q.
Proof.
  intros H Hin Hi Hf.
  destruct (resolved_directive _ _ _ H Hin Hi) as (p & q & t & Hr & Ho).
  unfold replacementWith in Hr. rewrite Hf in Hr. injection Hr as <-.
  exists p, q. exact Ho.
Qed.

(** X9.  A block directive away from offset 0 whose file is there, and whose
    block id holds no pattern syntax character, is given nothing by the
    block cache of the file (there is no cache, or the read of the id in it
    is undefined: no entry and no inherited value) and stands after a caret
    nowhere in the text of the file: it shows in the result as
    [[Content not found: <path>#^<id>]]. *)
Theorem absent_block_reported (content out : jsstring) (m : Match) (f : TFile)
        (blockId : jsstring) :
  resolveBlockReferences content = Some out ->
  In m (matchAll embedPattern content) ->
  index m <> 0 ->
  getFirstLinkpathDest (filePathOf m) = Some f ->
  hashPartOf m = CARET :: blockId ->
  forallb (fun c => negb (isSyntaxCharacter c)) blockId = true ->
  cachedBlock (getFileCache f) blockId = Undefined ->
  includes (read f) (CARET :: blockId) = false ->
  exists p q, out = p ++ contentNotFound (filePathOf m) (CARET :: blockId) ++ q.
Proof.
  intros H Hin Hi Hf Hh Hsyn Hc Hinc.
  destruct (resolved_directive _ _ _ H Hin Hi) as (p & q & t & Hr & Ho).
  unfold replacementWith in Hr. rewrite Hf, Hh in Hr.
  unfold findReplacement, startsWith in Hr.
  cbn [stripPrefix skipn] in Hr. rewrite N.eqb_refl in Hr.
  assert (Hp : interpolate blockId <> None)
    by (unfold interpolate; rewrite Hsyn; discriminate).
  rewrite (block_absent_not_found _ _ _ Hc Hp Hinc) in Hr.
  cbn [isTruthy] in Hr. injection Hr as <-. exists p, q. exact Ho.
Qed.

(** X10.  A heading directive away from offset 0 whose file is there, but
    whose heading is neither in the cache of the file nor anywhere in its
    text, shows in the result as [[Content not found: <path>#<heading>]]. *)
Theorem absent_heading_reported (content out : jsstring) (m : Match) (f : TFile) :
  resolveBlockReferences content = Some out ->
  In m (matchAll embedPattern content) ->
  index m <> 0 ->
  getFirstLinkpathDest (filePathOf m) = Some f ->
  truthy (hashPartOf m) = true ->
  startsWith (hashPartOf m) [CARET] = false ->
  cachedHeading (getFileCache f) (hashPartOf m) = None ->
  includes (read f) (hashPartOf m) = false ->
  exists p q, out = p ++ contentNotFound (filePathOf m) (hashPartOf m) ++ q.
Proof.
  intros H Hin Hi Hf Ht Hs Hc Hinc.
  destruct (resolved_directive _ _ _ H Hin Hi) as (p & q & t & Hr & Ho).
  unfold replacementWith in Hr. rewrite Hf in Hr.
  unfold findReplacement in Hr. rewrite Hs, Ht in Hr.
  unfold headingReplacement in Hr. rewrite Hc in Hr. cbn [isTruthy] in Hr.
  unfold getHeadingContent in Hr.
  rewrite Hf, (headingLevelPattern_needs_heading _ _ Hinc) in Hr.
  cbn [isTruthy] in Hr. injection Hr as <-. exists p, q. exact Ho.
Qed.

(** X11.  A heading found in the cache, with a section that is not empty: the
    replacement is the lines from the heading's line up to, not including,
    the first later line that begins with one to six [#], no more than the
    heading's level, and a white-space code unit; or up to the end of the
    file when there is no such line.  The lines are joined again and the
    whole is trimmed. *)
Theorem cached_heading_section (filePath fileContent : jsstring)
        (fileCache : option CachedMetadata) (hashPart : jsstring) (h : HeadingCache) :
  cachedHeading fileCache hashPart = Some h ->
  truthy (headingSection fileContent (level h) (headingLine h)) = true ->
  exists endLine,
    headingReplacement filePath fileContent fileCache hashPart
    = Some (trim (join (sliceLines (split fileContent) (headingLine h) endLine)))
    /\ (forall j line, headingLine h < j < endLine ->
                       nth_error (split fileContent) j = Some line ->
                       isMarker (level h) line = false)
    /\ (endLine = length (split fileContent)
        \/ (headingLine h < endLine
            /\ exists line, nth_error (split fileContent) endLine = Some line
                            /\ isMarker (level h) line = true)).
Proof.
  intros Hc Ht. unfold headingReplacement. rewrite Hc. cbn [isTruthy]. rewrite Ht.
  destruct (headingSection_span fileContent (level h) (headingLine h))
    as (endLine & H1 & H2 & H3).
  exists endLine. rewrite H1. split; [reflexivity|]. split; assumption.
Qed.

(** X12.  A heading that is not found in the cache goes to
    [getHeadingContent], and what that gives holds no line terminator: the
    replacement is text of one line, whatever the section below the heading
    is. *)
Theorem heading_fallback_one_line (filePath fileContent : jsstring)
        (fileCache : option CachedMetadata) (hashPart r : jsstring) :
  cachedHeading fileCache hashPart = None ->
  headingReplacement filePath fileContent fileCache hashPart = Some r ->
  Forall (fun c => isLineTerminator c = false) r.
Proof.
  intros Hc H. unfold headingReplacement in H. rewrite Hc in H. cbn [isTruthy] in H.
  eapply getHeadingContent_one_line. exact H.
Qed.
End Reported.

(** ** The directives of a text *)

(** X1.  Every match of the embed pattern is a directive of the shape
    [![[<path><scope>]]]: the path, which is group 1, holds no line
    terminator; the scope is empty, and then group 2 took no part, or it is
    a [#] followed by group 2, which is not empty and holds no []].  The file
    path and the scope that the resolver works with are the two groups,
    trimmed. *)
Theorem directive_anatomy (text : jsstring) (m : Match) :
  In m (matchAll embedPattern text) ->
  exists before path scope rest,
    text = before ++ fullMatch m ++ rest
    /\ index m = length before
    /\ fullMatch m = js "![[" ++ path ++ scope ++ js "]]"
    /\ Forall (fun c => isLineTerminator c = false) path
    /\ capture m 1 = path
    /\ ((scope = [] /\ group m 2 = None)
        \/ exists g, scope = HASH :: g /\ g <> [] /\ ~ In RBRACKET g /\ group m 2 = Some g)
    /\ filePathOf m = trim path
    /\ hashPartOf m = trim (skipn 1 scope).
Proof.
  intros Hin. apply matchAll_embed_shape in Hin.
  destruct Hin as (before & path & scope & rest & Ht & Hinp & Hi & He & Hp & Hc1 & Hc2).
  exists before, path, scope, rest.
  assert (Hfull : fullMatch m = js "![[" ++ path ++ scope ++ js "]]").
  { unfold fullMatch. rewrite Hinp, Hi, He, Ht. apply slice_mid. }
  split; [rewrite Hfull; exact Ht|]. split; [exact Hi|]. split; [exact Hfull|].
  split; [exact Hp|]. split; [exact Hc1|]. split; [exact Hc2|].
  split; [unfold filePathOf; rewrite Hc1; reflexivity|].
  unfold hashPartOf.
  destruct Hc2 as [[-> ->]|(g & -> & Hg & _ & ->)]; [reflexivity|].
  destruct g; [congruence | reflexivity].
Qed.

Lemma directive_anatomy_witness :
  let text := js "see ![[Doc# A ]] there" in
  let m := mkMatch 4 16 [(2, (11, 14)); (1, (7, 10))] text in
  exists before path scope rest,
    text = before ++ fullMatch m ++ rest
    /\ index m = length before
    /\ fullMatch m = js "![[" ++ path ++ scope ++ js "]]"
    /\ Forall (fun c => isLineTerminator c = false) path
    /\ capture m 1 = path
    /\ ((scope = [] /\ group m 2 = None)
        \/ exists g, scope = HASH :: g /\ g <> [] /\ ~ In RBRACKET g /\ group m 2 = Some g)
    /\ filePathOf m = trim path
    /\ hashPartOf m = trim (skipn 1 scope).
Proof.
  intros text m. apply (directive_anatomy text m). vm_compute. left. reflexivity.
Defined.

(** X2.  The directives of a text come in the order of the text and do not
    overlap: each one ends before the next begins, spans five code units at
    least, and lies within the text. *)
Theorem directives_in_order (text : jsstring) (before : list Match) (m : Match)
        (after : list Match) :
  matchAll embedPattern text = before ++ m :: after ->
  Forall (fun m' => endIndex m' <= index m) before
  /\ index m + 5 <= endIndex m
  /\ endIndex m <= length text
  /\ Forall (fun m' => endIndex m <= index m') after.
Proof.
  intros H. pose proof (matchAll_chain embedPattern text) as Hc. rewrite H in Hc.
  destruct (chain_split _ _ _ _ _ Hc) as (H1 & H2 & H3).
  split; [exact H1|]. split; [|split; assumption].
  assert (Hin : In m (matchAll embedPattern text)).
  { rewrite H. apply in_or_app. right. left. reflexivity. }
  apply matchAll_embed_shape in Hin.
  destruct Hin as (b & path & scope & rest & _ & _ & Hi & He & _).
  rewrite He, Hi, !length_app.
  change (length (js "![[")) with 3. change (length (js "]]")) with 2. lia.
Qed.

Lemma directives_in_order_witness :
  let text := js "see ![[Doc#A]] and ![[Other]]" in
  let m1 := mkMatch 4 14 [(2, (11, 12)); (1, (7, 10))] text in
  let m2 := mkMatch 19 29 [(1, (22, 27))] text in
  Forall (fun m' => endIndex m' <= index m2) [m1]
  /\ index m2 + 5 <= endIndex m2
  /\ endIndex m2 <= length text
  /\ Forall (fun m' => endIndex m2 <= index m') [].
Proof.
  intros text m1 m2. apply (directives_in_order text [m1] m2 []).
  vm_compute. reflexivity.
Defined.

(** ** Examples of the diagnostics and of the heading sections *)

Lemma unknown_file_reported_witness :
  let content := js "a ![[Missing]] b ![[Doc#^abc]]" in
  let m := mkMatch 2 14 [(1, (5, 12))] content in
  exists p q, js "a [File not found: Missing] b line2" = p ++ fileNotFound (filePathOf m) ++ q.
Proof.
  intros content m.
  apply (unknown_file_reported (host := Demo.unindexed) content _ m).
  - vm_compute. reflexivity.
  - vm_compute. left. reflexivity.
  - vm_compute. discriminate.
  - vm_compute. reflexivity.
Defined.

Lemma absent_block_reported_witness :
  let content := js "x ![[Doc#^nope]] y" in
  let m := mkMatch 2 16 [(2, (9, 14)); (1, (5, 8))] content in
  exists p q,
    js "x [Content not found: Doc#^nope] y"
    = p ++ contentNotFound (filePathOf m) (CARET :: js "nope") ++ q.
Proof.
  intros content m.
  apply (absent_block_reported (host := Demo.indexed) content _ m 0 (js "nope")).
  - vm_compute. reflexivity.
  - vm_compute. left. reflexivity.
  - vm_compute. discriminate.
  - vm_compute. reflexivity.
  - vm_compute. reflexivity.
  - vm_compute. reflexivity.
  - vm_compute. reflexivity.
  - vm_compute. reflexivity.
Defined.

Lemma absent_heading_reported_witness :
  let content := js "x ![[Doc#Nope]] y" in
  let m := mkMatch 2 15 [(2, (9, 13)); (1, (5, 8))] content in
  exists p q,
    js "x [Content not found: Doc#Nope] y"
    = p ++ contentNotFound (filePathOf m) (hashPartOf m) ++ q.
Proof.
  intros content m.
  apply (absent_heading_reported (host := Demo.unindexed) content _ m 0).
  - vm_compute. reflexivity.
  - vm_compute. left. reflexivity.
  - vm_compute. discriminate.
  - vm_compute. reflexivity.
  - vm_compute. reflexivity.
  - vm_compute. reflexivity.
  - vm_compute. reflexivity.
  - vm_compute. reflexivity.
Defined.

Lemma cached_heading_section_witness :
  exists endLine,
    headingReplacement (host := Demo.indexed) (js "Doc") Demo.doc (Demo.cache 0) (js "b")
    = Some (trim (join (sliceLines (split Demo.doc) 3 endLine)))
    /\ (forall j line, 3 < j < endLine ->
                       nth_error (split Demo.doc) j = Some line ->
                       isMarker 2 line = false)
    /\ (endLine = length (split Demo.doc)
        \/ (3 < endLine
            /\ exists line, nth_error (split Demo.doc) endLine = Some line
                            /\ isMarker 2 line = true)).
Proof.
  apply (cached_heading_section (host := Demo.indexed) (js "Doc") Demo.doc (Demo.cache 0)
           (js "b") (mkHeading (js "B") 2 3)).
  - vm_compute. reflexivity.
  - vm_compute. reflexivity.
Defined.

Lemma heading_fallback_one_line_witness :
  Forall (fun c => isLineTerminator c = false) (js "line1").
Proof.
  apply (heading_fallback_one_line (host := Demo.unindexed) (js "Doc") Demo.doc None (js "A")).
  - reflexivity.
  - vm_compute. reflexivity.
Defined.

(** ** The path of a saved file *)

Lemma eqb_js_refl a : eqb_js a a = true.
Proof. apply eqb_js_spec. reflexivity. Qed.

Lemma endsWith_app a p : endsWith (a ++ p) p = true.
Proof.
  unfold endsWith. rewrite length_app.
  replace (length p <=? length a + length p) with true by (symmetry; apply Nat.leb_le; lia).
  replace (length a + length p - length p) with (length a) by lia.
  rewrite skipn_app, skipn_all, Nat.sub_diag. cbn [skipn app andb]. apply eqb_js_refl.
Qed.

Lemma endsWith_spec s p : endsWith s p = true <-> exists a, s = a ++ p.
Proof.
  split.
  - unfold endsWith. intros H. apply andb_true_iff in H. destruct H as [_ H].
    apply eqb_js_spec in H. exists (firstn (length s - length p) s).
    set (n := length s - length p) in *. rewrite <- H. symmetry. apply firstn_skipn.
  - intros [a ->]. apply endsWith_app.
Qed.

(** X13.  When [saveToFile] asks for a path, whatever the answer, the path
    it goes on with ends with [.md]: it is the answer itself when that ends
    with [.md], and the answer followed by [.md] otherwise; and it goes on
    exactly when the answer is not empty. *)
Theorem prompted_path_has_extension (answer path : jsstring) :
  targetPath [] answer = Some path <->
  answer <> []
  /\ ((exists a, answer = a ++ js ".md") /\ path = answer
      \/ ~ (exists a, answer = a ++ js ".md") /\ path = answer ++ js ".md").
Proof.
  unfold targetPath. cbn [truthy].
  destruct answer as [|c t]; cbn [truthy negb].
  - split; [discriminate | intros [H _]; congruence].
  - destruct (endsWith (c :: t) (js ".md")) eqn:E; cbn [negb].
    + apply endsWith_spec in E. split.
      * intros H. injection H as <-. split; [discriminate|]. left. split; [exact E | reflexivity].
      * intros [_ [[_ ->]|[Hn _]]]; [reflexivity | contradiction].
    + assert (Hn : ~ (exists a, c :: t = a ++ js ".md")).
      { intros Hex. apply endsWith_spec in Hex. congruence. }
      split.
      * intros H. injection H as <-. split; [discriminate|]. right. split; [exact Hn | reflexivity].
      * intros [_ [[Hex _]|[_ ->]]]; [contradiction | reflexivity].
Qed.

Lemma targetPath_keeps a :
  targetPath [] (a ++ js ".md") = Some (a ++ js ".md").
Proof.
  unfold targetPath. cbn [truthy]. rewrite endsWith_app. cbn [negb].
  destruct (a ++ js ".md") eqn:E; [|reflexivity].
  apply (f_equal (@length N)) in E. rewrite length_app in E.
  change (length (js ".md")) with 3 in E. simpl in E. lia.
Qed.

Lemma replaceFirst_md base :
  includes base (js ".md") = false -> replaceFirst (js ".md") [] (base ++ js ".md") = base.
Proof.
  change (js ".md") with [46%N; 109%N; 100%N].
  induction base as [|c t IH]; intros H; [reflexivity|].
  cbn [includes] in H. apply orb_false_iff in H. destruct H as [Hs Hi].
  cbn [replaceFirst app].
  assert (Hn : stripPrefix [46%N; 109%N; 100%N] (c :: t ++ [46%N; 109%N; 100%N]) = None).
  { unfold startsWith in Hs. cbn [stripPrefix] in *.
    destruct (46 =? c)%N; [|reflexivity].
    destruct t as [|d t]; [reflexivity|]. cbn [app] in *.
    destruct (109 =? d)%N; [|reflexivity].
    destruct t as [|e t]; [reflexivity|]. cbn [app] in *.
    destruct (100 =? e)%N; [discriminate | reflexivity]. }
  rewrite Hn. f_equal. apply IH. exact Hi.
Qed.

(** X14.  For a note [<base>.md] whose base holds no [.md], the name that
    [saveToFile] suggests is the prefix of the settings followed by the name
    of the note; and an answer that is this suggestion is the path the file
    is saved to, with no second extension. *)
Theorem suggested_name_of_note (fileNamePrefix base : jsstring) :
  includes base (js ".md") = false ->
  suggestedName fileNamePrefix (Some (base ++ js ".md")) = fileNamePrefix ++ base ++ js ".md"
  /\ targetPath [] (suggestedName fileNamePrefix (Some (base ++ js ".md")))
     = Some (fileNamePrefix ++ base ++ js ".md").
Proof.
  intros H. unfold suggestedName. rewrite (replaceFirst_md _ H).
  split; [reflexivity|].
  rewrite app_assoc. apply targetPath_keeps.
Qed.

Lemma suggested_name_of_note_witness :
  suggestedName (js "(Plain) ") (Some (js "My note.md")) = js "(Plain) My note.md"
  /\ targetPath [] (suggestedName (js "(Plain) ") (Some (js "My note.md")))
     = Some (js "(Plain) My note.md").
Proof.
  apply (suggested_name_of_note (js "(Plain) ") (js "My note")). vm_compute. reflexivity.
Defined.

(** ** What a block directive brings in *)

Lemma In_replace re c s : In c (replace re [] s) -> In c s.
Proof.
  unfold replace. destruct (exec re s) as [m|]; [|auto].
  cbn [app]. intros H. apply in_app_or in H.
  destruct H as [H|H]; [eapply In_firstn | eapply In_skipn]; exact H.
Qed.

Lemma In_cleanBlockContent c content blockId r :
  cleanBlockContent content blockId = Some r -> In c r -> In c content.
Proof.
  unfold cleanBlockContent. destruct (negb (truthy content)).
  - intros H. injection H as <-. contradiction.
  - intros H Hin.
    destruct (match blockId with Some _ => _ | None => _ end) as [content1|] eqn:E1;
      [|discriminate].
    injection H as <-. apply In_trim in Hin. unfold replaceAll in Hin.
    apply In_spliceMatches in Hin.
    destruct blockId as [id|]; [|injection E1 as <-; exact Hin].
    destruct (truthy id); [|injection E1 as <-; exact Hin].
    destruct (interpolate id) as [p|]; [|discriminate].
    injection E1 as <-. eapply In_replace. exact Hin.
Qed.

Lemma groupsOf_lit l : groupsOf (lit l) = [].
Proof. unfold lit. induction l as [|c l IH]; [reflexivity | exact IH]. Qed.

(** Group 1 of the block pattern is a run of code units within one line. *)
Lemma blockPattern_capture blockId text m :
  exec (blockPattern (lit blockId)) text = Some m ->
  Forall (fun c => isLineTerminator c = false) (capture m 1).
Proof.
  unfold exec. destruct (scan _ [] text) as [[i e]|] eqn:E; [|discriminate].
  intros Hm. injection Hm as <-.
  apply scan_matched in E. destruct E as (l1 & l2 & Ht & H).
  cbn [blockPattern source multiline cat fold_right] in H.
  rewrite matcher_Seq, matcher_Grp in H. unfold lazyStar in H.
  apply rep_class in H. destruct H as (l & s1 & A1 & A2 & A3 & A4 & _ & H).
  cbn [suf pre caps] in A1, A2, A3.
  apply matcher_frames in H. destruct H as (s2 & _ & K & H). injection H as <-.
  unfold capture, group. cbn [captured input].
  rewrite (K 1).
  - unfold setCap, pos. cbn [caps pre lookupCap Nat.eqb].
    rewrite A2, Ht, A1, !app_nil_r, length_app, !length_rev.
    rewrite (Nat.add_comm (length l) (length l1)), slice_mid.
    eapply Forall_impl; [|exact A4]. intros c Hc. apply negb_true_iff in Hc. exact Hc.
  - cbn [groupsOf app star chr]. rewrite groupsOf_lit. cbn [app ws].
    intros [].
Qed.

Lemma noNL_lineTerminators l :
  Forall (fun c => isLineTerminator c = false) l -> noNL l.
Proof.
  intros H Hin. eapply Forall_forall in H; [|exact Hin]. discriminate.
Qed.

(** X15.  Whatever way a block directive is resolved, through the cache,
    through the block pattern or through the search for the line that holds
    the id, its replacement holds no newline: a block embed brings in text of
    one line, and no more of a block that runs over several lines. *)
Theorem block_replacement_one_line (fileContent : jsstring)
        (fileCache : option CachedMetadata) (blockId r : jsstring) :
  blockReplacement fileContent fileCache blockId = Some (Some r) -> noNL r.
Proof.
  assert (Hline : forall line r', In line (split fileContent) ->
                    cleanBlockContent line (Some blockId) = Some r' -> noNL r').
  { intros line r' Hin Hc Hnl. apply (In_cleanBlockContent _ _ _ _ Hc) in Hnl.
    pose proof (split_noNL fileContent) as Hall.
    eapply Forall_forall in Hall; [|exact Hin]. exact (Hall Hnl). }
  unfold blockReplacement.
  destruct (cachedBlock fileCache blockId) as [b| |].
  - destruct (nth_error (split fileContent) (blockLine b)) as [line|] eqn:En.
    + destruct (cleanBlockContent line (Some blockId)) as [r'|] eqn:Ec; [|discriminate].
      intros H. injection H as <-. eapply Hline; [|exact Ec].
      eapply nth_error_In. exact En.
    + intros H. injection H as <-. intros [].
  - discriminate.
  - destruct (interpolate blockId) as [p|] eqn:Ep; [|discriminate].
    apply interpolate_lit in Ep. subst p.
    destruct (exec (blockPattern (lit blockId)) fileContent) as [blockMatch|] eqn:Ee.
    + pose proof (blockPattern_capture _ _ _ Ee) as Hcap.
      assert (Htrim : noNL (trim (capture blockMatch 1))).
      { intros Hin. apply In_trim in Hin.
        exact (noNL_lineTerminators _ Hcap Hin). }
      destruct (isTruthy (Some (trim (capture blockMatch 1)))).
      * intros H. injection H as <-. exact Htrim.
      * destruct (find _ (split fileContent)) as [line|] eqn:Ef.
        -- destruct (cleanBlockContent line (Some blockId)) as [r'|] eqn:Ec; [|discriminate].
           intros H. injection H as <-. eapply Hline; [|exact Ec].
           apply find_some in Ef. apply Ef.
        -- intros H. injection H as <-. exact Htrim.
    + cbn [isTruthy].
      destruct (find _ (split fileContent)) as [line|] eqn:Ef; [|discriminate].
      destruct (cleanBlockContent line (Some blockId)) as [r'|] eqn:Ec; [|discriminate].
      intros H. injection H as <-. eapply Hline; [|exact Ec].
      apply find_some in Ef. apply Ef.
Qed.

Lemma block_replacement_one_line_witness : noNL (js "line2").
Proof.
  apply (block_replacement_one_line Demo.doc (Demo.cache 0) (js "abc")).
  vm_compute. reflexivity.
Defined.

(** ** The buttons on the screen *)

(** X16.  With no settings view open, one call of [updateButtonLocations]
    gives a hidden button no control and every other button exactly one, a
    ribbon icon or a place in a floating container, and it never puts two
    floating containers at one position: two buttons with the same floating
    position share one container.  The exception is in
    [createFloatingButtonGroup]: when the root split of the workspace is not
    found, the shared container holds neither button. *)
Theorem one_control_per_button (mainContent : bool)
        (copyButtonPosition saveButtonPosition : Buttons.ButtonPosition)
        (type : Buttons.ButtonType) (position : Buttons.ButtonPosition) :
  let controls :=
    Buttons.updateButtonLocations false mainContent copyButtonPosition saveButtonPosition in
  length (filter (Buttons.holds type) controls)
  = (if Buttons.eqb_ButtonPosition
          (Buttons.positionOf type copyButtonPosition saveButtonPosition) Buttons.hidden
     then 0
     else if negb mainContent && Buttons.isFloating copyButtonPosition
             && Buttons.eqb_ButtonPosition copyButtonPosition saveButtonPosition
          then 0 else 1)
  /\ length (filter (Buttons.floatsAt position) controls) <= 1.
Proof.
  destruct mainContent,
           copyButtonPosition as [| |[|] [| |]], saveButtonPosition as [| |[|] [| |]],
           type, position as [| |[|] [| |]];
    split; cbv; repeat constructor.
Qed.

(** X18.  In a workspace that gives, for a type, leaves whose view is of
    that type, [isSettingsOpen] never answers yes: it looks for a view of
    type [setting] among the leaves of type [markdown] and [empty] only. *)
Theorem isSettingsOpen_never {Leaf : Type} {workspace : Buttons.Workspace Leaf} :
  (forall t leaf, In leaf (Buttons.getLeavesOfType t) -> Buttons.getViewType leaf = Some t) ->
  Buttons.isSettingsOpen = false.
Proof.
  intros H. unfold Buttons.isSettingsOpen.
  destruct (existsb _ _) eqn:E; [|reflexivity].
  apply existsb_exists in E. destruct E as (leaf & Hin & Hv).
  apply in_app_or in Hin. destruct Hin as [Hin|Hin];
    rewrite (H _ _ Hin) in Hv; vm_compute in Hv; discriminate.
Qed.

Lemma isSettingsOpen_never_witness :
  Buttons.isSettingsOpen (workspace := Buttons.oneLeafEach) = false.
Proof.
  apply (isSettingsOpen_never (workspace := Buttons.oneLeafEach)).
  intros t leaf [<-|[]]. reflexivity.
Defined.

(** ** Cleaning with a block id *)

Lemma thisBlockId_sound id pr l2 e :
  matcher false (source (thisBlockIdPattern (lit id))) (mkState pr l2 []) Some = Some e ->
  idTail id l2 /\ pos e = length pr + length l2.
Proof.
  cbn [thisBlockIdPattern source cat fold_right]. intros H.
  rewrite matcher_Seq, matcher_chr in H. cbn [suf pre caps] in H.
  destruct l2 as [|x t]; [discriminate|].
  destruct (N.eqb_spec CARET x) as [<-|]; [|discriminate].
  rewrite matcher_Seq, matcher_lit in H. cbn [suf pre caps] in H.
  destruct (stripPrefix id t) as [r|] eqn:Ep; [|discriminate].
  apply stripPrefix_Some in Ep.
  rewrite matcher_Seq in H. unfold star in H. apply rep_class in H.
  destruct H as (w & s3 & C1 & C2 & C3 & C4 & _ & H). cbn [suf pre caps] in C1, C2.
  rewrite matcher_Seq in H. cbn [matcher] in H. unfold atEol in H.
  destruct (suf s3) as [|y u] eqn:Es3; [|discriminate]. injection H as <-.
  rewrite app_nil_r in C1. split.
  - exists w. split; [rewrite Ep, C1; reflexivity | exact C4].
  - unfold pos. rewrite C2, Ep, C1. cbn [length].
    rewrite !length_app, !length_rev. cbn [length]. lia.
Qed.

Lemma thisBlockId_complete id pr l2 :
  idTail id l2 ->
  exists e, matcher false (source (thisBlockIdPattern (lit id))) (mkState pr l2 []) Some = Some e.
Proof.
  intros (w & -> & Hw). eexists. cbn [thisBlockIdPattern source cat fold_right].
  rewrite matcher_Seq, matcher_chr. cbn [suf pre caps]. rewrite N.eqb_refl.
  rewrite matcher_Seq, matcher_lit. cbn [suf pre caps]. rewrite stripPrefix_app.
  rewrite matcher_Seq. apply star_run_end; [exact Hw|].
  rewrite matcher_Seq. cbn [matcher atEol suf]. reflexivity.
Qed.

(** Without the [g] flag and with [$] at its end, the pattern cuts the text
    at the first offset from which the rest is an [idTail]. *)
Lemma replace_thisBlockId id s :
  (exists a b,
      s = a ++ b /\ idTail id b
      /\ (forall a' b', s = a' ++ b' -> idTail id b' -> length a <= length a')
      /\ replace (thisBlockIdPattern (lit id)) [] s = a)
  \/ ((forall a b, s = a ++ b -> ~ idTail id b)
      /\ replace (thisBlockIdPattern (lit id)) [] s = s).
Proof.
  unfold replace, exec.
  destruct (scan (thisBlockIdPattern (lit id)) [] s) as [[i e]|] eqn:E.
  - left. pose proof (scan_least _ _ _ _ _ E) as Hleast.
    apply scan_at in E. destruct E as (l1 & l2 & Hs & Hi & Hm).
    cbn [multiline thisBlockIdPattern] in Hm.
    apply thisBlockId_sound in Hm. destruct Hm as [Hb Hp].
    exists l1, l2. split; [exact Hs|]. split; [exact Hb|]. split.
    + intros a' b' Hs' Hb'.
      destruct (Nat.le_gt_cases (length l1) (length a')) as [|Hlt]; [assumption|].
      exfalso. specialize (Hleast a' b' Hs'). cbn [length] in Hleast.
      destruct (thisBlockId_complete id (rev a' ++ []) b' Hb') as [e' He'].
      cbn [multiline thisBlockIdPattern] in Hleast.
      rewrite Hleast in He' by (simpl in Hi; lia). discriminate.
    + cbn [index endIndex app]. simpl in Hi. subst i.
      rewrite Hp, Hs, app_nil_r, length_rev, firstn_app, firstn_all, Nat.sub_diag.
      cbn [firstn]. rewrite app_nil_r.
      rewrite skipn_all2 by (rewrite length_app; lia). apply app_nil_r.
  - right. split; [|reflexivity]. intros a b Hs Hb.
    pose proof (scan_nowhere _ _ _ E a b Hs) as Hn.
    destruct (thisBlockId_complete id (rev a ++ []) b Hb) as [e' He'].
    cbn [multiline thisBlockIdPattern] in Hn. rewrite Hn in He'. discriminate.
Qed.

Lemma replaceAll_nil re : 
  matcher (multiline re) (source re) (mkState [] [] []) Some = None ->
  replaceAll re [] [] = [].
Proof.
  intros H. unfold replaceAll, matchAll. cbn [length matchAllFrom].
  rewrite scan_unfold, H. reflexivity.
Qed.

(** X17.  With a block id to look for, one that is not empty and holds no
    pattern syntax character, [cleanBlockContent] first cuts the content at
    the first offset from which the rest is a caret, the id and white space,
    and is then what it is without a block id, on what is left: the id goes
    whether or not it is made of letters and digits, and a second block id
    before it goes too.  When the content does not end that way, the id makes
    no difference. *)
Theorem cleanBlockContent_with_id (content id : jsstring) :
  id <> [] -> interpolate id <> None ->
  (exists a b,
      content = a ++ b /\ idTail id b
      /\ (forall a' b', content = a' ++ b' -> idTail id b' -> length a <= length a')
      /\ cleanBlockContent content (Some id) = cleanBlockContent a None)
  \/ ((forall a b, content = a ++ b -> ~ idTail id b)
      /\ cleanBlockContent content (Some id) = cleanBlockContent content None).
Proof.
  intros Hid Hp.
  destruct (interpolate id) as [p|] eqn:Ep; [|congruence].
  apply interpolate_lit in Ep as Hlit. subst p.
  destruct (replace_thisBlockId id content) as [(a & b & H1 & H2 & H3 & H4)|[H1 H2]].
  - left. exists a, b. split; [exact H1|]. split; [exact H2|]. split; [exact H3|].
    destruct H2 as (w & Hb & _).
    destruct content as [|c t].
    { destruct a; [|discriminate]. cbn [app] in H1. subst b. discriminate. }
    unfold cleanBlockContent at 1. cbn [truthy negb].
    destruct id as [|i0 id']; [congruence|]. cbn [truthy]. rewrite Ep, H4.
    destruct a as [|x a']; [|reflexivity].
    rewrite replaceAll_nil by reflexivity. reflexivity.
  - right. split; [exact H1|].
    unfold cleanBlockContent. destruct (negb (truthy content)); [reflexivity|].
    destruct id as [|i0 id']; [congruence|]. cbn [truthy]. rewrite Ep, H2.
    reflexivity.
Qed.

Lemma cleanBlockContent_with_id_witness :
  (exists a b,
      js "text ^old ^my-id " = a ++ b /\ idTail (js "my-id") b
      /\ (forall a' b', js "text ^old ^my-id " = a' ++ b' -> idTail (js "my-id") b' ->
                        length a <= length a')
      /\ cleanBlockContent (js "text ^old ^my-id ") (Some (js "my-id")) = cleanBlockContent a None)
  \/ ((forall a b, js "text ^old ^my-id " = a ++ b -> ~ idTail (js "my-id") b)
      /\ cleanBlockContent (js "text ^old ^my-id ") (Some (js "my-id"))
         = cleanBlockContent (js "text ^old ^my-id ") None).
Proof.
  apply (cleanBlockContent_with_id (js "text ^old ^my-id ") (js "my-id")).
  - vm_compute. discriminate.
  - vm_compute. discriminate.
Defined.

(** ** The revision that keeps the indentation *)









(** ** A block id that names an inherited property *)

Section InheritedIds.
Context {TFile : Type} {host : Host TFile}.

(** X20.  A block directive away from offset 0, to a file that is there and
    has a block cache, whose id is a name of [Object.prototype], such as
    [constructor] or [toString], and is no entry of the cache's own: the
    read of the cache gives the inherited value, the cache branch is taken,
    and the resolver ends with a TypeError.  No text is returned, whatever
    the rest of the text is. *)
Theorem inherited_block_id_has_no_result (content : jsstring) (m : Match) (f : TFile)
        (blockId : jsstring) (c : CachedMetadata) (bs : list (jsstring * BlockCache)) :
  In m (matchAll embedPattern content) ->
  index m <> 0 ->
  getFirstLinkpathDest (filePathOf m) = Some f ->
  hashPartOf m = CARET :: blockId ->
  getFileCache f = Some c ->
  blocks c = Some bs ->
  ownBlock blockId bs = None ->
  In blockId objectPrototypeNames ->
  resolveBlockReferences content = None.
Proof.
  intros Hin Hi Hf Hh Hc Hb Hown Hname.
  assert (Hread : cachedBlock (getFileCache f) blockId = Inherited).
  { unfold cachedBlock, lookupBlock. rewrite Hc, Hb, Hown.
    replace (existsb (eqb_js blockId) objectPrototypeNames) with true; [reflexivity|].
    symmetry. apply existsb_exists. exists blockId. split; [exact Hname | apply eqb_js_refl]. }
  destruct (resolveBlockReferences content) as [out|] eqn:E; [|reflexivity].
  exfalso. destruct (resolved_directive _ _ _ E Hin Hi) as (p & q & t & Hr & _).
  unfold replacementWith in Hr. rewrite Hf, Hh in Hr.
  unfold findReplacement, startsWith in Hr.
  cbn [stripPrefix skipn] in Hr. rewrite N.eqb_refl in Hr.
  unfold blockReplacement in Hr. rewrite Hread in Hr. discriminate.
Qed.
End InheritedIds.

Lemma inherited_block_id_has_no_result_witness :
  resolveBlockReferences (host := Demo.indexed) (js "![[Doc]] x ![[Doc#^constructor]] y") = None.
Proof.
  eapply (inherited_block_id_has_no_result (host := Demo.indexed)
            (js "![[Doc]] x ![[Doc#^constructor]] y")
            (mkMatch 11 32 [(2, (18, 30)); (1, (14, 17))]
                     (js "![[Doc]] x ![[Doc#^constructor]] y"))
            0 (js "constructor")).
  - vm_compute. right. left. reflexivity.
  - vm_compute. discriminate.
  - vm_compute. reflexivity.
  - vm_compute. reflexivity.
  - reflexivity.
  - reflexivity.
  - vm_compute. reflexivity.
  - vm_compute. left. reflexivity.
Defined.
